(** * Post-processing of SLAM occupancy grids: a shallow embedding

    The development follows the three Python sources:

    - [src/utils.py]          : [preprocess_image], the three-way threshold
                                classifier;
    - [src/post_proc_slam.py] : class [FloorPlanProcessor] with
                                [detect_lines], [draw_floor_plan] and the
                                SVG / JSON / DXF exporters;
    - [main.py]               : the per-image pipeline, in particular the call
                                of [detect_lines].

    The loaders of [src/utils.py] ([validate_file_path], [load_image],
    [load_metadata], [load_image_and_metadata]) and the whole of [main] are
    embedded as well, over a program state that holds the arrays in memory,
    the files written and the directories created; the files present when
    the program starts are parameters.

    Conventions.

    - A grayscale raster (a [numpy] array of dtype [uint8]) is a list of rows
      of [Z]; arrays live in a heap of references, because the classifier and
      the renderer create and fill arrays in place.
    - The thresholds read from the YAML file are Python floats, that is
      binary64 numbers; a finite float is the rational it denotes ([Q]), and
      [occupied_thresh * 255] is the product rounded to the nearest float,
      ties to even ([float64.mul]).
    - The array of detected lines has shape (N, 1, 4) and dtype [int32]; it is
      a list of segments.  [cv2.HoughLinesP] yields [None] instead of an
      empty array, hence the [option].
    - The calls into [cv2] ([Canny], [HoughLinesP], [line]) are parameters of
      the section that uses them.
    - [json.dump] is the encoder that produces the text Python writes with
      [indent=4]; [json.loads] is a decoder for the fragment of JSON this
      encoder emits.  [svgwrite] and [ezdxf] are modelled by the documents
      they are asked to build and save; [svgwrite] checks the numbers of
      a drawing of profile [tiny] when they are set.
    - Whether [os.makedirs] can create the output directory and whether
      [cv2.imwrite] can write a file depends on the file system; both are
      parameters of the program. *)

From Stdlib Require Import ZArith QArith Qround Qpower Qabs Lia Lqa String Ascii.
From Stdlib Require Import SpecFloat.
From Stdlib Require Import DecimalFacts DecimalPos.
From stdpp Require Import base option list gmap strings.

Local Open Scope Z_scope.

(** ** Comparisons of a pixel with a float threshold *)

Module Cmp.

Definition Qltb (a b : Q) : bool := negb (Qle_bool b a).

(** [v > t], [v < t], [v >= t], [v <= t] for an integer pixel [v] and a
    threshold [t], as [numpy] evaluates them elementwise. *)
Definition gt (v : Z) (t : Q) : bool := Qltb t (inject_Z v).
Definition lt (v : Z) (t : Q) : bool := Qltb (inject_Z v) t.
Definition ge (v : Z) (t : Q) : bool := Qle_bool t (inject_Z v).
Definition le (v : Z) (t : Q) : bool := Qle_bool (inject_Z v) t.

End Cmp.

(** ** Python floats

    A finite binary64 number is the rational it denotes.  The result of an
    arithmetic operation is the exact result rounded to the nearest number
    with 53 significant bits, ties to the even one; below [2^-1022] the
    spacing stays [2^-1074].  A product beyond the largest float is [inf] in
    Python; [round] then gives a number beyond [2^1023] of the same sign,
    which compares with a pixel as [inf] does.  The infinities and [nan]
    themselves are left out: a calibration that holds [.inf] or [.nan] is
    outside the model. *)

Module float64.

(** The nearest integer, ties to the even one. *)
Definition rne (x : Q) : Z :=
  let f := Qfloor x in
  match (x - inject_Z f ?= 1 # 2)%Q with
  | Lt => f
  | Eq => if Z.even f then f else f + 1
  | Gt => f + 1
  end.

(** [floor (log2 q)] for a positive [q]. *)
Definition ilog2 (q : Q) : Z :=
  if Qle_bool 1 q then Z.log2 (Qfloor q) else - Z.log2_up (Qceiling (/ q)).

(** The exponent of the last of the 53 bits of [q]. *)
Definition ulp_exponent (q : Q) : Z := Z.max (ilog2 q - 52) (-1074).

Definition round_pos (q : Q) : Q :=
  let e := ulp_exponent q in
  (inject_Z (rne (q * 2 ^ (- e))) * 2 ^ e)%Q.

Definition round (q : Q) : Q :=
  match Qnum q with
  | Z0 => 0%Q
  | Zpos _ => round_pos q
  | Zneg _ => (- round_pos (- q))%Q
  end.

(** [a * b] *)
Definition mul (a b : Q) : Q := round (a * b).

Definition max_float : Q := (inject_Z (2 ^ 53 - 1) * 2 ^ 971)%Q.

(** The number a finite float of [SpecFloat], the specification of IEEE 754
    in the Standard Library, denotes. *)
Definition of_spec (f : spec_float) : option Q :=
  match f with
  | S754_zero _ => Some 0%Q
  | S754_finite s m e =>
      Some ((if s then -1 else 1) * inject_Z (Z.pos m) * 2 ^ e)%Q
  | S754_infinity _ | S754_nan => None
  end.

(** [a * b] as [SpecFloat] computes it in binary64, for [a] the float of
    significand [m] and exponent [e] and [b] a small integer. *)
Definition spec_mul (m : positive) (e : Z) (b : positive) : option Q :=
  of_spec (SFmul 53 1024 (S754_finite false m e) (S754_finite false b 0)).

(** [q] is a finite float. *)
Definition is_float (q : Q) : bool :=
  Qeq_bool (round q) q && Qle_bool (Qabs q) max_float.

End float64.

(** ** Arrays and the heap *)

Abbreviation raster := (list (list Z)).
Abbreviation bmask := (list (list bool)).
Abbreviation loc := positive.

Abbreviation heap := (gmap loc raster).

(** [a[i][j]] *)
Definition pixel (a : raster) (i j : nat) : option Z :=
  row ← a !! i; row !! j.

(** [m[i][j]] for a boolean mask *)
Definition mask_at (m : bmask) (i j : nat) : option bool :=
  row ← m !! i; row !! j.

Definition shape (a : raster) : list nat := map length a.

(** Computations on the heap: [None] is a dangling reference. *)
Definition M (A : Type) : Type := heap → option (A * heap).

Definition ret {A} (x : A) : M A := λ h, Some (x, h).

Definition bind {A B} (m : M A) (k : A → M B) : M B :=
  λ h, match m h with
       | Some (x, h') => k x h'
       | None => None
       end.

Notation "'let*' x := m 'in' k" := (bind m (λ x, k))
  (at level 10, x name, m at level 100, k at level 200, only parsing).

Definition alloc (a : raster) : M loc :=
  λ h, let l := fresh (dom h) in Some (l, <[l := a]> h).

Definition load (l : loc) : M raster :=
  λ h, match h !! l with
       | Some a => Some (a, h)
       | None => None
       end.

Definition store (l : loc) (a : raster) : M unit :=
  λ h, match h !! l with
       | Some _ => Some (tt, <[l := a]> h)
       | None => None
       end.

(** ** numpy operations used by the classifier *)

Module np.

Definition zeros (a : raster) : raster := map (map (λ _, 0)) a.

(** [np.zeros_like(image)]: a new array of the shape of [image]. *)
Definition zeros_like (image : loc) : M loc :=
  let* a := load image in alloc (zeros a).

(** [image > t] and the like: a new boolean array. *)
Definition compare (op : Z → Q → bool) (image : loc) (t : Q) : M bmask :=
  let* a := load image in ret (map (map (λ v, op v t)) a).

(** [m1 & m2] *)
Fixpoint and_row (m1 m2 : list bool) : list bool :=
  match m1, m2 with
  | b1 :: m1', b2 :: m2' => (b1 && b2) :: and_row m1' m2'
  | _, _ => []
  end.

Fixpoint and_ (m1 m2 : bmask) : bmask :=
  match m1, m2 with
  | r1 :: m1', r2 :: m2' => and_row r1 r2 :: and_ m1' m2'
  | _, _ => []
  end.

(** [arr[mask] = val] on one row, then on the array; the mask has the
    shape of the array. *)
Fixpoint set_row (m : list bool) (val : Z) (r : list Z) : list Z :=
  match r, m with
  | x :: r', b :: m' => (if b then val else x) :: set_row m' val r'
  | _, _ => r
  end.

Fixpoint set_where (m : bmask) (val : Z) (a : raster) : raster :=
  match a, m with
  | r :: a', mr :: m' => set_row mr val r :: set_where m' val a'
  | _, _ => a
  end.

(** [arr[mask] = val]: writes into the array [arr] refers to. *)
Definition setitem (arr : loc) (m : bmask) (val : Z) : M unit :=
  let* a := load arr in store arr (set_where m val a).

(** uint8 arithmetic wraps modulo 256. *)
Definition wrap8 (z : Z) : Z := z mod 256.

(** [c - arr] for a Python int [c]: a new uint8 array. *)
Definition rsub (c : Z) (arr : loc) : M loc :=
  let* a := load arr in alloc (map (map (λ v, wrap8 (c - v))) a).

End np.

(** ** src/utils.py *)

Definition OCCUPIED : Z := 255.
Definition FREE : Z := 0.
Definition UNKNOWN : Z := 127.

Definition preprocess_image (image : loc) (occupied_thresh free_thresh : Q)
    (negate : bool) : M loc :=
  let* binary_image := np.zeros_like image in
  let* occ := np.compare Cmp.gt image (float64.mul occupied_thresh 255) in
  let* _ := np.setitem binary_image occ 255 in
  let* fre := np.compare Cmp.lt image (float64.mul free_thresh 255) in
  let* _ := np.setitem binary_image fre 0 in
  let* lo := np.compare Cmp.ge image (float64.mul free_thresh 255) in
  let* hi := np.compare Cmp.le image (float64.mul occupied_thresh 255) in
  let* _ := np.setitem binary_image (np.and_ lo hi) 127 in
  if negate then np.rsub 255 binary_image
  else ret binary_image.

(** The value the three masked assignments leave in a cell whose source
    intensity is [v]: each assignment overwrites the previous ones. *)
Definition classify_pixel (occupied_thresh free_thresh : Q) (v : Z) : Z :=
  let c0 := 0 in
  let c1 := if Cmp.gt v (float64.mul occupied_thresh 255) then 255 else c0 in
  let c2 := if Cmp.lt v (float64.mul free_thresh 255) then 0 else c1 in
  if Cmp.ge v (float64.mul free_thresh 255)
     && Cmp.le v (float64.mul occupied_thresh 255)
  then 127 else c2.

Definition negate_pixel (c : Z) : Z := np.wrap8 (255 - c).

(** The classified raster as a value. *)
Definition classified (occupied_thresh free_thresh : Q) (negate : bool)
    (a : raster) : raster :=
  map (map (λ v, let c := classify_pixel occupied_thresh free_thresh v in
                 if negate then negate_pixel c else c)) a.

(** ** Line segments, calibration, and what the exporters can raise *)

(** One row [[x1, y1, x2, y2]] of the array of detected lines. *)
Record segment := Segment { x1 : Z; y1 : Z; x2 : Z; y2 : Z }.

(** The value of [lines]: [None], or an array of N segments. *)
Definition lines_t := option (list segment).

(** The dictionary read from the YAML file. *)
Record metadata := Metadata {
  resolution : Q;
  occupied_thresh : Q;
  free_thresh : Q;
  negate : bool
}.

Inductive pyerror := TypeError | ValueError.

(** A float argument of the line extractor: a decimal value, or [np.pi / d]. *)
Inductive pyfloat :=
| Dec (q : Q)
| PiOver (d : Z).

(** The arguments [cv2.HoughLinesP] receives after the edge map. *)
Record hough_args := HoughArgs {
  rho : pyfloat;
  theta : pyfloat;
  threshold : Z;
  minLineLength : Z;
  maxLineGap : Z
}.

(** int32 arithmetic wraps modulo 2^32. *)
Definition wrap32 (z : Z) : Z := (z + 2 ^ 31) mod 2 ^ 32 - 2 ^ 31.

(** [float(x)] of an int32 is exact. *)
Definition float (x : Z) : Q := inject_Z x.

(** ** The documents the exporters write *)

Record svg_line := SvgLine {
  sl_start : Q * Q;
  sl_end : Q * Q;
  sl_stroke : string
}.

Record svg_drawing := SvgDrawing {
  svg_size : Q * Q;
  svg_profile : string;
  (** minx, miny, width, height *)
  svg_viewbox : Z * Z * Z * Z;
  svg_elements : list svg_line
}.

Record dxf_line := DxfLine { dl_start : Z * Z; dl_end : Z * Z }.

Record dxf_doc := DxfDoc { dxfversion : string; modelspace : list dxf_line }.

Inductive file :=
| SvgFile (d : svg_drawing)
| JsonFile (text : string)
| DxfFile (d : dxf_doc).

Abbreviation fsys := (gmap string file).

(** ** Python values and the [json] module *)

#[local] Unset Elimination Schemes.
Inductive pyval :=
| PInt (z : Z)
| PStr (s : list ascii)
| PTuple (l : list pyval)
| PList (l : list pyval)
| PDict (l : list (list ascii * pyval)).
#[local] Set Elimination Schemes.

Module json.

Definition chars (s : string) : list ascii := list_ascii_of_string s.

Fixpoint uint_chars (d : Decimal.uint) : list ascii :=
  match d with
  | Decimal.Nil => []
  | Decimal.D0 d => "0"%char :: uint_chars d
  | Decimal.D1 d => "1"%char :: uint_chars d
  | Decimal.D2 d => "2"%char :: uint_chars d
  | Decimal.D3 d => "3"%char :: uint_chars d
  | Decimal.D4 d => "4"%char :: uint_chars d
  | Decimal.D5 d => "5"%char :: uint_chars d
  | Decimal.D6 d => "6"%char :: uint_chars d
  | Decimal.D7 d => "7"%char :: uint_chars d
  | Decimal.D8 d => "8"%char :: uint_chars d
  | Decimal.D9 d => "9"%char :: uint_chars d
  end.

(** [int.__repr__]: decimal digits, a minus sign for negatives. *)
Definition repr_int (z : Z) : list ascii :=
  match Z.to_int z with
  | Decimal.Pos d => uint_chars d
  | Decimal.Neg d => "-"%char :: uint_chars d
  end.

(** A string between double quotes.  The only strings the exporter emits
    are the keys [start] and [end]; escape sequences are not modelled. *)
Definition quote (s : list ascii) : list ascii :=
  "034"%char :: s ++ ["034"%char].

Definition newline_indent (level : nat) : list ascii :=
  "010"%char :: repeat " "%char (4 * level).

Fixpoint join (sep : list ascii) (parts : list (list ascii)) : list ascii :=
  match parts with
  | [] => []
  | [p] => p
  | p :: ps => p ++ sep ++ join sep ps
  end.

(** The encoder of [json.dump(obj, f, indent=4)]: lists and tuples become
    arrays, dictionaries become objects in insertion order; item separator
    [","], key separator [": "]. *)
Fixpoint encode (level : nat) (v : pyval) {struct v} : list ascii :=
  let sep := ","%char :: newline_indent (S level) in
  let array (l : list pyval) :=
    match l with
    | [] => chars "[]"
    | _ => "["%char :: newline_indent (S level)
           ++ join sep (map (encode (S level)) l)
           ++ newline_indent level ++ ["]"%char]
    end in
  match v with
  | PInt z => repr_int z
  | PStr s => quote s
  | PTuple l => array l
  | PList l => array l
  | PDict l =>
      match l with
      | [] => chars "{}"
      | _ => "{"%char :: newline_indent (S level)
             ++ join sep (map (λ kv, quote kv.1 ++ chars ": "
                                     ++ encode (S level) kv.2) l)
             ++ newline_indent level ++ ["}"%char]
      end
  end.

(** [json.dumps(obj, indent=4)] *)
Definition dumps (v : pyval) : string := string_of_list_ascii (encode 0 v).

(** *** The decoder, for the fragment of JSON the encoder above emits:
    integers, strings without escapes, arrays and objects. *)

Definition is_ws (c : ascii) : bool :=
  match c with
  | " "%char | "009"%char | "010"%char | "013"%char => true
  | _ => false
  end.

Fixpoint skip_ws (s : list ascii) : list ascii :=
  match s with
  | c :: s' => if is_ws c then skip_ws s' else s
  | [] => []
  end.

(** The value of a decimal digit, from its character code. *)
Definition digit_val (c : ascii) : option N :=
  let code := N_of_ascii c in
  if (48 <=? code)%N && (code <=? 57)%N then Some (code - 48)%N else None.

Fixpoint parse_digits (acc : N) (s : list ascii) : N * list ascii :=
  match s with
  | c :: s' =>
      match digit_val c with
      | Some d => parse_digits (10 * acc + d)%N s'
      | None => (acc, s)
      end
  | [] => (acc, [])
  end.

(** A JSON number without fraction or exponent: [0], or a nonzero digit
    followed by digits. *)
Definition parse_nat (s : list ascii) : option (N * list ascii) :=
  match s with
  | c :: s' =>
      match digit_val c with
      | Some 0%N => Some (0%N, s')
      | Some d => Some (parse_digits d s')
      | None => None
      end
  | [] => None
  end.

Definition parse_int (s : list ascii) : option (Z * list ascii) :=
  match s with
  | [] => None
  | c :: s' =>
      if Ascii.eqb c "-"%char then
        match parse_nat s' with
        | Some (n, r) => Some (- Z.of_N n, r)
        | None => None
        end
      else
        match parse_nat s with
        | Some (n, r) => Some (Z.of_N n, r)
        | None => None
        end
  end.

(** Characters allowed unescaped inside a string. *)
Definition plain_char (c : ascii) : bool :=
  negb (Ascii.eqb c "034"%char) && negb (Ascii.eqb c "\"%char)
  && (32 <=? nat_of_ascii c)%nat.

(** The characters up to the closing quote. *)
Fixpoint parse_chars (s : list ascii) : option (list ascii * list ascii) :=
  match s with
  | [] => None
  | c :: s' =>
      if Ascii.eqb c "034"%char then Some ([], s')
      else if plain_char c then
        match parse_chars s' with
        | Some (str, r) => Some (c :: str, r)
        | None => None
        end
      else None
  end.

(** [d[k] = v] on a dictionary in insertion order. *)
Fixpoint dict_set (k : list ascii) (v : pyval)
    (d : list (list ascii * pyval)) : list (list ascii * pyval) :=
  match d with
  | [] => [(k, v)]
  | (k', v') :: d' =>
      if decide (k = k') then (k', v) :: d' else (k', v') :: dict_set k v d'
  end.

(** [dict(pairs)] *)
Definition dict_of_pairs (pairs : list (list ascii * pyval))
    : list (list ascii * pyval) :=
  foldl (λ d kv, dict_set kv.1 kv.2 d) [] pairs.

Fixpoint parse_value (fuel : nat) (s : list ascii) {struct fuel}
    : option (pyval * list ascii) :=
  match fuel with
  | O => None
  | S f =>
      match skip_ws s with
      | [] => None
      | c :: r =>
          if Ascii.eqb c "["%char then
            match skip_ws r with
            | [] => None
            | c' :: r' =>
                if Ascii.eqb c' "]"%char then Some (PList [], r')
                else
                  match parse_elems f r with
                  | Some (l, r'') => Some (PList l, r'')
                  | None => None
                  end
            end
          else if Ascii.eqb c "{"%char then
            match skip_ws r with
            | [] => None
            | c' :: r' =>
                if Ascii.eqb c' "}"%char then Some (PDict [], r')
                else
                  match parse_members f r with
                  | Some (l, r'') => Some (PDict (dict_of_pairs l), r'')
                  | None => None
                  end
            end
          else if Ascii.eqb c "034"%char then
            match parse_chars r with
            | Some (str, r') => Some (PStr str, r')
            | None => None
            end
          else
            match parse_int (c :: r) with
            | Some (z, r') => Some (PInt z, r')
            | None => None
            end
      end
  end
with parse_elems (fuel : nat) (s : list ascii) {struct fuel}
    : option (list pyval * list ascii) :=
  match fuel with
  | O => None
  | S f =>
      match parse_value f s with
      | Some (v, r) =>
          match skip_ws r with
          | ","%char :: r' =>
              match parse_elems f r' with
              | Some (l, r'') => Some (v :: l, r'')
              | None => None
              end
          | "]"%char :: r' => Some ([v], r')
          | _ => None
          end
      | None => None
      end
  end
with parse_members (fuel : nat) (s : list ascii) {struct fuel}
    : option (list (list ascii * pyval) * list ascii) :=
  match fuel with
  | O => None
  | S f =>
      match skip_ws s with
      | "034"%char :: r =>
          match parse_chars r with
          | Some (k, r1) =>
              match skip_ws r1 with
              | ":"%char :: r2 =>
                  match parse_value f r2 with
                  | Some (v, r3) =>
                      match skip_ws r3 with
                      | ","%char :: r4 =>
                          match parse_members f r4 with
                          | Some (l, r5) => Some ((k, v) :: l, r5)
                          | None => None
                          end
                      | "}"%char :: r4 => Some ([(k, v)], r4)
                      | _ => None
                      end
                  | None => None
                  end
              | _ => None
              end
          | None => None
          end
      | _ => None
      end
  end.

(** [json.loads(text)]: one value, then only whitespace. *)
Definition loads (text : string) : option pyval :=
  let s := chars text in
  match parse_value (S (length s)) s with
  | Some (v, r) =>
      match skip_ws r with
      | [] => Some v
      | _ => None
      end
  | None => None
  end.

(** What a decoded document holds where the encoded value held a tuple:
    arrays are read back as lists. *)
Fixpoint listify (v : pyval) : pyval :=
  match v with
  | PInt z => PInt z
  | PStr s => PStr s
  | PTuple l => PList (map listify l)
  | PList l => PList (map listify l)
  | PDict l => PDict (map (λ kv, (kv.1, listify kv.2)) l)
  end.

(** Values whose strings need no escaping and whose dictionaries have
    distinct keys (as every Python dictionary has). *)
Fixpoint plain (v : pyval) : Prop :=
  match v with
  | PInt _ => True
  | PStr s => forallb plain_char s = true
  | PTuple l => foldr (λ x P, plain x ∧ P) True l
  | PList l => foldr (λ x P, plain x ∧ P) True l
  | PDict l =>
      NoDup (map fst l)
      ∧ foldr (λ kv P, (forallb plain_char kv.1 = true ∧ plain kv.2) ∧ P) True l
  end.

(** *** Notions used to state that decoding inverts encoding *)

(** What may follow a number: anything but a digit. *)
Definition no_digit_head (s : list ascii) : Prop :=
  match s with
  | c :: _ => digit_val c = None
  | [] => True
  end.

(** The first character of an encoded value: not whitespace, and none of
    the closing brackets. *)
Definition value_start (c : ascii) : Prop :=
  is_ws c = false ∧ Ascii.eqb c "]"%char = false ∧ Ascii.eqb c "}"%char = false.

(** Decoding the encoding of [v], at any nesting level, after any
    whitespace and before any rest, gives [v] back and leaves the rest. *)
Definition roundtrips (v : pyval) : Prop :=
  ∀ level fuel ws rest,
    plain v → forallb is_ws ws = true → no_digit_head rest →
    (length (encode level v) ≤ fuel)%nat →
    parse_value fuel (ws ++ encode level v ++ rest) = Some (listify v, rest).

End json.

(** ** Exceptions and the file system *)

(** A computation that may raise and may write files. *)
Definition E (A : Type) : Type := fsys → (pyerror + A) * fsys.

Definition eret {A} (x : A) : E A := λ fs, (inr x, fs).

Definition raise {A} (e : pyerror) : E A := λ fs, (inl e, fs).

Definition ebind {A B} (m : E A) (k : A → E B) : E B :=
  λ fs, match m fs with
        | (inr x, fs') => k x fs'
        | (inl e, fs') => (inl e, fs')
        end.

Notation "'let?' x := m 'in' k" := (ebind m (λ x, k))
  (at level 10, x name, m at level 100, k at level 200, only parsing).

(** Writing the file [filename]. *)
Definition save (filename : string) (f : file) : E unit :=
  λ fs, (inr tt, <[filename := f]> fs).

(** [lines[:, 0, :]]: [None] is not subscriptable. *)
Definition subscript (lines : lines_t) : E (list segment) :=
  match lines with
  | Some ls => eret ls
  | None => raise TypeError
  end.

(** [for line in lines]: [None] is not iterable. *)
Definition iterate (lines : lines_t) : E (list segment) :=
  match lines with
  | Some ls => eret ls
  | None => raise TypeError
  end.

(** [np.min] and [np.max] of an array given by its elements: a zero-size
    array has no minimum. *)
Definition np_min (l : list Z) : E Z :=
  match l with
  | [] => raise ValueError
  | x :: l' => eret (foldl Z.min x l')
  end.

Definition np_max (l : list Z) : E Z :=
  match l with
  | [] => raise ValueError
  | x :: l' => eret (foldl Z.max x l')
  end.

(** [lines_[:, [i, j]]], row by row. *)
Definition columns (f g : segment → Z) (lines_ : list segment) : list Z :=
  flat_map (λ s, [f s; g s]) lines_.

(** A number of a drawing of profile [tiny]: [svgwrite] accepts [value] when
    [-32767.9999 <= float(value) <= 32767.9999]. *)
Definition tiny_number (value : Q) : bool :=
  Qle_bool (-32767.9999) value && Qle_bool value 32767.9999.

(** Setting numeric attributes of an element of a [tiny] drawing: a value
    that is not accepted raises [TypeError]. *)
Definition set_attributes (values : list Q) : E unit :=
  if forallb tiny_number values then eret tt else raise TypeError.

(** ** src/post_proc_slam.py: class FloorPlanProcessor *)

Section FloorPlanProcessor.

(** [cv2.Canny(image, low, high)] *)
Variable Canny : raster → Z → Z → raster.
(** [cv2.HoughLinesP(edges, rho, theta, threshold, minLineLength=..,
    maxLineGap=..)] *)
Variable HoughLinesP : raster → hough_args → lines_t.
(** What [cv2.line(img, pt1, pt2, color, thickness)] leaves in [img]. *)
Variable cv2_line : raster → Z * Z → Z * Z → Z → Z → raster.

Definition detect_edges (binary_image : loc)
    (low_threshold high_threshold : option Z) : M loc :=
  let* a := load binary_image in
  alloc (Canny a (default 100 low_threshold) (default 200 high_threshold)).

(** The arguments [detect_lines] hands to [cv2.HoughLinesP]; an argument
    the caller leaves out takes its default. *)
Definition detect_lines_args (rho theta : option pyfloat)
    (threshold min_line_length max_line_gap : option Z) : hough_args :=
  {| rho := default (Dec 1.7) rho;
     theta := default (PiOver 900) theta;
     threshold := default 40 threshold;
     minLineLength := default 40 min_line_length;
     maxLineGap := default 35 max_line_gap |}.

Definition detect_lines (edges : loc) (rho theta : option pyfloat)
    (threshold min_line_length max_line_gap : option Z) : M lines_t :=
  let* a := load edges in
  ret (HoughLinesP a (detect_lines_args rho theta threshold
                        min_line_length max_line_gap)).

(** [cv2.line] draws into the array [img] refers to. *)
Definition line (img : loc) (pt1 pt2 : Z * Z) (color thickness : Z) : M unit :=
  let* a := load img in store img (cv2_line a pt1 pt2 color thickness).

Fixpoint draw_segments (floor_plan : loc) (ls : list segment) : M unit :=
  match ls with
  | [] => ret tt
  | s :: ls' =>
      let* _ := line floor_plan (x1 s, y1 s) (x2 s, y2 s) 255 2 in
      draw_segments floor_plan ls'
  end.

Definition draw_floor_plan (lines : lines_t) (image : loc) : M loc :=
  let* floor_plan := np.zeros_like image in
  let* _ := match lines with
            | Some ls => draw_segments floor_plan ls
            | None => ret tt
            end in
  ret floor_plan.

(** [dwg.add(dwg.line(start, end, stroke=svgwrite.rgb(0, 0, 0, '%')))] for
    each line: the four coordinates of a line are attributes of its
    element. *)
Fixpoint add_lines (ls : list segment) : E (list svg_line) :=
  match ls with
  | [] => eret []
  | s :: ls' =>
      let start := (float (x1 s), float (y1 s)) in
      let end_ := (float (x2 s), float (y2 s)) in
      let? _ := set_attributes [start.1; start.2; end_.1; end_.2] in
      let? elements := add_lines ls' in
      eret ({| sl_start := start; sl_end := end_;
               sl_stroke := "rgb(0%,0%,0%)" |} :: elements)
  end.

(** The minimum of the bounding box is a coordinate of a line, and the
    width and height of the viewBox are those of the size, so the viewBox
    holds no number that is not checked with the size or with a line. *)
Definition export_as_svg (lines : lines_t) (filename : string) : E unit :=
  let? lines_ := subscript lines in
  let? x_min := np_min (columns x1 x2 lines_) in
  let? x_max := np_max (columns x1 x2 lines_) in
  let? y_min := np_min (columns y1 y2 lines_) in
  let? y_max := np_max (columns y1 y2 lines_) in
  let width := wrap32 (x_max - x_min) in
  let height := wrap32 (y_max - y_min) in
  let? _ := set_attributes [float width; float height] in
  let? ls := iterate lines in
  let? elements := add_lines ls in
  let dwg :=
    {| svg_size := (float width, float height);
       svg_profile := "tiny";
       svg_viewbox := (x_min, y_min, width, height);
       svg_elements := elements |} in
  save filename (SvgFile dwg).

Definition line_data (lines_ : list segment) : pyval :=
  PList (map (λ s, PDict [(json.chars "start", PTuple [PInt (x1 s); PInt (y1 s)]);
                          (json.chars "end", PTuple [PInt (x2 s); PInt (y2 s)])])
           lines_).

Definition export_as_json (lines : lines_t) (filename : string) : E unit :=
  let? lines_ := subscript lines in
  save filename (JsonFile (json.dumps (line_data lines_))).

Definition export_as_dxf (lines : lines_t) (filename : string) : E unit :=
  let doc := {| dxfversion := "R2010"; modelspace := [] |} in
  let? ls := iterate lines in
  let doc' :=
    {| dxfversion := dxfversion doc;
       modelspace := modelspace doc
         ++ map (λ s, {| dl_start := (x1 s, y1 s); dl_end := (x2 s, y2 s) |}) ls |} in
  save filename (DxfFile doc').

(** ** main.py: the body of the loop over the images *)

(** The arguments of the call [slam.detect_lines(edges, metadata['resolution'])]. *)
Definition main_hough_args (m : metadata) : hough_args :=
  detect_lines_args (Some (Dec (resolution m))) None None None None.

Definition process_image (image : loc) (m : metadata) : M (loc * lines_t) :=
  let* binary_image :=
    preprocess_image image (occupied_thresh m) (free_thresh m) (negate m) in
  let* edges := detect_edges binary_image None None in
  let* lines := detect_lines edges (Some (Dec (resolution m))) None None None None in
  let* floor_plan := draw_floor_plan lines image in
  ret (floor_plan, lines).

End FloorPlanProcessor.

(** ** Python strings and [os.path] *)

Module pystr.

(** [s.endswith(suffix)]: some tail of [s] is [suffix]. *)
Fixpoint endswith (s suffix : string) : bool :=
  String.eqb s suffix
  || match s with
     | EmptyString => false
     | String _ s' => endswith s' suffix
     end.

(** [c in s] for a character [c] *)
Fixpoint contains (c : ascii) (s : string) : bool :=
  match s with
  | EmptyString => false
  | String c' s' => Ascii.eqb c' c || contains c s'
  end.

(** [s.split(sep)[0]] for a one-character separator: the text before the
    first [sep], or all of [s] when it has none. *)
Fixpoint split_first (sep : ascii) (s : string) : string :=
  match s with
  | EmptyString => EmptyString
  | String c s' =>
      if Ascii.eqb c sep then EmptyString else String c (split_first sep s')
  end.

End pystr.

Module os_path.

(** [os.path.join(a, b)] (POSIX): [b] alone when it is absolute, otherwise
    [a] and [b] with one separator between them. *)
Definition join (a b : string) : string :=
  if match b with
     | String c _ => Ascii.eqb c "/"
     | EmptyString => false
     end
  then b
  else if String.eqb a "" || pystr.endswith a "/" then a ++ b
  else a ++ "/" ++ b.

(** [os.path.basename(p)]: the text after the last separator. *)
Fixpoint basename (p : string) : string :=
  match p with
  | EmptyString => EmptyString
  | String c p' =>
      if pystr.contains "/" p' then basename p'
      else if Ascii.eqb c "/" then p'
      else p
  end.

End os_path.

(** ** The program state of [utils.py] and [main.py] *)

(** A value of the YAML calibration file: a number or a boolean.  A
    calibration file that parses is taken to hold a dictionary of such
    values. *)
Inductive yvalue :=
| YNum (q : Q)
| YBool (b : bool).

(** A Python [bool] used as a number, and a number used as a condition. *)
Definition number (v : yvalue) : Q :=
  match v with
  | YNum q => q
  | YBool b => if b then 1%Q else 0%Q
  end.

Definition truthy (v : yvalue) : bool :=
  match v with
  | YNum q => negb (Qeq_bool q 0)
  | YBool b => b
  end.

(** What reading a YAML file gives: the dictionary, [yaml.YAMLError], or an
    [OSError] of [open]. *)
Inductive yaml_read :=
| YDoc (d : gmap string yvalue)
| YAMLError
| OpenFailed.

(** The messages of the [ValueError]s. *)
Inductive reason :=
| FileNotFound (file_path : string)
| InvalidFormat (file_path : string) (valid_extensions : list string)
| FailedToLoad (image_path : string)
| YamlParseError (yaml_path : string)
| ImagePathsNotStrings
| YamlPathNotString
| InvalidVectorChoice
| ZeroSizeArray.

Inductive exn :=
| ExValue (why : reason)
| ExType
| ExKey (key : string)
| ExOS
| ExIndex.

(** The exceptions of the exporters among those of the program: the only
    [ValueError] an exporter raises is numpy's, on a zero-size array. *)
Definition exn_of (e : pyerror) : exn :=
  match e with
  | TypeError => ExType
  | ValueError => ExValue ZeroSizeArray
  end.

(** A file written by the program: the raster handed to [cv2.imwrite], or a
    vector document. *)
Inductive out_file :=
| RasterOut (a : raster)
| VectorOut (f : file).

(** The arrays in memory, the files written so far and the directories
    created so far. *)
Record world := World {
  w_heap : heap;
  w_out : gmap string out_file;
  w_dirs : gset string
}.

Inductive outcome (A : Type) :=
| Done (x : A) (w : world)
| Raise (e : exn) (w : world)
| Stuck.

Arguments Done {A} x w.
Arguments Raise {A} e w.
Arguments Stuck {A}.

(** A computation of the program; [Stuck] is the use of a dangling
    reference. *)
Definition R (A : Type) : Type := world → outcome A.

Definition rret {A} (x : A) : R A := λ w, Done x w.

Definition rraise {A} (e : exn) : R A := λ w, Raise e w.

Definition rbind {A B} (m : R A) (k : A → R B) : R B :=
  λ w, match m w with
       | Done x w' => k x w'
       | Raise e w' => Raise e w'
       | Stuck => Stuck
       end.

Notation "'let!' x := m 'in' k" := (rbind m (λ x, k))
  (at level 10, x name, m at level 100, k at level 200, only parsing).

(** A computation on the arrays only. *)
Definition lift_heap {A} (m : M A) : R A :=
  λ w, match m (w_heap w) with
       | Some (x, h') => Done x (World h' (w_out w) (w_dirs w))
       | None => Stuck
       end.

(** The vector documents among the files written so far. *)
Definition vector_files (out : gmap string out_file) : fsys :=
  omap (λ f, match f with
             | VectorOut v => Some v
             | RasterOut _ => None
             end) out.

(** An exporter run on the files written so far. *)
Definition lift_export {A} (e : E A) : R A :=
  λ w, match e (vector_files (w_out w)) with
       | (r, fs') =>
           let w' := World (w_heap w) ((VectorOut <$> fs') ∪ w_out w) (w_dirs w) in
           match r with
           | inr x => Done x w'
           | inl err => Raise (exn_of err) w'
           end
       end.

(** [metadata[key]] *)
Definition getitem (metadata : gmap string yvalue) (key : string) : R yvalue :=
  match metadata !! key with
  | Some v => rret v
  | None => rraise (ExKey key)
  end.

(** [image_paths[i]] *)
Definition index (image_paths : list string) (i : nat) : R string :=
  match image_paths !! i with
  | Some p => rret p
  | None => rraise ExIndex
  end.

(** An argument of [load_image_and_metadata] as Python sees it. *)
#[local] Unset Elimination Schemes.
Inductive pyarg :=
| AStr (s : string)
| AList (l : list pyarg)
| AOther.
#[local] Set Elimination Schemes.

(** [isinstance(x, list) and all(isinstance(p, str) for p in x)], with the
    strings when it holds. *)
Definition list_of_str (x : pyarg) : option (list string) :=
  match x with
  | AList l =>
      mapM (λ p, match p with
                 | AStr s => Some s
                 | _ => None
                 end) l
  | _ => None
  end.

(** The command line after [parse_arguments]. *)
Record args_t := Args {
  image_dir : string;
  yaml_path : string;
  output_dir : string;
  output_format : string;
  vector_format : string;
  vector_choice : option string
}.

(** What [argparse] accepts: the choices of the three restricted options;
    [--vector_choice] may be left out. *)
Definition parsed (args : args_t) : Prop :=
  output_format args ∈ ["png"; "jpg"]
  ∧ vector_format args ∈ ["yes"; "no"]
  ∧ match vector_choice args with
    | Some c => c ∈ ["svg"; "json"; "dxf"]
    | None => True
    end.

Section Program.

(** The files present when the program starts: [os.listdir] (with [None]
    for a directory that cannot be listed), [os.path.exists], what
    [cv2.imread(path, cv2.IMREAD_GRAYSCALE)] decodes ([None] when it
    cannot), and what opening and parsing a YAML file gives. *)
Variable listdir : string → option (list string).
Variable exists0 : string → bool.
Variable imread : string → option raster.
Variable safe_load : string → yaml_read.

(** What the file system lets the program write.  [makedirs0 path] is what
    [os.makedirs(path)] does when [path] does not exist: it creates [path]
    and the parents of [path] that are missing, given here, or it raises an
    [OSError] ([None]: an empty path, a parent that is a regular file, a
    directory that cannot be written).  [writable path] tells whether
    [cv2.imwrite] can write the file [path] once the output directory has
    been looked after. *)
Variable makedirs0 : string → option (gset string).
Variable writable : string → bool.

Variable Canny : raster → Z → Z → raster.
Variable HoughLinesP : raster → hough_args → lines_t.
Variable cv2_line : raster → Z * Z → Z * Z → Z → Z → raster.

(** [os.path.exists(path)] *)
Definition path_exists (w : world) (path : string) : bool :=
  exists0 path
  || bool_decide (path ∈ w_dirs w)
  || bool_decide (is_Some (w_out w !! path)).

(** *** src/utils.py, the loaders *)

Definition validate_file_path (file_path : string)
    (valid_extensions : list string) : R unit :=
  λ w,
    if negb (path_exists w file_path) then
      Raise (ExValue (FileNotFound file_path)) w
    else if negb (existsb (λ ext, pystr.endswith file_path ext) valid_extensions)
    then Raise (ExValue (InvalidFormat file_path valid_extensions)) w
    else Done tt w.

Definition load_image (image_path : string) : R loc :=
  let! _ := validate_file_path image_path [".pgm"] in
  match imread image_path with
  | None => rraise (ExValue (FailedToLoad image_path))
  | Some image => lift_heap (alloc image)
  end.

Definition load_metadata (yaml_path : string) : R (gmap string yvalue) :=
  let! _ := validate_file_path yaml_path [".yaml"] in
  match safe_load yaml_path with
  | YDoc metadata => rret metadata
  | YAMLError => rraise (ExValue (YamlParseError yaml_path))
  | OpenFailed => rraise ExOS
  end.

(** [[load_image(path) for path in image_paths]] *)
Fixpoint load_images (image_paths : list string) : R (list loc) :=
  match image_paths with
  | [] => rret []
  | path :: rest =>
      let! image := load_image path in
      let! images := load_images rest in
      rret (image :: images)
  end.

Definition load_image_and_metadata (image_paths yaml_path : pyarg)
    : R (list loc * gmap string yvalue) :=
  match list_of_str image_paths with
  | None => rraise (ExValue ImagePathsNotStrings)
  | Some paths =>
      match yaml_path with
      | AStr yaml =>
          let! images := load_images paths in
          let! metadata := load_metadata yaml in
          rret (images, metadata)
      | _ => rraise (ExValue YamlPathNotString)
      end
  end.

(** *** main.py *)

(** [os.makedirs(path)] *)
Definition makedirs (path : string) : R unit :=
  λ w, match makedirs0 path with
       | Some parents =>
           Done tt (World (w_heap w) (w_out w) ({[path]} ∪ parents ∪ w_dirs w))
       | None => Raise ExOS w
       end.

(** [cv2.imwrite(path, img)]: where the file cannot be written the call
    returns [False] and writes nothing; [main] does not look at what it
    returns. *)
Definition imwrite (path : string) (img : loc) : R bool :=
  λ w, match w_heap w !! img with
       | Some a =>
           if writable path then
             Done true (World (w_heap w) (<[path := RasterOut a]> (w_out w))
                          (w_dirs w))
           else Done false w
       | None => Stuck
       end.

(** [os.path.basename(path).split('.')[0]] *)
Definition image_name (path : string) : string :=
  pystr.split_first "." (os_path.basename path).

(** The vector export at the end of the loop body. *)
Definition export_vector (args : args_t) (lines : lines_t) (name : string)
    : R unit :=
  if String.eqb (vector_format args) "yes" then
    match vector_choice args with
    | Some choice =>
        if String.eqb choice "svg" then
          lift_export (export_as_svg lines
                         (os_path.join (output_dir args) (name ++ ".svg")))
        else if String.eqb choice "json" then
          lift_export (export_as_json lines
                         (os_path.join (output_dir args) (name ++ ".json")))
        else if String.eqb choice "dxf" then
          lift_export (export_as_dxf lines
                         (os_path.join (output_dir args) (name ++ ".dxf")))
        else rraise (ExValue InvalidVectorChoice)
    | None => rraise (ExValue InvalidVectorChoice)
    end
  else rret tt.

(** The body of [for i, image in enumerate(images)]. *)
Definition main_body (args : args_t) (image_paths : list string)
    (metadata : gmap string yvalue) (i : nat) (image : loc) : R unit :=
  let! occ := getitem metadata "occupied_thresh" in
  let! fre := getitem metadata "free_thresh" in
  let! neg := getitem metadata "negate" in
  let! binary_image :=
    lift_heap (preprocess_image image (number occ) (number fre) (truthy neg)) in
  let! edges := lift_heap (detect_edges Canny binary_image None None) in
  let! res := getitem metadata "resolution" in
  let! lines :=
    lift_heap (detect_lines HoughLinesP edges (Some (Dec (number res)))
                 None None None None) in
  let! floor_plan := lift_heap (draw_floor_plan cv2_line lines image) in
  let! _ := (λ w, if path_exists w (output_dir args) then rret tt w
                  else makedirs (output_dir args) w) in
  let! path := index image_paths i in
  let name := image_name path in
  let output_path :=
    os_path.join (output_dir args) (name ++ "." ++ output_format args) in
  let! _ := imwrite output_path floor_plan in
  export_vector args lines name.

Fixpoint main_loop (args : args_t) (image_paths : list string)
    (metadata : gmap string yvalue) (i : nat) (images : list loc) : R unit :=
  match images with
  | [] => rret tt
  | image :: rest =>
      let! _ := main_body args image_paths metadata i image in
      main_loop args image_paths metadata (S i) rest
  end.

(** The paths of the files of [image_dir] whose names end in [.pgm]. *)
Definition pgm_paths (dir : string) (names : list string) : list string :=
  map (os_path.join dir) (filter (λ f, pystr.endswith f ".pgm" = true) names).

Definition main (args : args_t) : R unit :=
  match listdir (image_dir args) with
  | None => rraise ExOS
  | Some names =>
      let image_paths := pgm_paths (image_dir args) names in
      let! loaded :=
        load_image_and_metadata (AList (map AStr image_paths))
          (AStr (yaml_path args)) in
      main_loop args image_paths loaded.2 0 loaded.1
  end.

End Program.

(** ** Notions used to state the properties *)

(** A path [load_image] loads: it exists, its name ends in [.pgm] and
    [cv2.imread] decodes it. *)
Definition loadable (exists0 : string → bool) (imread : string → option raster)
    (w : world) (p : string) : Prop :=
  path_exists exists0 w p = true
  ∧ pystr.endswith p ".pgm" = true
  ∧ is_Some (imread p).

(** The array a computation returns a reference to. *)
Definition result_of (m : M loc) (h : heap) : option raster :=
  match m h with
  | Some (l, h') => h' !! l
  | None => None
  end.

(** Every array of [h] is still in [h'], with the same content. *)
Definition preserved (h h' : heap) : Prop :=
  ∀ l a, h !! l = Some a → h' !! l = Some a.

(** [x] is the x coordinate of an endpoint of a segment of [ls]. *)
Definition endpoint_x (ls : list segment) (x : Z) : Prop :=
  ∃ s, s ∈ ls ∧ (x = x1 s ∨ x = x2 s).

Definition endpoint_y (ls : list segment) (y : Z) : Prop :=
  ∃ s, s ∈ ls ∧ (y = y1 s ∨ y = y2 s).

Definition least (P : Z → Prop) (m : Z) : Prop := P m ∧ ∀ x, P x → m ≤ x.

Definition greatest (P : Z → Prop) (m : Z) : Prop := P m ∧ ∀ x, P x → x ≤ m.

(** The integers that are numbers of an SVG Tiny drawing. *)
Definition tiny (z : Z) : Prop := -32767 ≤ z ≤ 32767.

Definition tiny_coords (s : segment) : Prop :=
  tiny (x1 s) ∧ tiny (y1 s) ∧ tiny (x2 s) ∧ tiny (y2 s).

(** The coordinates and the extents of [ls] are numbers of an SVG Tiny
    drawing: every endpoint coordinate is, and no two x coordinates and no
    two y coordinates are further apart than the largest of these numbers. *)
Definition svg_tiny (ls : list segment) : Prop :=
  Forall tiny_coords ls
  ∧ (∀ a b, endpoint_x ls a → endpoint_x ls b → b - a ≤ 32767)
  ∧ (∀ a b, endpoint_y ls a → endpoint_y ls b → b - a ≤ 32767).

(** The line element of a segment. *)
Definition line_element (s : segment) : svg_line :=
  {| sl_start := (float (x1 s), float (y1 s));
     sl_end := (float (x2 s), float (y2 s));
     sl_stroke := "rgb(0%,0%,0%)" |}.

(** The segments of [lines], none when [lines] is [None]. *)
Definition segments (lines : lines_t) : list segment := default [] lines.

(** The lines the pipeline extracts from an image whose pixels are [a],
    with the calibration values [occ], [fre], [neg] and [res]: the image is
    classified, [cv2.Canny] runs with thresholds 100 and 200, and
    [cv2.HoughLinesP] with the arguments [main.py] passes. *)
Definition lines_of (Canny : raster → Z → Z → raster)
    (HoughLinesP : raster → hough_args → lines_t)
    (occ fre : Q) (neg : bool) (res : Q) (a : raster) : lines_t :=
  HoughLinesP (Canny (classified occ fre neg a) 100 200)
    {| rho := Dec res; theta := PiOver 900; threshold := 40;
       minLineLength := 40; maxLineGap := 35 |}.

(** The floor plan of [lines] on a canvas of the shape of [a]. *)
Definition plan_of (cv2_line : raster → Z * Z → Z * Z → Z → Z → raster)
    (lines : lines_t) (a : raster) : raster :=
  foldl (λ a s, cv2_line a (x1 s, y1 s) (x2 s, y2 s) 255 2)
    (np.zeros a) (segments lines).

(** The raster file [main.py] writes for the image at [path]. *)
Definition raster_path (args : args_t) (path : string) : string :=
  os_path.join (output_dir args)
    (image_name path ++ "." ++ output_format args).

(** The inputs of a run all load: the image directory lists [names], every
    listed [.pgm] file loads, and the calibration file exists, is named
    [.yaml] and parses to the dictionary [d]. *)
Definition inputs_load (listdir : string → option (list string))
    (exists0 : string → bool) (imread : string → option raster)
    (safe_load : string → yaml_read) (args : args_t) (names : list string)
    (d : gmap string yvalue) (w : world) : Prop :=
  listdir (image_dir args) = Some names
  ∧ Forall (loadable exists0 imread w) (pgm_paths (image_dir args) names)
  ∧ path_exists exists0 w (yaml_path args) = true
  ∧ pystr.endswith (yaml_path args) ".yaml" = true
  ∧ safe_load (yaml_path args) = YDoc d.

(** The output directory exists, or [os.makedirs] can create it. *)
Definition output_ready (exists0 : string → bool)
    (makedirs0 : string → option (gset string)) (args : args_t) (w : world)
    : Prop :=
  path_exists exists0 w (output_dir args) = true
  ∨ is_Some (makedirs0 (output_dir args)).

(** The directories once [main.py] has looked after the output directory:
    those there were when it exists, with the output directory and the
    parents [os.makedirs] creates when it does not; [None] when
    [os.makedirs] raises. *)
Definition output_dirs (exists0 : string → bool)
    (makedirs0 : string → option (gset string)) (args : args_t) (w : world)
    : option (gset string) :=
  if path_exists exists0 w (output_dir args) then Some (w_dirs w)
  else (λ parents, {[output_dir args]} ∪ parents ∪ w_dirs w)
         <$> makedirs0 (output_dir args).

(** The files after [cv2.imwrite(path, plan)]. *)
Definition raster_written (writable : string → bool) (path : string)
    (plan : raster) (out : gmap string out_file) : gmap string out_file :=
  if writable path then <[path := RasterOut plan]> out else out.

(** The keys of the calibration, in the order in which the loop body looks
    them up. *)
Definition calibration_keys : list string :=
  ["occupied_thresh"; "free_thresh"; "negate"; "resolution"].

(** ** A small run, to exercise the hypotheses of the properties *)

Module demo.

(** A directory [maps] that lists [names]; every path exists; every image
    decodes to the same two-by-two raster; every YAML file parses to [d]. *)
Definition listdir (names : list string) (dir : string) : option (list string) :=
  if String.eqb dir "maps" then Some names else None.

Definition exists0 (path : string) : bool := true.

Definition imread (path : string) : option raster := Some [[0; 200]; [200; 0]].

Definition safe_load (d : gmap string yvalue) (path : string) : yaml_read :=
  YDoc d.

Definition calibration : gmap string yvalue :=
  list_to_map [("resolution", YNum 0.05); ("occupied_thresh", YNum 0.65);
               ("free_thresh", YNum 0.196); ("negate", YNum 0)].

(** Every directory can be created, without a missing parent, and every
    file written. *)
Definition makedirs0 (path : string) : option (gset string) := Some ∅.

Definition writable (path : string) : bool := true.

(** A file system on which the output directory [out] is missing and
    cannot be created, and one on which no file can be written. *)
Definition exists_but_out (path : string) : bool := negb (String.eqb path "out").


Definition read_only (path : string) : bool := false.

(** Stand-ins for the three [cv2] functions: the edge map is the image, no
    line is found, a stroke paints the whole canvas. *)
Definition Canny (a : raster) (low high : Z) : raster := a.

Definition HoughLinesP (edges : raster) (args : hough_args) : lines_t := None.

Definition cv2_line (a : raster) (pt1 pt2 : Z * Z) (color thickness : Z)
    : raster :=
  map (map (λ _, color)) a.

Definition args (vector_format : string) (vector_choice : option string)
    : args_t :=
  {| image_dir := "maps"; yaml_path := "maps/map.yaml"; output_dir := "out";
     output_format := "png"; vector_format := vector_format;
     vector_choice := vector_choice |}.

Definition start : world := World ∅ ∅ ∅.

End demo.

(** * Properties *)

(** ** The heap operations *)

Lemma load_run (h : heap) l a : h !! l = Some a → load l h = Some (a, h).
Proof. intros H. unfold load. by rewrite H. Qed.

Lemma store_run (h : heap) l a b :
  h !! l = Some a → store l b h = Some (tt, <[l := b]> h).
Proof. intros H. unfold store. by rewrite H. Qed.

Lemma fresh_loc (h : heap) : h !! fresh (dom h) = None.
Proof. apply not_elem_of_dom, is_fresh. Qed.

Lemma preserved_insert_fresh (h h' : heap) l a :
  h !! l = None → preserved h h' → preserved h (<[l := a]> h').
Proof.
  intros Hl Hp l' a' Hl'. rewrite lookup_insert_ne; [by apply Hp|].
  intros ->. congruence.
Qed.

Lemma preserved_refl (h : heap) : preserved h h.
Proof. by intros l a. Qed.

(** ** Comparisons *)

Lemma Qltb_lt a b : Cmp.Qltb a b = true ↔ (a < b)%Q.
Proof.
  unfold Cmp.Qltb. rewrite negb_true_iff.
  split.
  - intros H. apply Qnot_le_lt. intros Hle.
    apply Qle_bool_iff in Hle. congruence.
  - intros H. destruct (Qle_bool b a) eqn:E; [|done].
    apply Qle_bool_iff in E. exfalso. by apply (Qlt_not_le a b).
Qed.

Lemma gt_spec v t : reflect (t < inject_Z v)%Q (Cmp.gt v t).
Proof. apply iff_reflect. symmetry. apply Qltb_lt. Qed.

Lemma lt_spec v t : reflect (inject_Z v < t)%Q (Cmp.lt v t).
Proof. apply iff_reflect. symmetry. apply Qltb_lt. Qed.

Lemma ge_spec v t : reflect (t <= inject_Z v)%Q (Cmp.ge v t).
Proof. apply iff_reflect. symmetry. apply Qle_bool_iff. Qed.

Lemma le_spec v t : reflect (inject_Z v <= t)%Q (Cmp.le v t).
Proof. apply iff_reflect. symmetry. apply Qle_bool_iff. Qed.

(** ** Rounding to the nearest float *)

Section Rounding.

Import float64.

Lemma rne_bounds x : Qfloor x ≤ rne x ≤ Qfloor x + 1.
Proof.
  unfold rne. destruct (Qcompare _ _); [destruct (Z.even _)|..]; lia.
Qed.

Lemma rne_le_int x n : (x <= inject_Z n)%Q → rne x ≤ n.
Proof.
  intros H. pose proof (rne_bounds x) as [_ Hb].
  assert (Hf : Qfloor x ≤ n).
  { rewrite <- (Qfloor_Z n). by apply Qfloor_resp_le. }
  destruct (Z.eq_dec (Qfloor x) n) as [E|E]; [|lia].
  unfold rne. pose proof (Qfloor_le x) as Hl. rewrite E in *.
  destruct (Qcompare_spec (x - inject_Z n) (1 # 2)) as [H1|H1|H1]; try lia; lra.
Qed.

Lemma rne_ge_int x n : (inject_Z n <= x)%Q → n ≤ rne x.
Proof.
  intros H. pose proof (rne_bounds x) as [Hb _].
  assert (Hf : n ≤ Qfloor x).
  { rewrite <- (Qfloor_Z n). by apply Qfloor_resp_le. }
  lia.
Qed.

Lemma rne_mono x y : (x <= y)%Q → rne x ≤ rne y.
Proof.
  intros H. pose proof (Qfloor_resp_le _ _ H) as Hf.
  pose proof (rne_bounds x) as [_ Hx]. pose proof (rne_bounds y) as [Hy _].
  destruct (Z.eq_dec (Qfloor x) (Qfloor y)) as [E|E]; [|lia].
  unfold rne. rewrite <- E.
  destruct (Qcompare_spec (x - inject_Z (Qfloor x)) (1 # 2)) as [H1|H1|H1];
    destruct (Qcompare_spec (y - inject_Z (Qfloor x)) (1 # 2)) as [H2|H2|H2];
    try destruct (Z.even (Qfloor x)); try lia; lra.
Qed.

Lemma pow2_pos e : (0 < 2 ^ e)%Q.
Proof. by apply Qpower_0_lt. Qed.

Lemma pow2_add a b : (2 ^ (a + b) == 2 ^ a * 2 ^ b)%Q.
Proof. by apply Qpower_plus. Qed.

Lemma pow2_le a b : a ≤ b → (2 ^ a <= 2 ^ b)%Q.
Proof. intros H. by apply Qpower_le_compat_l. Qed.

Lemma pow2_cancel e : (2 ^ e * 2 ^ (- e) == 1)%Q.
Proof. rewrite <- pow2_add, Z.add_opp_diag_r. reflexivity. Qed.

Lemma pow2_Z n : 0 ≤ n → (inject_Z (2 ^ n) == 2 ^ n)%Q.
Proof. intros H. by rewrite Zpower_Qpower. Qed.

(** Moving a power of two across an inequality. *)
Lemma scale_le q e r : (q * 2 ^ (- e) <= r)%Q ↔ (q <= r * 2 ^ e)%Q.
Proof.
  pose proof (pow2_pos e) as He. pose proof (pow2_pos (- e)) as Hn.
  pose proof (pow2_cancel e) as Hc.
  generalize dependent (2 ^ e)%Q. generalize dependent (2 ^ (- e))%Q.
  intros a Ha b Hb Hab. split; intros H.
  - assert (H1 : (q * a * b <= r * b)%Q) by (apply Qmult_le_compat_r; lra).
    assert (H2 : (q * a * b == q * (b * a))%Q) by ring.
    rewrite Hab in H2. lra.
  - assert (H1 : (q * a <= r * b * a)%Q) by (apply Qmult_le_compat_r; lra).
    assert (H2 : (r * b * a == r * (b * a))%Q) by ring.
    rewrite Hab in H2. lra.
Qed.

Lemma scale_ge q e r : (r <= q * 2 ^ (- e))%Q ↔ (r * 2 ^ e <= q)%Q.
Proof.
  pose proof (pow2_pos e) as He. pose proof (pow2_pos (- e)) as Hn.
  pose proof (pow2_cancel e) as Hc.
  generalize dependent (2 ^ e)%Q. generalize dependent (2 ^ (- e))%Q.
  intros a Ha b Hb Hab. split; intros H.
  - assert (H1 : (r * b <= q * a * b)%Q) by (apply Qmult_le_compat_r; lra).
    assert (H2 : (q * a * b == q * (b * a))%Q) by ring.
    rewrite Hab in H2. lra.
  - assert (H1 : (r * b * a <= q * a)%Q) by (apply Qmult_le_compat_r; lra).
    assert (H2 : (r * b * a == r * (b * a))%Q) by ring.
    rewrite Hab in H2. lra.
Qed.

Lemma scale_lt q e r : (q * 2 ^ (- e) < r)%Q ↔ (q < r * 2 ^ e)%Q.
Proof.
  split; intros H; apply Qnot_le_lt; intros H'; apply Qlt_not_le in H;
    apply H; by apply scale_ge.
Qed.

Lemma ilog2_spec q :
  (0 < q)%Q → (2 ^ ilog2 q <= q)%Q ∧ (q < 2 ^ (ilog2 q + 1))%Q.
Proof.
  intros Hq. unfold ilog2. destruct (Qle_bool 1 q) eqn:E.
  - apply Qle_bool_iff in E.
    assert (Hf : 1 ≤ Qfloor q).
    { rewrite <- (Qfloor_Z 1). by apply Qfloor_resp_le. }
    destruct (Z.log2_spec (Qfloor q)) as [Hl Hu]; [lia|].
    pose proof (Z.log2_nonneg (Qfloor q)) as Hn.
    pose proof (Qfloor_le q) as H1. pose proof (Qlt_floor q) as H2.
    rewrite <- !pow2_Z by lia. split.
    + rewrite Zle_Qle in Hl. lra.
    + assert (Hu' : Qfloor q + 1 ≤ 2 ^ (Z.log2 (Qfloor q) + 1))
        by (unfold Z.succ in Hu; lia).
      rewrite Zle_Qle in Hu'. lra.
  - assert (Hlt : (q < 1)%Q).
    { apply Qnot_le_lt. intros H. apply Qle_bool_iff in H. congruence. }
    set (y := (/ q)%Q). set (c := Qceiling y).
    assert (Hy : (q * y == 1)%Q) by (apply Qmult_inv_r; lra).
    assert (Hy0 : (0 < y)%Q) by by apply Qinv_lt_0_compat.
    pose proof (Qle_ceiling y) as H1. pose proof (Qceiling_lt y) as H2.
    fold c in H1, H2.
    assert (Hy1 : (1 < y)%Q).
    { apply Qnot_le_lt. intros H.
      assert (y * q <= 1 * q)%Q by (apply Qmult_le_compat_r; lra). lra. }
    assert (Hc : 1 < c).
    { rewrite Zlt_Qlt. change (inject_Z 1) with 1%Q. lra. }
    destruct (Z.log2_up_spec c Hc) as [Hl Hu].
    pose proof (Z.log2_up_pos c Hc) as Hk.
    set (k := Z.log2_up c) in *.
    assert (Hl' : 2 ^ (k - 1) ≤ c - 1)
      by (replace (k - 1) with (Z.pred k) by lia; lia).
    rewrite Zle_Qle in Hl', Hu. rewrite pow2_Z in Hl', Hu by lia.
    split.
    + (* 2^-k <= q, from y <= 2^k *)
      assert (H3 : (1 * 2 ^ (- k) <= q)%Q).
      { apply scale_ge. rewrite Z.opp_involutive.
        assert (y * q <= 2 ^ k * q)%Q by (apply Qmult_le_compat_r; lra). lra. }
      lra.
    + (* q < 2^(-k+1), from 2^(k-1) < y *)
      replace (- k + 1) with (- (k - 1)) by lia.
      assert (H3 : (q * 2 ^ (- - (k - 1)) < 1)%Q).
      { rewrite Z.opp_involutive.
        assert (2 ^ (k - 1) * q < y * q)%Q by (apply Qmult_lt_compat_r; lra). lra. }
      apply scale_lt in H3. lra.
Qed.

Lemma ilog2_mono q1 q2 : (0 < q1)%Q → (q1 <= q2)%Q → ilog2 q1 ≤ ilog2 q2.
Proof.
  intros H1 H12.
  destruct (ilog2_spec q1 H1) as [Hl1 _].
  destruct (ilog2_spec q2) as [_ Hu2]; [lra|].
  assert (H : (2 ^ ilog2 q1 < 2 ^ (ilog2 q2 + 1))%Q) by lra.
  apply Qpower_lt_compat_l_inv in H; [lia|reflexivity].
Qed.

Lemma ulp_exponent_mono q1 q2 :
  (0 < q1)%Q → (q1 <= q2)%Q → ulp_exponent q1 ≤ ulp_exponent q2.
Proof. intros H1 H2. pose proof (ilog2_mono q1 q2 H1 H2). unfold ulp_exponent. lia. Qed.

(** The scaled value lies below [2^53], and from [2^52] on for a normal
    number. *)
Lemma scaled_upper q : (0 < q)%Q → (q * 2 ^ (- ulp_exponent q) <= 2 ^ 53)%Q.
Proof.
  intros Hq. destruct (ilog2_spec q Hq) as [_ Hu].
  apply scale_le. rewrite <- pow2_add.
  assert (H : (2 ^ (ilog2 q + 1) <= 2 ^ (53 + ulp_exponent q))%Q)
    by (apply pow2_le; unfold ulp_exponent; lia).
  lra.
Qed.

Lemma scaled_lower q :
  (0 < q)%Q → -1074 < ulp_exponent q → (2 ^ 52 <= q * 2 ^ (- ulp_exponent q))%Q.
Proof.
  intros Hq He. destruct (ilog2_spec q Hq) as [Hl _].
  apply scale_ge. rewrite <- pow2_add.
  assert (H : (2 ^ (52 + ulp_exponent q) <= 2 ^ ilog2 q)%Q)
    by (apply pow2_le; unfold ulp_exponent in *; lia).
  lra.
Qed.

Lemma round_pos_upper q :
  (0 < q)%Q → (round_pos q <= 2 ^ (53 + ulp_exponent q))%Q.
Proof.
  intros Hq. unfold round_pos. rewrite pow2_add.
  apply Qmult_le_compat_r; [|apply Qlt_le_weak, pow2_pos].
  rewrite <- (pow2_Z 53) by lia. rewrite <- Zle_Qle.
  apply rne_le_int. rewrite pow2_Z by lia. by apply scaled_upper.
Qed.

Lemma round_pos_lower q :
  (0 < q)%Q → -1074 < ulp_exponent q →
  (2 ^ (52 + ulp_exponent q) <= round_pos q)%Q.
Proof.
  intros Hq He. unfold round_pos. rewrite pow2_add.
  apply Qmult_le_compat_r; [|apply Qlt_le_weak, pow2_pos].
  rewrite <- (pow2_Z 52) by lia. rewrite <- Zle_Qle.
  apply rne_ge_int. rewrite pow2_Z by lia. by apply scaled_lower.
Qed.

Lemma round_pos_nonneg q : (0 < q)%Q → (0 <= round_pos q)%Q.
Proof.
  intros Hq. unfold round_pos.
  apply Qmult_le_0_compat; [|apply Qlt_le_weak, pow2_pos].
  replace 0%Q with (inject_Z 0) by reflexivity. rewrite <- Zle_Qle.
  apply rne_ge_int. simpl inject_Z.
  apply Qmult_le_0_compat; [lra|apply Qlt_le_weak, pow2_pos].
Qed.

Lemma round_pos_mono q1 q2 :
  (0 < q1)%Q → (q1 <= q2)%Q → (round_pos q1 <= round_pos q2)%Q.
Proof.
  intros H1 H12.
  pose proof (ulp_exponent_mono q1 q2 H1 H12) as He.
  destruct (Z.eq_dec (ulp_exponent q1) (ulp_exponent q2)) as [E|E].
  - unfold round_pos. rewrite E.
    apply Qmult_le_compat_r; [|apply Qlt_le_weak, pow2_pos].
    rewrite <- Zle_Qle. apply rne_mono.
    apply Qmult_le_compat_r; [done|apply Qlt_le_weak, pow2_pos].
  - pose proof (round_pos_upper q1 H1) as Hu.
    assert (H2 : (0 < q2)%Q) by lra.
    assert (Hn : -1074 < ulp_exponent q2) by (unfold ulp_exponent in *; lia).
    pose proof (round_pos_lower q2 H2 Hn) as Hl.
    assert (H : (2 ^ (53 + ulp_exponent q1) <= 2 ^ (52 + ulp_exponent q2))%Q)
      by (apply pow2_le; lia).
    lra.
Qed.

Lemma Qnum_pos q p : Qnum q = Z.pos p → (0 < q)%Q.
Proof. destruct q as [n d]. simpl. intros ->. reflexivity. Qed.

Lemma Qnum_neg q p : Qnum q = Z.neg p → (q < 0)%Q.
Proof. destruct q as [n d]. simpl. intros ->. reflexivity. Qed.

Lemma Qnum_zero q : Qnum q = 0 → (q == 0)%Q.
Proof. destruct q as [n d]. simpl. intros ->. reflexivity. Qed.

Lemma round_neg q : (q < 0)%Q → (round q == - round_pos (- q))%Q.
Proof.
  intros H. unfold round. destruct (Qnum q) as [|p|p] eqn:E; [| |reflexivity].
  - apply Qnum_zero in E. lra.
  - apply Qnum_pos in E. lra.
Qed.

Lemma round_of_pos q : (0 < q)%Q → (round q == round_pos q)%Q.
Proof.
  intros H. unfold round. destruct (Qnum q) as [|p|p] eqn:E; [|reflexivity|].
  - apply Qnum_zero in E. lra.
  - apply Qnum_neg in E. lra.
Qed.

Lemma round_zero q : (q == 0)%Q → (round q == 0)%Q.
Proof.
  intros H. unfold round. destruct (Qnum q) as [|p|p] eqn:E; [reflexivity| |].
  - apply Qnum_pos in E. lra.
  - apply Qnum_neg in E. lra.
Qed.

(** Rounding is monotone. *)
Lemma round_mono q1 q2 : (q1 <= q2)%Q → (round q1 <= round q2)%Q.
Proof.
  intros H.
  destruct (Q_dec q1 0) as [[H1|H1]|H1]; destruct (Q_dec q2 0) as [[H2|H2]|H2];
    try lra.
  - rewrite (round_neg q1 H1), (round_neg q2 H2).
    assert (round_pos (- q2) <= round_pos (- q1))%Q
      by (apply round_pos_mono; lra).
    lra.
  - rewrite (round_neg q1 H1), (round_of_pos q2 H2).
    pose proof (round_pos_nonneg (- q1)). pose proof (round_pos_nonneg q2). lra.
  - rewrite (round_neg q1 H1), (round_zero q2 H2).
    pose proof (round_pos_nonneg (- q1)). lra.
  - rewrite (round_of_pos q1 H1), (round_of_pos q2 H2).
    by apply round_pos_mono.
  - rewrite (round_zero q1 H1), (round_of_pos q2 H2).
    by apply round_pos_nonneg.
  - rewrite (round_zero q1 H1), (round_zero q2 H2). lra.
Qed.

Lemma mul_mono a b c : (0 <= c)%Q → (a <= b)%Q → (mul a c <= mul b c)%Q.
Proof.
  intros Hc H. apply round_mono. by apply Qmult_le_compat_r.
Qed.

End Rounding.

(** [float64.mul] against the multiplication of [SpecFloat], on the
    thresholds 0.6, 0.2, 0.65, 0.196, 0.984313725490196 and
    0.9843137254901961 used in this file. *)
Lemma mul_agrees_with_SpecFloat :
  Forall (λ me : positive * Z,
            ∃ q, float64.spec_mul me.1 me.2 255 = Some q
                 ∧ (q == float64.mul (inject_Z (Z.pos me.1) * 2 ^ me.2) 255)%Q)
    [(5404319552844595%positive, -53); (3602879701896397%positive, -54);
     (5854679515581645%positive, -53); (3530822107858469%positive, -54);
     (8865909854666623%positive, -53); (8865909854666624%positive, -53)].
Proof.
  repeat first [apply Forall_nil_2 | apply Forall_cons_2];
    (eexists; split; [by vm_compute|by vm_compute]).
Qed.

(** The products of the thresholds keep the order of the thresholds. *)
Lemma product_mono (free occ : Q) :
  (free <= occ)%Q → (float64.mul free 255 <= float64.mul occ 255)%Q.
Proof. intros H. by apply mul_mono. Qed.

Lemma product_one : (float64.mul 1 255 == 255)%Q.
Proof. vm_compute. reflexivity. Qed.

Lemma product_zero : (float64.mul 0 255 == 0)%Q.
Proof. vm_compute. reflexivity. Qed.

(** ** Masks and masked assignment on arrays built over the same image *)

Lemma and_row_map {A} (f g : A → bool) (r : list A) :
  np.and_row (map f r) (map g r) = map (λ v, f v && g v) r.
Proof. induction r as [|x r IH]; simpl; [done|]. by rewrite IH. Qed.

Lemma and_map {A} (f g : A → bool) (a : list (list A)) :
  np.and_ (map (map f) a) (map (map g) a) = map (map (λ v, f v && g v)) a.
Proof.
  induction a as [|r a IH]; simpl; [done|].
  by rewrite and_row_map, IH.
Qed.

Lemma set_row_map {A} (p : A → bool) (f : A → Z) (val : Z) (r : list A) :
  np.set_row (map p r) val (map f r) = map (λ v, if p v then val else f v) r.
Proof. induction r as [|x r IH]; simpl; [done|]. by rewrite IH. Qed.

Lemma set_where_map {A} (p : A → bool) (f : A → Z) (val : Z) (a : list (list A)) :
  np.set_where (map (map p) a) val (map (map f) a)
  = map (map (λ v, if p v then val else f v)) a.
Proof.
  induction a as [|r a IH]; simpl; [done|].
  by rewrite set_row_map, IH.
Qed.

Lemma lookup_map {A B} (f : A → B) (l : list A) (i : nat) :
  map f l !! i = f <$> l !! i.
Proof.
  revert i. induction l as [|x l IH]; intros [|i]; simpl; auto.
Qed.

Lemma pixel_map (f : Z → Z) (a : raster) i j :
  pixel (map (map f) a) i j = f <$> pixel a i j.
Proof.
  unfold pixel. rewrite lookup_map.
  destruct (a !! i) as [row|]; simpl; [|done].
  apply lookup_map.
Qed.

Lemma mask_at_map (f : Z → bool) (a : raster) i j :
  mask_at (map (map f) a) i j = f <$> pixel a i j.
Proof.
  unfold mask_at, pixel. rewrite lookup_map.
  destruct (a !! i) as [row|]; simpl; [|done].
  apply lookup_map.
Qed.

Lemma shape_map (f : Z → Z) (a : raster) : shape (map (map f) a) = shape a.
Proof.
  unfold shape. rewrite map_map. apply map_ext. intros r. apply length_map.
Qed.

(** ** Running the classifier *)

Lemma preprocess_image_run (h : heap) img image occ free neg :
  h !! img = Some image →
  ∃ out h',
    preprocess_image img occ free neg h = Some (out, h')
    ∧ h !! out = None
    ∧ h' !! out = Some (classified occ free neg image)
    ∧ preserved h h'.
Proof.
  intros Himg.
  set (b := fresh (dom h)).
  assert (Hb : h !! b = None) by apply fresh_loc.
  assert (Hne : b ≠ img) by (intros E; rewrite E in Hb; congruence).
  unfold preprocess_image, np.zeros_like, np.compare, np.setitem, bind, ret.
  rewrite (load_run h img image Himg). unfold alloc. fold b.
  set (h1 := <[b := np.zeros image]> h).
  assert (H1 : h1 !! img = Some image) by (unfold h1; by rewrite lookup_insert_ne).
  rewrite (load_run h1 img image H1).
  rewrite (load_run h1 b (np.zeros image)) by apply lookup_insert_eq.
  erewrite store_run by apply lookup_insert_eq.
  set (h2 := <[b := _]> h1).
  assert (H2 : h2 !! img = Some image) by (unfold h2; by rewrite lookup_insert_ne).
  rewrite (load_run h2 img image H2).
  erewrite (load_run h2 b) by apply lookup_insert_eq.
  erewrite store_run by apply lookup_insert_eq.
  set (h3 := <[b := _]> h2).
  assert (H3 : h3 !! img = Some image) by (unfold h3; by rewrite lookup_insert_ne).
  rewrite (load_run h3 img image H3).
  rewrite (load_run h3 img image H3).
  erewrite (load_run h3 b) by apply lookup_insert_eq.
  erewrite store_run by apply lookup_insert_eq.
  set (h4 := <[b := _]> h3).
  assert (Hp : preserved h h4).
  { unfold h4, h3, h2, h1. repeat apply preserved_insert_fresh; try done.
    apply preserved_refl. }
  assert (H4 : h4 !! b = Some (classified occ free false image)).
  { unfold h4. rewrite lookup_insert_eq. f_equal.
    unfold np.zeros. rewrite !set_where_map, and_map, set_where_map.
    reflexivity. }
  destruct neg.
  - unfold np.rsub, bind, alloc. rewrite (load_run h4 b _ H4).
    set (o := fresh (dom h4)).
    assert (Ho : h4 !! o = None) by apply fresh_loc.
    exists o, (<[o := map (map (λ v, np.wrap8 (255 - v))) (classified occ free false image)]> h4).
    split; [done|]. split.
    + destruct (h !! o) as [a|] eqn:E; [|done].
      apply Hp in E. congruence.
    + split.
      * rewrite lookup_insert_eq. f_equal. unfold classified.
        rewrite map_map. apply map_ext. intros r. by rewrite map_map.
      * intros l a Hl. rewrite lookup_insert_ne; [by apply Hp|].
        intros ->. apply Hp in Hl. congruence.
  - exists b, h4. done.
Qed.

Lemma result_of_preprocess (h : heap) img image occ free neg :
  h !! img = Some image →
  result_of (preprocess_image img occ free neg) h
  = Some (classified occ free neg image).
Proof.
  intros Himg.
  destruct (preprocess_image_run h img image occ free neg Himg)
    as (out & h' & Hrun & _ & Hout & _).
  unfold result_of. by rewrite Hrun.
Qed.

(** ** The classification of one pixel *)

Ltac cmp_cases occ free v :=
  unfold classify_pixel;
  destruct (gt_spec v (float64.mul occ 255));
  destruct (lt_spec v (float64.mul free 255));
  destruct (ge_spec v (float64.mul free 255));
  destruct (le_spec v (float64.mul occ 255));
  simpl.

Lemma classify_pixel_values occ free v :
  classify_pixel occ free v = OCCUPIED
  ∨ classify_pixel occ free v = FREE
  ∨ classify_pixel occ free v = UNKNOWN.
Proof. unfold OCCUPIED, FREE, UNKNOWN. cmp_cases occ free v; auto. Qed.

Lemma classify_pixel_occupied occ free v :
  (free <= occ)%Q → (float64.mul occ 255 < inject_Z v)%Q →
  classify_pixel occ free v = OCCUPIED.
Proof.
  intros Hle H. pose proof (product_mono free occ Hle).
  unfold OCCUPIED. cmp_cases occ free v; try done; lra.
Qed.

Lemma classify_pixel_free occ free v :
  (inject_Z v < float64.mul free 255)%Q → classify_pixel occ free v = FREE.
Proof. intros H. unfold FREE. cmp_cases occ free v; try done; lra. Qed.

Lemma classify_pixel_unknown occ free v :
  ¬ (float64.mul occ 255 < inject_Z v)%Q →
  ¬ (inject_Z v < float64.mul free 255)%Q →
  classify_pixel occ free v = UNKNOWN.
Proof. intros H1 H2. unfold UNKNOWN. cmp_cases occ free v; try done; lra. Qed.

(** The classification grows with the intensity, whatever the thresholds. *)
Lemma classify_pixel_mono occ free v1 v2 :
  v1 ≤ v2 → classify_pixel occ free v1 ≤ classify_pixel occ free v2.
Proof.
  intros Hv. rewrite Zle_Qle in Hv.
  unfold classify_pixel.
  generalize dependent (float64.mul occ 255).
  generalize dependent (float64.mul free 255). intros F O.
  destruct (gt_spec v1 O); destruct (lt_spec v1 F);
    destruct (ge_spec v1 F); destruct (le_spec v1 O);
    destruct (gt_spec v2 O); destruct (lt_spec v2 F);
    destruct (ge_spec v2 F); destruct (le_spec v2 O);
    simpl; try lia; lra.
Qed.

Lemma negate_pixel_classified occ free v :
  negate_pixel (classify_pixel occ free v) = 255 - classify_pixel occ free v.
Proof.
  unfold negate_pixel, np.wrap8.
  destruct (classify_pixel_values occ free v) as [-> | [-> | ->]]; reflexivity.
Qed.

(** ** The classifier *)

(** C1.  With [free_thresh <= occupied_thresh], the classifier leaves at
    every pixel of intensity [v]: OCCUPIED (255) when
    [v > occupied_thresh * 255], FREE (0) when [v < free_thresh * 255],
    UNKNOWN (127) otherwise; the output has the shape of the input and each
    of its pixels holds one of the three values.  The products are those
    Python computes, in binary64. *)
Theorem classifier_three_way (h : heap) img image occ free i j v :
  (free <= occ)%Q →
  h !! img = Some image →
  pixel image i j = Some v →
  ∃ out c,
    result_of (preprocess_image img occ free false) h = Some out
    ∧ shape out = shape image
    ∧ pixel out i j = Some c
    ∧ ((float64.mul occ 255 < inject_Z v)%Q → c = OCCUPIED)
    ∧ ((inject_Z v < float64.mul free 255)%Q → c = FREE)
    ∧ (¬ (float64.mul occ 255 < inject_Z v)%Q →
       ¬ (inject_Z v < float64.mul free 255)%Q →
       c = UNKNOWN)
    ∧ (c = OCCUPIED ∨ c = FREE ∨ c = UNKNOWN).
Proof.
  intros Hle Himg Hv.
  exists (classified occ free false image), (classify_pixel occ free v).
  split; [by apply result_of_preprocess|].
  split; [apply shape_map|].
  split; [unfold classified; by rewrite pixel_map, Hv|].
  split; [by apply classify_pixel_occupied|].
  split; [by apply classify_pixel_free|].
  split; [by apply classify_pixel_unknown|].
  apply classify_pixel_values.
Qed.

Lemma classifier_three_way_witness :
  ∃ out c,
    result_of (preprocess_image 1%positive 0.65 0.25 false)
      {[ 1%positive := [[0; 100; 200]] ]} = Some out
    ∧ shape out = shape [[0; 100; 200]]
    ∧ pixel out 0 2 = Some c
    ∧ ((float64.mul 0.65 255 < inject_Z 200)%Q → c = OCCUPIED)
    ∧ ((inject_Z 200 < float64.mul 0.25 255)%Q → c = FREE)
    ∧ (¬ (float64.mul 0.65 255 < inject_Z 200)%Q →
       ¬ (inject_Z 200 < float64.mul 0.25 255)%Q →
       c = UNKNOWN)
    ∧ (c = OCCUPIED ∨ c = FREE ∨ c = UNKNOWN).
Proof.
  apply (classifier_three_way {[ 1%positive := [[0; 100; 200]] ]} 1%positive
           [[0; 100; 200]] 0.65 0.25 0%nat 2%nat 200).
  - vm_compute. discriminate.
  - apply lookup_singleton_eq.
  - reflexivity.
Defined.

(** C3.  With [negate] set, the classifier's output at each pixel is 255
    minus the classification without [negate], whatever the thresholds:
    OCCUPIED becomes 0, FREE becomes 255 and UNKNOWN becomes 128.  Both
    outputs have the shape of the input, and the value without [negate] is
    the one the three masked assignments leave for the pixel's intensity. *)
Theorem classifier_negate (h : heap) img image occ free :
  h !! img = Some image →
  ∃ plain neg,
    result_of (preprocess_image img occ free false) h = Some plain
    ∧ result_of (preprocess_image img occ free true) h = Some neg
    ∧ shape plain = shape image
    ∧ shape neg = shape image
    ∧ ∀ i j v, pixel image i j = Some v →
        ∃ c,
          pixel plain i j = Some c
          ∧ c = classify_pixel occ free v
          ∧ pixel neg i j = Some (255 - c)
          ∧ (c = OCCUPIED ∨ c = FREE ∨ c = UNKNOWN)
          ∧ (c = OCCUPIED → pixel neg i j = Some 0)
          ∧ (c = FREE → pixel neg i j = Some 255)
          ∧ (c = UNKNOWN → pixel neg i j = Some 128).
Proof.
  intros Himg.
  exists (classified occ free false image), (classified occ free true image).
  split; [by apply result_of_preprocess|].
  split; [by apply result_of_preprocess|].
  split; [apply shape_map|]. split; [apply shape_map|].
  intros i j v Hv. exists (classify_pixel occ free v).
  unfold classified. rewrite !pixel_map, Hv. simpl.
  rewrite negate_pixel_classified.
  split; [done|]. split; [done|]. split; [done|].
  split; [apply classify_pixel_values|].
  unfold OCCUPIED, FREE, UNKNOWN.
  repeat split; intros ->; reflexivity.
Qed.

Lemma classifier_negate_witness :
  ∃ plain neg,
    result_of (preprocess_image 1%positive 0.65 0.25 false)
      {[ 1%positive := [[0; 100; 200]] ]} = Some plain
    ∧ result_of (preprocess_image 1%positive 0.65 0.25 true)
        {[ 1%positive := [[0; 100; 200]] ]} = Some neg
    ∧ shape plain = shape [[0; 100; 200]]
    ∧ shape neg = shape [[0; 100; 200]]
    ∧ ∀ i j v, pixel [[0; 100; 200]] i j = Some v →
        ∃ c,
          pixel plain i j = Some c
          ∧ c = classify_pixel 0.65 0.25 v
          ∧ pixel neg i j = Some (255 - c)
          ∧ (c = OCCUPIED ∨ c = FREE ∨ c = UNKNOWN)
          ∧ (c = OCCUPIED → pixel neg i j = Some 0)
          ∧ (c = FREE → pixel neg i j = Some 255)
          ∧ (c = UNKNOWN → pixel neg i j = Some 128).
Proof.
  apply (classifier_negate {[ 1%positive := [[0; 100; 200]] ]} 1%positive
           [[0; 100; 200]] 0.65 0.25).
  apply lookup_singleton_eq.
Defined.

(** C8.  For thresholds in [0,1] with [free_thresh <= occupied_thresh] and
    two pixels of intensities [v1 <= v2], the classification of the first is
    at most that of the second in the order FREE < UNKNOWN < OCCUPIED
    (before negation). *)
Theorem classifier_monotone (h : heap) img image occ free i1 j1 v1 i2 j2 v2 :
  (0 <= free)%Q → (free <= occ)%Q → (occ <= 1)%Q →
  h !! img = Some image →
  pixel image i1 j1 = Some v1 →
  pixel image i2 j2 = Some v2 →
  v1 ≤ v2 →
  ∃ out c1 c2,
    result_of (preprocess_image img occ free false) h = Some out
    ∧ pixel out i1 j1 = Some c1
    ∧ pixel out i2 j2 = Some c2
    ∧ c1 ≤ c2
    ∧ FREE < UNKNOWN < OCCUPIED.
Proof.
  intros _ _ _ Himg H1 H2 Hv.
  exists (classified occ free false image),
    (classify_pixel occ free v1), (classify_pixel occ free v2).
  split; [by apply result_of_preprocess|].
  unfold classified. rewrite !pixel_map, H1, H2.
  split; [done|]. split; [done|].
  split; [by apply classify_pixel_mono|].
  unfold FREE, UNKNOWN, OCCUPIED. lia.
Qed.

Lemma classifier_monotone_witness :
  ∃ out c1 c2,
    result_of (preprocess_image 1%positive 0.65 0.25 false)
      {[ 1%positive := [[0; 100; 200]] ]} = Some out
    ∧ pixel out 0 1 = Some c1
    ∧ pixel out 0 2 = Some c2
    ∧ c1 ≤ c2
    ∧ FREE < UNKNOWN < OCCUPIED.
Proof.
  apply (classifier_monotone {[ 1%positive := [[0; 100; 200]] ]} 1%positive
           [[0; 100; 200]] 0.65 0.25 0%nat 1%nat 100 0%nat 2%nat 200).
  - vm_compute. discriminate.
  - vm_compute. discriminate.
  - vm_compute. discriminate.
  - apply lookup_singleton_eq.
  - reflexivity.
  - reflexivity.
  - lia.
Defined.

Lemma Forall_map_all {A B} (f : A → B) (P : B → Prop) (l : list A) :
  (∀ x, P (f x)) → Forall P (map f l).
Proof. intros H. induction l; simpl; constructor; auto. Qed.

(** C10 as stated fails.  The floats 0.984313725490196 and
    0.9843137254901961 are next to each other, and the products of both
    with 255 round to 251.0.  With the first as [occupied_thresh] and the
    second as [free_thresh], [free_thresh > occupied_thresh], yet a pixel of
    intensity 251 is selected by the mask of the third assignment and ends
    up UNKNOWN: that mask is not empty. *)
Lemma swapped_thresholds_unknown_pixel :
  let occ := (8865909854666623 # 9007199254740992)%Q in
  let free := (8865909854666624 # 9007199254740992)%Q in
  let h : heap := {[ 1%positive := [[251]] ]} in
  float64.is_float occ = true ∧ float64.is_float free = true
  ∧ (occ < free)%Q
  ∧ (float64.mul occ 255 == 251)%Q ∧ (float64.mul free 255 == 251)%Q
  ∧ result_of (preprocess_image 1%positive occ free false) h
    = Some [[UNKNOWN]]
  ∧ ∃ lo hi,
      np.compare Cmp.ge 1%positive (float64.mul free 255) h = Some (lo, h)
      ∧ np.compare Cmp.le 1%positive (float64.mul occ 255) h = Some (hi, h)
      ∧ np.and_ lo hi = [[true]].
Proof.
  intros occ free h.
  split; [by vm_compute|]. split; [by vm_compute|]. split; [by vm_compute|].
  split; [by vm_compute|]. split; [by vm_compute|].
  assert (Himg : h !! 1%positive = Some [[251]]) by apply lookup_singleton_eq.
  split.
  - rewrite (result_of_preprocess h 1%positive [[251]] occ free false Himg).
    by vm_compute.
  - unfold np.compare, bind, ret. rewrite (load_run h _ _ Himg).
    eexists _, _. split; [reflexivity|]. split; [reflexivity|].
    by vm_compute.
Qed.

(** C10, as the code has it.  A pixel whose intensity [v] satisfies both
    [v > occupied_thresh * 255] and [v < free_thresh * 255], the products
    being those Python computes, is selected by the mask of the first
    assignment and by the mask of the second: the first assignment leaves
    255 in its cell, the second overwrites it with 0, and it ends up FREE.
    Where there is such a pixel the mask of the third assignment,
    [(image >= free_thresh * 255) & (image <= occupied_thresh * 255)],
    selects no pixel. *)
Theorem classifier_swapped_thresholds (h : heap) img image occ free i j v :
  (occ < free)%Q →
  h !! img = Some image →
  pixel image i j = Some v →
  (float64.mul occ 255 < inject_Z v)%Q →
  (inject_Z v < float64.mul free 255)%Q →
  (∃ out,
     result_of (preprocess_image img occ free false) h = Some out
     ∧ pixel out i j = Some FREE)
  ∧ (∃ occupied_mask free_mask,
       np.compare Cmp.gt img (float64.mul occ 255) h = Some (occupied_mask, h)
       ∧ np.compare Cmp.lt img (float64.mul free 255) h = Some (free_mask, h)
       ∧ mask_at occupied_mask i j = Some true
       ∧ mask_at free_mask i j = Some true
       ∧ pixel (np.set_where occupied_mask 255 (np.zeros image)) i j
         = Some OCCUPIED
       ∧ pixel (np.set_where free_mask 0
                  (np.set_where occupied_mask 255 (np.zeros image))) i j
         = Some FREE)
  ∧ (∃ lo hi,
       np.compare Cmp.ge img (float64.mul free 255) h = Some (lo, h)
       ∧ np.compare Cmp.le img (float64.mul occ 255) h = Some (hi, h)
       ∧ Forall (Forall (λ b, b = false)) (np.and_ lo hi)).
Proof.
  intros _ Himg Hv Hocc Hfree. split; [|split].
  - exists (classified occ free false image).
    split; [by apply result_of_preprocess|].
    unfold classified. rewrite pixel_map, Hv. simpl. f_equal.
    by apply classify_pixel_free.
  - unfold np.compare, bind, ret. rewrite (load_run h img image Himg).
    eexists _, _. split; [reflexivity|]. split; [reflexivity|].
    unfold np.zeros. rewrite !set_where_map, !mask_at_map, !pixel_map, Hv.
    simpl.
    destruct (gt_spec v (float64.mul occ 255)); [|done].
    destruct (lt_spec v (float64.mul free 255)); [|done].
    done.
  - unfold np.compare, bind, ret. rewrite (load_run h img image Himg).
    eexists _, _. split; [reflexivity|]. split; [reflexivity|].
    rewrite and_map.
    apply Forall_map_all. intros r. apply Forall_map_all. intros w.
    destruct (ge_spec w (float64.mul free 255));
      destruct (le_spec w (float64.mul occ 255));
      simpl; try done; lra.
Qed.

Lemma classifier_swapped_thresholds_witness :
  (∃ out,
     result_of (preprocess_image 1%positive 0.25 0.75 false)
       {[ 1%positive := [[0; 100; 200]] ]} = Some out
     ∧ pixel out 0 1 = Some FREE)
  ∧ (∃ occupied_mask free_mask,
       np.compare Cmp.gt 1%positive (float64.mul 0.25 255)
         {[ 1%positive := [[0; 100; 200]] ]}
       = Some (occupied_mask, {[ 1%positive := [[0; 100; 200]] ]})
       ∧ np.compare Cmp.lt 1%positive (float64.mul 0.75 255)
           {[ 1%positive := [[0; 100; 200]] ]}
         = Some (free_mask, {[ 1%positive := [[0; 100; 200]] ]})
       ∧ mask_at occupied_mask 0 1 = Some true
       ∧ mask_at free_mask 0 1 = Some true
       ∧ pixel (np.set_where occupied_mask 255 (np.zeros [[0; 100; 200]])) 0 1
         = Some OCCUPIED
       ∧ pixel (np.set_where free_mask 0
                  (np.set_where occupied_mask 255 (np.zeros [[0; 100; 200]])))
           0 1
         = Some FREE)
  ∧ (∃ lo hi,
       np.compare Cmp.ge 1%positive (float64.mul 0.75 255)
         {[ 1%positive := [[0; 100; 200]] ]}
       = Some (lo, {[ 1%positive := [[0; 100; 200]] ]})
       ∧ np.compare Cmp.le 1%positive (float64.mul 0.25 255)
           {[ 1%positive := [[0; 100; 200]] ]}
         = Some (hi, {[ 1%positive := [[0; 100; 200]] ]})
       ∧ Forall (Forall (λ b, b = false)) (np.and_ lo hi)).
Proof.
  apply (classifier_swapped_thresholds {[ 1%positive := [[0; 100; 200]] ]}
           1%positive [[0; 100; 200]] 0.25 0.75 0%nat 1%nat 100).
  - vm_compute. reflexivity.
  - apply lookup_singleton_eq.
  - reflexivity.
  - vm_compute. reflexivity.
  - vm_compute. reflexivity.
Defined.

(** ** The renderer *)

Section Renderer.

Variable cv2_line : raster → Z * Z → Z * Z → Z → Z → raster.

Lemma draw_segments_run (ls : list segment) (h : heap) fp a :
  h !! fp = Some a →
  draw_segments cv2_line fp ls h
  = Some (tt, <[fp := foldl (λ a s, cv2_line a (x1 s, y1 s) (x2 s, y2 s) 255 2)
                        a ls]> h).
Proof.
  revert h a. induction ls as [|s ls IH]; intros h a Hfp; simpl.
  - unfold ret. by rewrite insert_id.
  - unfold bind, line, bind. rewrite (load_run h fp a Hfp).
    rewrite (store_run h fp a _ Hfp).
    rewrite (IH _ (cv2_line a (x1 s, y1 s) (x2 s, y2 s) 255 2))
      by apply lookup_insert_eq.
    by rewrite insert_insert_eq.
Qed.

Lemma draw_floor_plan_run (lines : lines_t) (h : heap) img image :
  h !! img = Some image →
  ∃ fp h',
    draw_floor_plan cv2_line lines img h = Some (fp, h')
    ∧ h !! fp = None
    ∧ h' !! fp
      = Some (foldl (λ a s, cv2_line a (x1 s, y1 s) (x2 s, y2 s) 255 2)
                (np.zeros image) (segments lines))
    ∧ preserved h h'.
Proof.
  intros Himg.
  set (fp := fresh (dom h)).
  assert (Hfp : h !! fp = None) by apply fresh_loc.
  unfold draw_floor_plan, np.zeros_like, bind, alloc.
  rewrite (load_run h img image Himg). fold fp.
  destruct lines as [ls|]; simpl.
  - rewrite (draw_segments_run ls _ fp (np.zeros image))
      by apply lookup_insert_eq.
    unfold ret. eexists _, _. split; [reflexivity|].
    split; [done|]. split; [by rewrite lookup_insert_eq|].
    repeat apply preserved_insert_fresh; try done. apply preserved_refl.
  - unfold ret. eexists _, _. split; [reflexivity|].
    split; [done|]. split; [by rewrite lookup_insert_eq|].
    apply preserved_insert_fresh; [done|apply preserved_refl].
Qed.

End Renderer.

Lemma zeros_all_zero (a : raster) : Forall (Forall (λ c, c = 0)) (np.zeros a).
Proof. unfold np.zeros. apply Forall_map_all. intros r. by apply Forall_map_all. Qed.

(** C7.  The renderer allocates a new array of the shape of the source image
    filled with zeros, and draws every segment into it, in order, with colour
    255 and thickness 2; when [lines] is [None] or holds no segment it returns
    the all-zero array, and it never fails. *)
Theorem renderer_blank_canvas
    (cv2_line : raster → Z * Z → Z * Z → Z → Z → raster)
    (lines : lines_t) (h : heap) img image :
  h !! img = Some image →
  ∃ fp h',
    draw_floor_plan cv2_line lines img h = Some (fp, h')
    ∧ h !! fp = None
    ∧ shape (np.zeros image) = shape image
    ∧ Forall (Forall (λ c, c = 0)) (np.zeros image)
    ∧ h' !! fp
      = Some (foldl (λ a s, cv2_line a (x1 s, y1 s) (x2 s, y2 s) 255 2)
                (np.zeros image) (segments lines))
    ∧ (lines = None ∨ lines = Some [] → h' !! fp = Some (np.zeros image)).
Proof.
  intros Himg.
  destruct (draw_floor_plan_run cv2_line lines h img image Himg)
    as (fp & h' & Hrun & Hfresh & Hfp & _).
  exists fp, h'. split; [done|]. split; [done|].
  split; [apply shape_map|]. split; [apply zeros_all_zero|].
  split; [done|].
  intros [-> | ->]; exact Hfp.
Qed.

Lemma renderer_blank_canvas_witness :
  ∃ fp h',
    draw_floor_plan (λ a _ _ color _, map (map (λ _, color)) a)
      (Some [Segment 0 0 1 0]) 1%positive {[ 1%positive := [[7; 8]; [9; 10]] ]}
    = Some (fp, h')
    ∧ ({[ 1%positive := [[7; 8]; [9; 10]] ]} : heap) !! fp = None
    ∧ shape (np.zeros [[7; 8]; [9; 10]]) = shape [[7; 8]; [9; 10]]
    ∧ Forall (Forall (λ c, c = 0)) (np.zeros [[7; 8]; [9; 10]])
    ∧ h' !! fp
      = Some (foldl (λ a s, (λ a _ _ color _, map (map (λ _, color)) a)
                              a (x1 s, y1 s) (x2 s, y2 s) 255 2)
                (np.zeros [[7; 8]; [9; 10]]) (segments (Some [Segment 0 0 1 0])))
    ∧ (Some [Segment 0 0 1 0] = None ∨ Some [Segment 0 0 1 0] = Some [] →
       h' !! fp = Some (np.zeros [[7; 8]; [9; 10]])).
Proof.
  apply (renderer_blank_canvas (λ a _ _ color _, map (map (λ _, color)) a)
           (Some [Segment 0 0 1 0]) {[ 1%positive := [[7; 8]; [9; 10]] ]}
           1%positive [[7; 8]; [9; 10]]).
  apply lookup_singleton_eq.
Defined.

(** C9.  Neither the classifier nor the renderer changes the array it is
    given: each returns a reference that was not allocated before the call,
    and every array that existed before the call, the input image among
    them, has the same content after it. *)
Theorem input_raster_unchanged
    (cv2_line : raster → Z * Z → Z * Z → Z → Z → raster)
    (lines : lines_t) (h : heap) img image occ free neg :
  h !! img = Some image →
  (∃ out h',
     preprocess_image img occ free neg h = Some (out, h')
     ∧ h !! out = None
     ∧ h' !! img = Some image
     ∧ preserved h h')
  ∧ (∃ fp h',
       draw_floor_plan cv2_line lines img h = Some (fp, h')
       ∧ h !! fp = None
       ∧ h' !! img = Some image
       ∧ preserved h h').
Proof.
  intros Himg. split.
  - destruct (preprocess_image_run h img image occ free neg Himg)
      as (out & h' & Hrun & Hfresh & _ & Hp).
    exists out, h'. repeat split; try done. by apply Hp.
  - destruct (draw_floor_plan_run cv2_line lines h img image Himg)
      as (fp & h' & Hrun & Hfresh & _ & Hp).
    exists fp, h'. repeat split; try done. by apply Hp.
Qed.

Lemma input_raster_unchanged_witness :
  (∃ out h',
     preprocess_image 1%positive 0.65 0.25 true
       {[ 1%positive := [[0; 100; 200]] ]} = Some (out, h')
     ∧ ({[ 1%positive := [[0; 100; 200]] ]} : heap) !! out = None
     ∧ h' !! 1%positive = Some [[0; 100; 200]]
     ∧ preserved {[ 1%positive := [[0; 100; 200]] ]} h')
  ∧ (∃ fp h',
       draw_floor_plan (λ a _ _ color _, map (map (λ _, color)) a)
         (Some [Segment 0 0 1 0]) 1%positive
         {[ 1%positive := [[0; 100; 200]] ]} = Some (fp, h')
       ∧ ({[ 1%positive := [[0; 100; 200]] ]} : heap) !! fp = None
       ∧ h' !! 1%positive = Some [[0; 100; 200]]
       ∧ preserved {[ 1%positive := [[0; 100; 200]] ]} h').
Proof.
  apply (input_raster_unchanged (λ a _ _ color _, map (map (λ _, color)) a)
           (Some [Segment 0 0 1 0]) {[ 1%positive := [[0; 100; 200]] ]}
           1%positive [[0; 100; 200]] 0.65 0.25 true).
  apply lookup_singleton_eq.
Defined.

(** ** The arguments of the line extractor *)

(** C2, as the code has it.  The pipeline calls the line extractor with
    [rho] set to the [resolution] of the calibration metadata; [theta],
    [threshold], [min_line_length] and [max_line_gap] take the defaults
    pi/900, 40, 40 and 35, whatever the metadata.  [rho] is 1.7 only when
    [detect_lines] is called without it. *)
Theorem hough_arguments_of_pipeline (m : metadata) :
  main_hough_args m
  = {| rho := Dec (resolution m); theta := PiOver 900; threshold := 40;
       minLineLength := 40; maxLineGap := 35 |}
  ∧ detect_lines_args None None None None None
    = {| rho := Dec 1.7; theta := PiOver 900; threshold := 40;
         minLineLength := 40; maxLineGap := 35 |}
  ∧ ∀ (HoughLinesP : raster → hough_args → lines_t) (h : heap) edges,
      detect_lines HoughLinesP edges (Some (Dec (resolution m)))
        None None None None h
      = match h !! edges with
        | Some a => Some (HoughLinesP a (main_hough_args m), h)
        | None => None
        end.
Proof.
  split; [reflexivity|]. split; [reflexivity|].
  intros HoughLinesP h edges.
  unfold detect_lines, bind, load, ret.
  by destruct (h !! edges).
Qed.

(** C2 as stated fails: with a calibration of resolution 0.05 the pipeline
    passes [rho = 0.05], which is not 1.7. *)
Lemma hough_rho_follows_resolution :
  let m := {| resolution := 0.05; occupied_thresh := 0.65;
              free_thresh := 0.196; negate := false |} in
  rho (main_hough_args m) = Dec 0.05
  ∧ ¬ (0.05 == 1.7)%Q
  ∧ main_hough_args m
    ≠ {| rho := Dec 1.7; theta := PiOver 900; threshold := 40;
         minLineLength := 40; maxLineGap := 35 |}.
Proof.
  split; [reflexivity|]. split; [by vm_compute|]. by vm_compute.
Qed.

(** ** The exporters on zero segments *)

(** C4.  When there is no segment the pipeline holds [lines = None], and all
    three exporters raise [TypeError] without writing a file.  On an empty
    array the JSON exporter writes the text "[]", which parses to the empty
    list, the DXF exporter writes a document without entities, and the SVG
    exporter raises [ValueError] without writing a file. *)
Theorem export_zero_segments (filename : string) (fs : fsys) :
  export_as_json None filename fs = (inl TypeError, fs)
  ∧ export_as_dxf None filename fs = (inl TypeError, fs)
  ∧ export_as_svg None filename fs = (inl TypeError, fs)
  ∧ export_as_json (Some []) filename fs
    = (inr tt, <[filename := JsonFile "[]"]> fs)
  ∧ json.loads "[]" = Some (PList [])
  ∧ export_as_dxf (Some []) filename fs
    = (inr tt, <[filename := DxfFile {| dxfversion := "R2010";
                                        modelspace := [] |}]> fs)
  ∧ export_as_svg (Some []) filename fs = (inl ValueError, fs).
Proof. repeat split. Qed.

(** ** Minima and maxima of the coordinates *)

Lemma foldl_min_least (l : list Z) (x : Z) :
  foldl Z.min x l ∈ x :: l ∧ ∀ y, y ∈ x :: l → foldl Z.min x l ≤ y.
Proof.
  revert x. induction l as [|z l IH]; intros x; simpl.
  - split; [apply list_elem_of_here|].
    intros y Hy. apply list_elem_of_singleton in Hy. lia.
  - destruct (IH (Z.min x z)) as [Hin Hle]. split.
    + apply elem_of_cons in Hin as [Hin | Hin].
      * rewrite Hin. destruct (Z.min_spec x z) as [[_ ->] | [_ ->]].
        -- apply list_elem_of_here.
        -- apply list_elem_of_further, list_elem_of_here.
      * by do 2 apply list_elem_of_further.
    + intros y Hy.
      assert (Hm : foldl Z.min (Z.min x z) l ≤ Z.min x z)
        by apply Hle, list_elem_of_here.
      apply elem_of_cons in Hy as [-> | Hy]; [lia|].
      apply elem_of_cons in Hy as [-> | Hy]; [lia|].
      by apply Hle, list_elem_of_further.
Qed.

Lemma foldl_max_greatest (l : list Z) (x : Z) :
  foldl Z.max x l ∈ x :: l ∧ ∀ y, y ∈ x :: l → y ≤ foldl Z.max x l.
Proof.
  revert x. induction l as [|z l IH]; intros x; simpl.
  - split; [apply list_elem_of_here|].
    intros y Hy. apply list_elem_of_singleton in Hy. lia.
  - destruct (IH (Z.max x z)) as [Hin Hle]. split.
    + apply elem_of_cons in Hin as [Hin | Hin].
      * rewrite Hin. destruct (Z.max_spec x z) as [[_ ->] | [_ ->]].
        -- apply list_elem_of_further, list_elem_of_here.
        -- apply list_elem_of_here.
      * by do 2 apply list_elem_of_further.
    + intros y Hy.
      assert (Hm : Z.max x z ≤ foldl Z.max (Z.max x z) l)
        by apply Hle, list_elem_of_here.
      apply elem_of_cons in Hy as [-> | Hy]; [lia|].
      apply elem_of_cons in Hy as [-> | Hy]; [lia|].
      by apply Hle, list_elem_of_further.
Qed.

Lemma elem_of_columns (f g : segment → Z) (ls : list segment) (x : Z) :
  x ∈ columns f g ls ↔ ∃ s, s ∈ ls ∧ (x = f s ∨ x = g s).
Proof.
  unfold columns. rewrite list_elem_of_In, in_flat_map. split.
  - intros (s & Hs & Hx). exists s. rewrite list_elem_of_In. split; [done|].
    simpl in Hx. destruct Hx as [<- | [<- | []]]; auto.
  - intros (s & Hs & Hx). exists s. rewrite <- list_elem_of_In. split; [done|].
    simpl. destruct Hx as [-> | ->]; auto.
Qed.

Lemma wrap32_small (z : Z) : 0 ≤ z < 2 ^ 31 → wrap32 z = z.
Proof.
  unfold wrap32. intros H.
  rewrite Z.mod_small; lia.
Qed.

(** ** The numbers of an SVG Tiny drawing *)

Lemma tiny_number_float (z : Z) : tiny_number (float z) = true ↔ tiny z.
Proof.
  unfold tiny_number, float, tiny.
  rewrite andb_true_iff, !Qle_bool_iff. split.
  - intros [H1 H2]. split.
    + apply Z.le_ngt. intros Hlt.
      assert (H : z ≤ -32768) by lia.
      rewrite Zle_Qle in H. unfold inject_Z at 2 in H. lra.
    + apply Z.le_ngt. intros Hlt.
      assert (H : 32768 ≤ z) by lia.
      rewrite Zle_Qle in H. unfold inject_Z at 1 in H. lra.
  - intros [H1 H2]. rewrite Zle_Qle in H1, H2.
    unfold inject_Z at 1 in H1. unfold inject_Z at 2 in H2. lra.
Qed.

Lemma set_attributes_run (zs : list Z) (fs : fsys) :
  (Forall tiny zs ∧ set_attributes (map float zs) fs = (inr tt, fs))
  ∨ (¬ Forall tiny zs ∧ set_attributes (map float zs) fs = (inl TypeError, fs)).
Proof.
  unfold set_attributes.
  destruct (forallb tiny_number (map float zs)) eqn:E.
  - left. split; [|done].
    rewrite forallb_forall in E. apply Forall_forall. intros z Hz.
    apply tiny_number_float, E, in_map. by apply list_elem_of_In.
  - right. split; [|done]. intros Hall.
    assert (forallb tiny_number (map float zs) = true); [|congruence].
    apply forallb_forall. intros q [z [<- Hz]]%in_map_iff.
    apply tiny_number_float. rewrite Forall_forall in Hall.
    by apply Hall, list_elem_of_In.
Qed.

Lemma add_lines_run (ls : list segment) (fs : fsys) :
  (Forall tiny_coords ls ∧ add_lines ls fs = (inr (map line_element ls), fs))
  ∨ (¬ Forall tiny_coords ls ∧ add_lines ls fs = (inl TypeError, fs)).
Proof.
  induction ls as [|s ls IH].
  - left. split; [constructor|done].
  - assert (Hrun : add_lines (s :: ls) fs
                   = match set_attributes
                             [float (x1 s); float (y1 s); float (x2 s);
                              float (y2 s)] fs with
                     | (inr _, fs1) =>
                         match add_lines ls fs1 with
                         | (inr elements, fs2) =>
                             (inr (line_element s :: elements), fs2)
                         | (inl e, fs2) => (inl e, fs2)
                         end
                     | (inl e, fs1) => (inl e, fs1)
                     end) by reflexivity.
    rewrite Hrun. clear Hrun.
    destruct (set_attributes_run [x1 s; y1 s; x2 s; y2 s] fs)
      as [[Hs Hrun] | [Hs Hrun]];
      cbn [map] in Hrun; rewrite Hrun.
    + assert (Hts : tiny_coords s).
      { unfold tiny_coords.
        apply Forall_cons in Hs as [? Hs]. apply Forall_cons in Hs as [? Hs].
        apply Forall_cons in Hs as [? Hs]. apply Forall_cons in Hs as [? Hs].
        done. }
      destruct IH as [[Hall Hrest] | [Hall Hrest]]; rewrite Hrest.
      * left. split; [by constructor|done].
      * right. split; [|done]. intros [_ H]%Forall_cons. by apply Hall.
    + right. split; [|done]. intros [(H1 & H2 & H3 & H4) _]%Forall_cons.
      apply Hs. by repeat first [apply Forall_nil_2 | apply Forall_cons_2].
Qed.

(** ** The bounding box of the SVG exporter *)

(** The SVG exporter on a non-empty array: it writes the drawing of the
    bounding box when the coordinates and the extents are numbers of an SVG
    Tiny drawing, and raises [TypeError] otherwise. *)
Lemma export_as_svg_cases (ls : list segment) (filename : string) (fs : fsys) :
  ls ≠ [] →
  ∃ xmin xmax ymin ymax,
    least (endpoint_x ls) xmin ∧ greatest (endpoint_x ls) xmax
    ∧ least (endpoint_y ls) ymin ∧ greatest (endpoint_y ls) ymax
    ∧ ((svg_tiny ls
        ∧ export_as_svg (Some ls) filename fs
          = (inr tt,
             <[filename :=
                 SvgFile
                   {| svg_size := (float (xmax - xmin), float (ymax - ymin));
                      svg_profile := "tiny";
                      svg_viewbox := (xmin, ymin, xmax - xmin, ymax - ymin);
                      svg_elements := map line_element ls |}]> fs))
       ∨ (¬ svg_tiny ls
          ∧ export_as_svg (Some ls) filename fs = (inl TypeError, fs))).
Proof.
  intros Hne. destruct ls as [|s ls']; [done|].
  set (ls := s :: ls') in *.
  assert (Hxs : columns x1 x2 ls = x1 s :: x2 s :: columns x1 x2 ls') by done.
  assert (Hys : columns y1 y2 ls = y1 s :: y2 s :: columns y1 y2 ls') by done.
  destruct (foldl_min_least (x2 s :: columns x1 x2 ls') (x1 s)) as [Hxmin1 Hxmin2].
  destruct (foldl_max_greatest (x2 s :: columns x1 x2 ls') (x1 s)) as [Hxmax1 Hxmax2].
  destruct (foldl_min_least (y2 s :: columns y1 y2 ls') (y1 s)) as [Hymin1 Hymin2].
  destruct (foldl_max_greatest (y2 s :: columns y1 y2 ls') (y1 s)) as [Hymax1 Hymax2].
  rewrite <- Hxs in Hxmin1, Hxmin2, Hxmax1, Hxmax2.
  rewrite <- Hys in Hymin1, Hymin2, Hymax1, Hymax2.
  set (xmin := foldl Z.min (x1 s) (x2 s :: columns x1 x2 ls')) in *.
  set (xmax := foldl Z.max (x1 s) (x2 s :: columns x1 x2 ls')) in *.
  set (ymin := foldl Z.min (y1 s) (y2 s :: columns y1 y2 ls')) in *.
  set (ymax := foldl Z.max (y1 s) (y2 s :: columns y1 y2 ls')) in *.
  assert (Hxmin : least (endpoint_x ls) xmin)
    by (split; [by apply elem_of_columns
               |intros x Hx; by apply Hxmin2, elem_of_columns]).
  assert (Hxmax : greatest (endpoint_x ls) xmax)
    by (split; [by apply elem_of_columns
               |intros x Hx; by apply Hxmax2, elem_of_columns]).
  assert (Hymin : least (endpoint_y ls) ymin)
    by (split; [by apply elem_of_columns
               |intros y Hy; by apply Hymin2, elem_of_columns]).
  assert (Hymax : greatest (endpoint_y ls) ymax)
    by (split; [by apply elem_of_columns
               |intros y Hy; by apply Hymax2, elem_of_columns]).
  exists xmin, xmax, ymin, ymax.
  split; [done|]. split; [done|]. split; [done|]. split; [done|].
  (* the coordinates of tiny segments, and then the extents, do not wrap *)
  assert (Hcx : Forall tiny_coords ls → ∀ x, endpoint_x ls x → tiny x).
  { intros Hall x (s' & Hs' & Hx). rewrite Forall_forall in Hall.
    destruct (Hall s' Hs') as (? & ? & ? & ?). by destruct Hx as [-> | ->]. }
  assert (Hcy : Forall tiny_coords ls → ∀ y, endpoint_y ls y → tiny y).
  { intros Hall y (s' & Hs' & Hy). rewrite Forall_forall in Hall.
    destruct (Hall s' Hs') as (? & ? & ? & ?). by destruct Hy as [-> | ->]. }
  assert (Hw : Forall tiny_coords ls → wrap32 (xmax - xmin) = xmax - xmin).
  { intros Hall. apply wrap32_small.
    pose proof (Hcx Hall _ (proj1 Hxmin)). pose proof (Hcx Hall _ (proj1 Hxmax)).
    pose proof (proj2 Hxmin _ (proj1 Hxmax)). unfold tiny in *. lia. }
  assert (Hh : Forall tiny_coords ls → wrap32 (ymax - ymin) = ymax - ymin).
  { intros Hall. apply wrap32_small.
    pose proof (Hcy Hall _ (proj1 Hymin)). pose proof (Hcy Hall _ (proj1 Hymax)).
    pose proof (proj2 Hymin _ (proj1 Hymax)). unfold tiny in *. lia. }
  assert (Hrun : export_as_svg (Some ls) filename fs
                 = match set_attributes
                           [float (wrap32 (xmax - xmin));
                            float (wrap32 (ymax - ymin))] fs with
                   | (inr _, fs1) =>
                       match add_lines ls fs1 with
                       | (inr elements, fs2) =>
                           (inr tt,
                            <[filename :=
                                SvgFile
                                  {| svg_size := (float (wrap32 (xmax - xmin)),
                                                  float (wrap32 (ymax - ymin)));
                                     svg_profile := "tiny";
                                     svg_viewbox :=
                                       (xmin, ymin, wrap32 (xmax - xmin),
                                        wrap32 (ymax - ymin));
                                     svg_elements := elements |}]> fs2)
                       | (inl e, fs2) => (inl e, fs2)
                       end
                   | (inl e, fs1) => (inl e, fs1)
                   end) by reflexivity.
  rewrite Hrun. clear Hrun.
  destruct (set_attributes_run
              [wrap32 (xmax - xmin); wrap32 (ymax - ymin)] fs)
    as [[Hsize Hrun] | [Hsize Hrun]]; cbn [map] in Hrun; rewrite Hrun.
  - apply Forall_cons in Hsize as [Htw Hsize].
    apply Forall_cons in Hsize as [Hth _].
    destruct (add_lines_run ls fs) as [[Hall Hadd] | [Hall Hadd]]; rewrite Hadd.
    + left. rewrite (Hw Hall), (Hh Hall) in *. split; [|done].
      split; [done|]. split.
      * intros a b Ha Hb.
        pose proof (proj2 Hxmin _ Ha). pose proof (proj2 Hxmax _ Hb).
        unfold tiny in Htw. lia.
      * intros a b Ha Hb.
        pose proof (proj2 Hymin _ Ha). pose proof (proj2 Hymax _ Hb).
        unfold tiny in Hth. lia.
    + right. split; [|done]. intros [H _]. by apply Hall.
  - right. split; [|done]. intros (Hall & Hex & Hey).
    apply Hsize. rewrite (Hw Hall), (Hh Hall).
    pose proof (Hex _ _ (proj1 Hxmin) (proj1 Hxmax)).
    pose proof (Hey _ _ (proj1 Hymin) (proj1 Hymax)).
    pose proof (proj2 Hxmin _ (proj1 Hxmax)).
    pose proof (proj2 Hymin _ (proj1 Hymax)).
    repeat first [apply Forall_nil_2 | apply Forall_cons_2]; unfold tiny; lia.
Qed.

(** C6 as stated fails: the array of the one segment from (0, 0) to
    (40000, 0) is not empty, and the exporter raises [TypeError] instead of
    writing a drawing, because 40000 is not a number of an SVG Tiny
    drawing; no viewBox is emitted. *)
Lemma svg_export_beyond_tiny_numbers :
  let ls := [Segment 0 0 40000 0] in
  ls ≠ []
  ∧ export_as_svg (Some ls) "plan.svg" ∅ = (inl TypeError, ∅)
  ∧ ¬ ∃ dwg fs', export_as_svg (Some ls) "plan.svg" ∅
                 = (inr tt, <[("plan.svg" : string) := SvgFile dwg]> fs').
Proof.
  intros ls. split; [done|].
  assert (H : export_as_svg (Some ls) "plan.svg" ∅ = (inl TypeError, ∅))
    by by vm_compute.
  split; [exact H|]. intros (dwg & fs' & H'). rewrite H in H'. discriminate H'.
Qed.

(** C6, as the code has it.  For a non-empty array of segments whose
    endpoint coordinates and whose extents [max x - min x], [max y - min y]
    are numbers of an SVG Tiny drawing (between -32767.9999 and
    32767.9999), the SVG exporter writes a drawing whose viewBox starts at
    (min x, min y) and has width [max x - min x] and height
    [max y - min y], the minima and maxima being taken over the coordinates
    of all segment endpoints; the size of the drawing is the same width and
    height.  For any other non-empty array it raises [TypeError] and writes
    nothing. *)
Theorem svg_viewbox_is_bounding_box (ls : list segment) (filename : string)
    (fs : fsys) :
  ls ≠ [] →
  (svg_tiny ls →
   ∃ dwg xmin xmax ymin ymax,
     export_as_svg (Some ls) filename fs
     = (inr tt, <[filename := SvgFile dwg]> fs)
     ∧ least (endpoint_x ls) xmin ∧ greatest (endpoint_x ls) xmax
     ∧ least (endpoint_y ls) ymin ∧ greatest (endpoint_y ls) ymax
     ∧ svg_viewbox dwg = (xmin, ymin, xmax - xmin, ymax - ymin)
     ∧ svg_size dwg = (float (xmax - xmin), float (ymax - ymin)))
  ∧ (¬ svg_tiny ls →
     export_as_svg (Some ls) filename fs = (inl TypeError, fs)).
Proof.
  intros Hne.
  destruct (export_as_svg_cases ls filename fs Hne)
    as (xmin & xmax & ymin & ymax & Hxmin & Hxmax & Hymin & Hymax
        & [[Htiny Hrun] | [Htiny Hrun]]).
  - split; [|done]. intros _.
    eexists _, xmin, xmax, ymin, ymax. split; [exact Hrun|]. done.
  - split; [done|]. intros _. exact Hrun.
Qed.

Lemma svg_tiny_demo : svg_tiny [Segment 3 40 25 7; Segment 10 12 90 12].
Proof.
  split; [repeat constructor; unfold tiny; simpl; lia|].
  split; intros a b (s & Hs & Ha) (s' & Hs' & Hb);
    rewrite !elem_of_cons, elem_of_nil in Hs, Hs';
    destruct Hs as [-> | [-> | []]]; destruct Hs' as [-> | [-> | []]];
    simpl in Ha, Hb; lia.
Qed.

Lemma svg_viewbox_is_bounding_box_witness :
  ∃ dwg xmin xmax ymin ymax,
    export_as_svg (Some [Segment 3 40 25 7; Segment 10 12 90 12]) "plan.svg" ∅
    = (inr tt, <[("plan.svg" : string) := SvgFile dwg]> ∅)
    ∧ least (endpoint_x [Segment 3 40 25 7; Segment 10 12 90 12]) xmin
    ∧ greatest (endpoint_x [Segment 3 40 25 7; Segment 10 12 90 12]) xmax
    ∧ least (endpoint_y [Segment 3 40 25 7; Segment 10 12 90 12]) ymin
    ∧ greatest (endpoint_y [Segment 3 40 25 7; Segment 10 12 90 12]) ymax
    ∧ svg_viewbox dwg = (xmin, ymin, xmax - xmin, ymax - ymin)
    ∧ svg_size dwg = (float (xmax - xmin), float (ymax - ymin)).
Proof.
  apply (svg_viewbox_is_bounding_box
           [Segment 3 40 25 7; Segment 10 12 90 12] "plan.svg" ∅).
  - discriminate.
  - apply svg_tiny_demo.
Defined.

(** ** Decoding what the JSON encoder wrote *)

Section JsonRoundTrip.

Import json.

Lemma skip_ws_app ws s : forallb is_ws ws = true → skip_ws (ws ++ s) = skip_ws s.
Proof.
  induction ws as [|c ws IH]; simpl; [done|].
  intros [Hc Hws]%andb_true_iff. rewrite Hc. by apply IH.
Qed.

Lemma skip_ws_head c s : is_ws c = false → skip_ws (c :: s) = c :: s.
Proof. intros H. simpl. by rewrite H. Qed.

Lemma spaces_ws k : forallb is_ws (repeat " "%char k) = true.
Proof. induction k; simpl; auto. Qed.

Lemma newline_indent_ws n : forallb is_ws (newline_indent n) = true.
Proof. unfold newline_indent. cbn [forallb]. by rewrite spaces_ws. Qed.

Ltac eval_digit :=
  match goal with
  | |- context [digit_val ?c] =>
      let v := eval vm_compute in (digit_val c) in
      change (digit_val c) with v; cbv iota
  end.

Lemma parse_digits_uint d : ∀ acc rest,
  no_digit_head rest →
  parse_digits (Npos acc) (uint_chars d ++ rest)
  = (Npos (Pos.of_uint_acc d acc), rest).
Proof.
  induction d as [|d IH|d IH|d IH|d IH|d IH|d IH|d IH|d IH|d IH|d IH];
    intros acc rest Hrest;
    [ destruct rest as [|c rest]; simpl in *; [done | by rewrite Hrest]
    | cbn [uint_chars app parse_digits Pos.of_uint_acc]; eval_digit;
      rewrite <- (IH _ rest Hrest); f_equal; lia .. ].
Qed.

Lemma unorm_head d :
  match Decimal.unorm d with
  | Decimal.Nil => False
  | Decimal.D0 d' => d' = Decimal.Nil
  | _ => True
  end.
Proof. induction d; simpl; done. Qed.

Lemma to_uint_head p :
  match Pos.to_uint p with
  | Decimal.Nil | Decimal.D0 _ => False
  | _ => True
  end.
Proof.
  pose proof (DecimalPos.Unsigned.to_of (Pos.to_uint p)) as Hnorm.
  rewrite DecimalPos.Unsigned.of_to in Hnorm. simpl in Hnorm.
  pose proof (unorm_head (Pos.to_uint p)) as Hhd. rewrite <- Hnorm in Hhd.
  pose proof (DecimalPos.Unsigned.to_uint_nonzero p) as Hnz.
  destruct (Pos.to_uint p); try done.
  subst. by destruct Hnz.
Qed.

Lemma parse_nat_uint p rest :
  no_digit_head rest →
  parse_nat (uint_chars (Pos.to_uint p) ++ rest) = Some (Npos p, rest).
Proof.
  intros Hrest.
  pose proof (to_uint_head p) as Hhd.
  pose proof (DecimalPos.Unsigned.of_to p) as Hof.
  destruct (Pos.to_uint p) as [|d|d|d|d|d|d|d|d|d|d]; try done;
    cbn [uint_chars app parse_nat]; eval_digit;
    rewrite parse_digits_uint by done; simpl in Hof; by rewrite Hof.
Qed.

Lemma parse_int_repr z rest :
  no_digit_head rest →
  parse_int (repr_int z ++ rest) = Some (z, rest).
Proof.
  intros Hrest. unfold repr_int.
  destruct z as [|p|p]; cbn [Z.to_int].
  - reflexivity.
  - pose proof (to_uint_head p) as Hhd.
    pose proof (parse_nat_uint p rest Hrest) as Hnat.
    destruct (Pos.to_uint p); try done;
      cbn [uint_chars app parse_int Ascii.eqb Bool.eqb] in *; by rewrite Hnat.
  - cbn [app parse_int Ascii.eqb Bool.eqb].
    by rewrite parse_nat_uint.
Qed.

Lemma repr_int_start z :
  ∃ c s, repr_int z = c :: s ∧ value_start c
         ∧ Ascii.eqb c "["%char = false ∧ Ascii.eqb c "{"%char = false
         ∧ Ascii.eqb c "034"%char = false.
Proof.
  unfold repr_int. destruct z as [|p|p]; cbn [Z.to_int].
  - eexists _, _. split; [reflexivity|]. by vm_compute.
  - pose proof (to_uint_head p) as Hhd.
    destruct (Pos.to_uint p); try done;
      (eexists _, _; split; [reflexivity|]; by vm_compute).
  - eexists _, _. split; [reflexivity|]. by vm_compute.
Qed.

Lemma parse_value_int z fuel ws rest :
  forallb is_ws ws = true → no_digit_head rest →
  parse_value (S fuel) (ws ++ repr_int z ++ rest) = Some (PInt z, rest).
Proof.
  intros Hws Hrest.
  destruct (repr_int_start z) as (c & s & Hz & (Hc & _) & H1 & H2 & H3).
  cbn [parse_value]. rewrite skip_ws_app by done.
  pose proof (parse_int_repr z rest Hrest) as Hint.
  rewrite Hz in *. cbn [app] in *. rewrite skip_ws_head by done.
  by rewrite H1, H2, H3, Hint.
Qed.

Lemma parse_chars_plain s rest :
  forallb plain_char s = true →
  parse_chars (s ++ "034"%char :: rest) = Some (s, rest).
Proof.
  induction s as [|c s IH]; intros H.
  - reflexivity.
  - cbn [forallb] in H. apply andb_true_iff in H as [Hc Hs].
    cbn [app parse_chars]. rewrite Hc, (IH Hs).
    unfold plain_char in Hc.
    apply andb_true_iff in Hc as [[Hq _]%andb_true_iff _].
    apply negb_true_iff in Hq. by rewrite Hq.
Qed.

Lemma pyval_ind' (P : pyval → Prop) :
  (∀ z, P (PInt z)) →
  (∀ s, P (PStr s)) →
  (∀ l, Forall P l → P (PTuple l)) →
  (∀ l, Forall P l → P (PList l)) →
  (∀ l, Forall (λ kv, P kv.2) l → P (PDict l)) →
  ∀ v, P v.
Proof.
  intros Hi Hs Ht Hl Hd.
  refine (fix IH (v : pyval) : P v :=
    match v with
    | PInt z => Hi z
    | PStr s => Hs s
    | PTuple l => Ht l ((fix go (l : list pyval) : Forall P l :=
                           match l with
                           | [] => List.Forall_nil _
                           | x :: l' => List.Forall_cons _ _ _ (IH x) (go l')
                           end) l)
    | PList l => Hl l ((fix go (l : list pyval) : Forall P l :=
                          match l with
                          | [] => List.Forall_nil _
                          | x :: l' => List.Forall_cons _ _ _ (IH x) (go l')
                          end) l)
    | PDict l => Hd l ((fix go (l : list (list ascii * pyval))
                            : Forall (λ kv, P kv.2) l :=
                          match l with
                          | [] => List.Forall_nil _
                          | kv :: l' => List.Forall_cons _ _ _ (IH kv.2) (go l')
                          end) l)
    end).
Qed.

Lemma encode_start level v : ∃ c s, encode level v = c :: s ∧ value_start c.
Proof.
  destruct v as [z|s|l|l|l].
  - destruct (repr_int_start z) as (c & s & Hz & Hc & _). by exists c, s.
  - eexists _, _. split; [reflexivity|]. by vm_compute.
  - destruct l; (eexists _, _; split; [reflexivity|]; by vm_compute).
  - destruct l; (eexists _, _; split; [reflexivity|]; by vm_compute).
  - destruct l; (eexists _, _; split; [reflexivity|]; by vm_compute).
Qed.

Lemma join_cons2 sep p q ps :
  join sep (p :: q :: ps) = p ++ sep ++ join sep (q :: ps).
Proof. reflexivity. Qed.

Lemma parse_elems_join (l : list pyval) :
  Forall roundtrips l →
  foldr (λ x P, plain x ∧ P) True l →
  l ≠ [] →
  ∀ level n m fuel ws rest,
    forallb is_ws ws = true →
    (length (join (","%char :: newline_indent n) (map (encode level) l)) < fuel)%nat →
    parse_elems fuel
      (ws ++ join (","%char :: newline_indent n) (map (encode level) l)
          ++ newline_indent m ++ "]"%char :: rest)
    = Some (map listify l, rest).
Proof.
  induction l as [|x l IH]; [done|].
  intros [Hx Hl]%Forall_cons [Px Pl] _ level n m fuel ws rest Hws Hfuel.
  destruct fuel as [|f]; [lia|].
  destruct l as [|y l'].
  - cbn [map join] in *. cbn [parse_elems].
    rewrite (Hx level f ws (newline_indent m ++ "]"%char :: rest));
      [|done|done|done|lia].
    rewrite skip_ws_app by apply newline_indent_ws.
    reflexivity.
  - cbn [map] in *. rewrite join_cons2 in *.
    rewrite length_app in Hfuel. cbn [app length] in Hfuel.
    rewrite length_app in Hfuel.
    cbn [parse_elems]. rewrite <- !app_assoc. cbn [app].
    rewrite (Hx level f ws); [|done|done|done|lia].
    cbn [skip_ws is_ws].
    rewrite (IH Hl Pl ltac:(done) level n m f (newline_indent n) rest);
      [done|apply newline_indent_ws|lia].
Qed.

Lemma parse_members_join (l : list (list ascii * pyval)) :
  Forall (λ kv, roundtrips kv.2) l →
  foldr (λ kv P, (forallb plain_char kv.1 = true ∧ plain kv.2) ∧ P) True l →
  l ≠ [] →
  ∀ level n m fuel ws rest,
    forallb is_ws ws = true →
    (length (join (","%char :: newline_indent n)
               (map (λ kv, quote kv.1 ++ chars ": " ++ encode level kv.2) l))
     < fuel)%nat →
    parse_members fuel
      (ws ++ join (","%char :: newline_indent n)
               (map (λ kv, quote kv.1 ++ chars ": " ++ encode level kv.2) l)
          ++ newline_indent m ++ "}"%char :: rest)
    = Some (map (λ kv, (kv.1, listify kv.2)) l, rest).
Proof.
  induction l as [|[k x] l IH]; [done|].
  intros [Hx Hl]%Forall_cons [[Pk Px] Pl] _ level n m fuel ws rest Hws Hfuel.
  destruct fuel as [|f]; [lia|].
  cbn [fst snd] in *.
  destruct l as [|y l'].
  - cbn [map join fst snd] in *.
    rewrite !length_app in Hfuel.
    cbn [parse_members]. rewrite skip_ws_app by done.
    unfold quote, chars. cbn [list_ascii_of_string app].
    rewrite <- !app_assoc. cbn [app skip_ws is_ws].
    rewrite parse_chars_plain by done. cbn [skip_ws is_ws].
    pose proof (Hx level f [" "%char] (newline_indent m ++ "}"%char :: rest))
      as Hv.
    cbn [app] in Hv. rewrite Hv; [|done|done|done|lia].
    rewrite skip_ws_app by apply newline_indent_ws.
    reflexivity.
  - cbn [map fst snd] in *. rewrite join_cons2 in *.
    rewrite ?length_app in Hfuel. cbn [app length] in Hfuel.
    rewrite ?length_app in Hfuel.
    cbn [parse_members]. rewrite skip_ws_app by done.
    unfold quote at 1. unfold chars at 1. cbn [list_ascii_of_string app].
    rewrite <- !app_assoc. cbn [app skip_ws is_ws].
    rewrite parse_chars_plain by done. cbn [skip_ws is_ws].
    match goal with
    | |- context [parse_value f (" "%char :: encode level x ++ ?R)] =>
        pose proof (Hx level f [" "%char] R) as Hv
    end.
    cbn [app] in Hv. rewrite Hv; [|done|done|done|lia].
    cbn [skip_ws is_ws]. rewrite <- ?app_assoc.
    rewrite (IH Hl Pl ltac:(done) level n m f (newline_indent n) rest);
      [done|apply newline_indent_ws|lia].
Qed.

Lemma dict_set_fresh k v d :
  k ∉ map fst d → dict_set k v d = d ++ [(k, v)].
Proof.
  induction d as [|[k' v'] d IH]; intros Hk; simpl; [done|].
  simpl in Hk. apply not_elem_of_cons in Hk as [Hne Hk].
  rewrite decide_False by done. by rewrite IH.
Qed.

Lemma foldl_dict_set l : ∀ d,
  NoDup (map fst (d ++ l)) →
  foldl (λ d kv, dict_set kv.1 kv.2 d) d l = d ++ l.
Proof.
  induction l as [|[k v] l IH]; intros d Hnd; simpl.
  - by rewrite app_nil_r.
  - assert (Hk : k ∉ map fst d).
    { rewrite map_app in Hnd. apply NoDup_app in Hnd as (_ & Hdis & _).
      intros Hin. apply (Hdis k Hin). simpl. apply list_elem_of_here. }
    rewrite dict_set_fresh by done.
    rewrite IH; rewrite <- app_assoc; done.
Qed.

Lemma dict_of_pairs_nodup l :
  NoDup (map fst l) → dict_of_pairs l = l.
Proof. intros H. unfold dict_of_pairs. by rewrite foldl_dict_set. Qed.

Lemma join_start sep (f : pyval → list ascii) (l : list pyval) :
  (∀ x, ∃ c s, f x = c :: s ∧ value_start c) → l ≠ [] →
  ∃ c s, join sep (map f l) = c :: s ∧ value_start c.
Proof.
  intros Hf Hl. destruct l as [|x l]; [done|].
  destruct (Hf x) as (c & s & Hx & Hc).
  destruct l as [|y l]; cbn [map]; [|rewrite join_cons2]; cbn [join];
    rewrite Hx; eexists _, _; (split; [reflexivity|done]).
Qed.

Lemma encode_length level v : (1 ≤ length (encode level v))%nat.
Proof.
  destruct (encode_start level v) as (c & s & -> & _). simpl. lia.
Qed.

Lemma newline_indent_length n : (1 ≤ length (newline_indent n))%nat.
Proof. unfold newline_indent. cbn [length]. lia. Qed.

Lemma roundtrips_array (l : list pyval) level fuel ws rest :
  Forall roundtrips l →
  foldr (λ x P, plain x ∧ P) True l →
  forallb is_ws ws = true →
  (length (encode level (PList l)) ≤ fuel)%nat →
  parse_value fuel (ws ++ encode level (PList l) ++ rest)
  = Some (PList (map listify l), rest).
Proof.
  intros Hall Hpl Hws Hfuel.
  destruct fuel as [|f]; [pose proof (encode_length level (PList l)); lia|].
  destruct l as [|x l].
  - cbn [encode chars list_ascii_of_string app parse_value].
    rewrite skip_ws_app by done. reflexivity.
  - set (l0 := x :: l) in *.
    assert (Hne : l0 ≠ []) by done.
    assert (Henc : encode level (PList l0)
                   = "["%char :: newline_indent (S level)
                     ++ join (","%char :: newline_indent (S level))
                          (map (encode (S level)) l0)
                     ++ newline_indent level ++ ["]"%char]) by reflexivity.
    rewrite Henc in *. clear Henc.
    cbn [length] in Hfuel. rewrite !length_app in Hfuel.
    cbn [parse_value]. rewrite skip_ws_app by done.
    cbn [app skip_ws is_ws Ascii.eqb Bool.eqb].
    rewrite <- !app_assoc. cbn [app].
    rewrite skip_ws_app by apply newline_indent_ws.
    destruct (join_start (","%char :: newline_indent (S level))
                (encode (S level)) l0 (encode_start (S level)) Hne)
      as (c & s & Hj & Hc & Hc1 & Hc2).
    match goal with
    | |- context [skip_ws (?J ++ ?T)] =>
        assert (Hskip : skip_ws (J ++ T) = c :: s ++ T)
          by (rewrite Hj; cbn [app]; by apply skip_ws_head)
    end.
    rewrite Hskip, Hc1.
    pose proof (newline_indent_length (S level)).
    rewrite (parse_elems_join l0 Hall Hpl Hne (S level) (S level) level f
               (newline_indent (S level)) rest);
      [done|apply newline_indent_ws|lia].
Qed.

Lemma roundtrips_dict (l : list (list ascii * pyval)) level fuel ws rest :
  Forall (λ kv, roundtrips kv.2) l →
  plain (PDict l) →
  forallb is_ws ws = true →
  (length (encode level (PDict l)) ≤ fuel)%nat →
  parse_value fuel (ws ++ encode level (PDict l) ++ rest)
  = Some (PDict (map (λ kv, (kv.1, listify kv.2)) l), rest).
Proof.
  intros Hall [Hnd Hpl] Hws Hfuel.
  destruct fuel as [|f]; [pose proof (encode_length level (PDict l)); lia|].
  destruct l as [|kv l].
  - cbn [encode chars list_ascii_of_string app parse_value].
    rewrite skip_ws_app by done. reflexivity.
  - set (l0 := kv :: l) in *.
    assert (Hne : l0 ≠ []) by done.
    assert (Henc : encode level (PDict l0)
                   = "{"%char :: newline_indent (S level)
                     ++ join (","%char :: newline_indent (S level))
                          (map (λ kv, quote kv.1 ++ chars ": "
                                      ++ encode (S level) kv.2) l0)
                     ++ newline_indent level ++ ["}"%char]) by reflexivity.
    rewrite Henc in *. clear Henc.
    cbn [length] in Hfuel. rewrite !length_app in Hfuel.
    cbn [parse_value]. rewrite skip_ws_app by done.
    cbn [app skip_ws is_ws Ascii.eqb Bool.eqb].
    rewrite <- !app_assoc. cbn [app].
    rewrite skip_ws_app by apply newline_indent_ws.
    match goal with
    | |- context [skip_ws (?J ++ ?T)] =>
        assert (Hskip : ∃ s, skip_ws (J ++ T) = "034"%char :: s)
    end.
    { unfold l0. destruct l as [|kv' l']; cbn [map]; [|rewrite join_cons2];
        cbn [join quote app skip_ws is_ws]; by eexists. }
    destruct Hskip as [s Hskip]. rewrite Hskip.
    cbn [Ascii.eqb Bool.eqb].
    pose proof (newline_indent_length (S level)).
    rewrite (parse_members_join l0 Hall Hpl Hne (S level) (S level) level f
               (newline_indent (S level)) rest);
      [|apply newline_indent_ws|lia].
    rewrite dict_of_pairs_nodup; [done|].
    rewrite map_map. cbn [fst]. done.
Qed.

Lemma plain_list_Forall (l : list pyval) :
  foldr (λ x P, plain x ∧ P) True l ↔ Forall plain l.
Proof.
  induction l as [|x l IH]; simpl.
  - split; [constructor|done].
  - rewrite Forall_cons, IH. done.
Qed.

Lemma roundtrips_all (v : pyval) : roundtrips v.
Proof.
  induction v as [z|s|l IH|l IH|l IH] using pyval_ind';
    intros level fuel ws rest Hpl Hws Hrest Hfuel.
  - destruct fuel as [|f]; [pose proof (encode_length level (PInt z)); lia|].
    by apply parse_value_int.
  - destruct fuel as [|f]; [pose proof (encode_length level (PStr s)); lia|].
    cbn [encode parse_value listify]. rewrite skip_ws_app by done.
    unfold quote. cbn [app skip_ws is_ws Ascii.eqb Bool.eqb].
    rewrite <- app_assoc. cbn [app].
    by rewrite parse_chars_plain.
  - by apply (roundtrips_array l level fuel ws rest).
  - by apply (roundtrips_array l level fuel ws rest).
  - by apply (roundtrips_dict l level fuel ws rest).
Qed.

(** Decoding an encoded value gives the value back, tuples read as lists. *)
Lemma loads_dumps (v : pyval) : plain v → loads (dumps v) = Some (listify v).
Proof.
  intros Hpl. unfold loads, dumps, chars.
  rewrite list_ascii_of_string_of_list_ascii.
  pose proof (roundtrips_all v 0%nat (S (length (encode 0 v))) [] [] Hpl) as H.
  cbn [app] in H. rewrite app_nil_r in H.
  rewrite H; [done|done|done|lia].
Qed.

End JsonRoundTrip.

(** ** The JSON exporter *)

Lemma line_data_plain (ls : list segment) : json.plain (line_data ls).
Proof.
  unfold line_data. cbn [json.plain].
  induction ls as [|s ls IH]; cbn [map foldr]; [done|].
  split; [|exact IH].
  cbn [json.plain map fst foldr]. repeat split; try done.
  apply NoDup_cons. split.
  - intros H. apply list_elem_of_singleton in H. discriminate H.
  - apply NoDup_singleton.
Qed.

Lemma line_data_listify (ls : list segment) :
  json.listify (line_data ls)
  = PList (map (λ s, PDict [(json.chars "start", PList [PInt (x1 s); PInt (y1 s)]);
                            (json.chars "end", PList [PInt (x2 s); PInt (y2 s)])])
             ls).
Proof.
  unfold line_data. cbn [json.listify]. by rewrite map_map.
Qed.

(** C5.  For every array of N segments, the text the JSON exporter writes
    parses to a list of exactly N objects, the i-th being
    [{"start": [x1, y1], "end": [x2, y2]}] with the integer coordinates of
    the i-th segment. *)
Theorem json_export_roundtrip (ls : list segment) (filename : string)
    (fs : fsys) :
  ∃ text objs,
    export_as_json (Some ls) filename fs
    = (inr tt, <[filename := JsonFile text]> fs)
    ∧ json.loads text = Some (PList objs)
    ∧ length objs = length ls
    ∧ objs
      = map (λ s, PDict [(json.chars "start", PList [PInt (x1 s); PInt (y1 s)]);
                         (json.chars "end", PList [PInt (x2 s); PInt (y2 s)])])
          ls.
Proof.
  eexists _, _. split; [reflexivity|].
  split.
  - rewrite loads_dumps by apply line_data_plain.
    by rewrite line_data_listify.
  - split; [apply length_map|reflexivity].
Qed.

(** * Further properties of the classifier *)

(** X1.  When the product [free_thresh * 255] exceeds the product
    [occupied_thresh * 255], both as Python computes them, the classifier is
    a two-way threshold at [free_thresh * 255]: a pixel below it becomes
    FREE, every other pixel becomes OCCUPIED, and no pixel becomes
    UNKNOWN. *)
Theorem classifier_binary_when_swapped (h : heap) img image occ free i j v :
  (float64.mul occ 255 < float64.mul free 255)%Q →
  h !! img = Some image →
  pixel image i j = Some v →
  ∃ out c,
    result_of (preprocess_image img occ free false) h = Some out
    ∧ pixel out i j = Some c
    ∧ ((inject_Z v < float64.mul free 255)%Q → c = FREE)
    ∧ (¬ (inject_Z v < float64.mul free 255)%Q → c = OCCUPIED)
    ∧ c ≠ UNKNOWN.
Proof.
  intros Hlt Himg Hv.
  exists (classified occ free false image), (classify_pixel occ free v).
  split; [by apply result_of_preprocess|].
  split; [unfold classified; by rewrite pixel_map, Hv|].
  unfold FREE, OCCUPIED, UNKNOWN.
  repeat split; cmp_cases occ free v; try done; try lra.
Qed.

Lemma classifier_binary_when_swapped_witness :
  ∃ out c,
    result_of (preprocess_image 1%positive 0.25 0.75 false)
      {[ 1%positive := [[0; 100; 200]] ]} = Some out
    ∧ pixel out 0 2 = Some c
    ∧ ((inject_Z 200 < float64.mul 0.75 255)%Q → c = FREE)
    ∧ (¬ (inject_Z 200 < float64.mul 0.75 255)%Q → c = OCCUPIED)
    ∧ c ≠ UNKNOWN.
Proof.
  apply (classifier_binary_when_swapped {[ 1%positive := [[0; 100; 200]] ]}
           1%positive [[0; 100; 200]] 0.25 0.75 0%nat 2%nat 200).
  - vm_compute. reflexivity.
  - apply lookup_singleton_eq.
  - reflexivity.
Defined.

(** X2.  On an 8-bit pixel (0..255) the thresholds saturate: with
    [occupied_thresh >= 1] no pixel becomes OCCUPIED, and with
    [free_thresh <= 0] no pixel becomes FREE; with both, every pixel becomes
    UNKNOWN. *)
Theorem classifier_saturated_thresholds (h : heap) img image occ free i j v :
  h !! img = Some image →
  pixel image i j = Some v →
  0 ≤ v ≤ 255 →
  ∃ out c,
    result_of (preprocess_image img occ free false) h = Some out
    ∧ pixel out i j = Some c
    ∧ ((1 <= occ)%Q → c ≠ OCCUPIED)
    ∧ ((free <= 0)%Q → c ≠ FREE)
    ∧ ((1 <= occ)%Q → (free <= 0)%Q → c = UNKNOWN).
Proof.
  intros Himg Hv [Hlo Hhi].
  exists (classified occ free false image), (classify_pixel occ free v).
  split; [by apply result_of_preprocess|].
  split; [unfold classified; by rewrite pixel_map, Hv|].
  rewrite Zle_Qle in Hlo, Hhi.
  change (inject_Z 0) with 0%Q in Hlo.
  assert (H255 : (inject_Z 255 == 255)%Q) by reflexivity.
  assert (Hocc : (1 <= occ)%Q → (255 <= float64.mul occ 255)%Q).
  { intros H. pose proof product_one. pose proof (product_mono 1 occ H). lra. }
  assert (Hfree : (free <= 0)%Q → (float64.mul free 255 <= 0)%Q).
  { intros H. pose proof product_zero. pose proof (product_mono free 0 H). lra. }
  unfold FREE, OCCUPIED, UNKNOWN.
  repeat split; intros; cmp_cases occ free v; try done;
    try specialize (Hocc ltac:(assumption));
    try specialize (Hfree ltac:(assumption)); lra.
Qed.

Lemma classifier_saturated_thresholds_witness :
  ∃ out c,
    result_of (preprocess_image 1%positive 1 0 false)
      {[ 1%positive := [[0; 100; 255]] ]} = Some out
    ∧ pixel out 0 2 = Some c
    ∧ ((1 <= 1)%Q → c ≠ OCCUPIED)
    ∧ ((0 <= 0)%Q → c ≠ FREE)
    ∧ ((1 <= 1)%Q → (0 <= 0)%Q → c = UNKNOWN).
Proof.
  apply (classifier_saturated_thresholds {[ 1%positive := [[0; 100; 255]] ]}
           1%positive [[0; 100; 255]] 1 0 0%nat 2%nat 255).
  - apply lookup_singleton_eq.
  - reflexivity.
  - lia.
Defined.

(** X23.  The classifier compares a pixel with the rounded product, not
    with the exact one.  The float 0.6 is a little below 6/10 and its exact
    product with 255 is a little below 153, but [0.6 * 255] is 153.0 in
    Python: with [occupied_thresh = 0.6] a pixel of intensity 153 is not
    above the threshold and becomes UNKNOWN; with [free_thresh = 0.2], whose
    exact product with 255 is a little above 51 and whose computed product
    is 51.0, a pixel of intensity 51 is not below the threshold and becomes
    UNKNOWN as well. *)
Theorem classifier_compares_with_rounded_product :
  let occ := (5404319552844595 # 9007199254740992)%Q in
  let free := (3602879701896397 # 18014398509481984)%Q in
  float64.is_float occ = true ∧ float64.is_float free = true
  ∧ (occ * 255 < 153)%Q ∧ (float64.mul occ 255 == 153)%Q
  ∧ (51 < free * 255)%Q ∧ (float64.mul free 255 == 51)%Q
  ∧ result_of (preprocess_image 1%positive occ free false)
      {[ 1%positive := [[50; 51; 153; 154]] ]}
    = Some [[FREE; UNKNOWN; UNKNOWN; OCCUPIED]].
Proof.
  intros occ free.
  split; [by vm_compute|]. split; [by vm_compute|]. split; [by vm_compute|].
  split; [by vm_compute|]. split; [by vm_compute|]. split; [by vm_compute|].
  rewrite (result_of_preprocess _ 1%positive [[50; 51; 153; 154]] occ free
             false) by apply lookup_singleton_eq.
  by vm_compute.
Qed.

(** * Further properties of the renderer *)

Lemma zeros_shape (a b : raster) : shape a = shape b → np.zeros a = np.zeros b.
Proof.
  unfold shape, np.zeros. revert b.
  induction a as [|r a IH]; intros [|r' b] H; simpl in *; try done.
  injection H as Hr Hab. f_equal; [|by apply IH].
  clear -Hr. revert r' Hr.
  induction r as [|x r IH]; intros [|x' r'] H; simpl in *; try done.
  injection H as H. f_equal. by apply IH.
Qed.

(** X3.  The renderer uses the source image for its dimensions only: two
    images with rows of the same lengths give the same floor plan, whatever
    their pixels. *)
Theorem renderer_uses_shape_only
    (cv2_line : raster → Z * Z → Z * Z → Z → Z → raster)
    (lines : lines_t) (h1 h2 : heap) img1 img2 image1 image2 :
  h1 !! img1 = Some image1 →
  h2 !! img2 = Some image2 →
  shape image1 = shape image2 →
  ∃ plan,
    result_of (draw_floor_plan cv2_line lines img1) h1 = Some plan
    ∧ result_of (draw_floor_plan cv2_line lines img2) h2 = Some plan.
Proof.
  intros H1 H2 Hshape.
  destruct (draw_floor_plan_run cv2_line lines h1 img1 image1 H1)
    as (fp1 & h1' & Hrun1 & _ & Hfp1 & _).
  destruct (draw_floor_plan_run cv2_line lines h2 img2 image2 H2)
    as (fp2 & h2' & Hrun2 & _ & Hfp2 & _).
  unfold result_of. rewrite Hrun1, Hrun2, Hfp1, Hfp2.
  rewrite (zeros_shape image1 image2 Hshape). by eexists.
Qed.

Lemma renderer_uses_shape_only_witness :
  ∃ plan,
    result_of (draw_floor_plan (λ a _ _ color _, map (map (λ _, color)) a)
                 (Some [Segment 0 0 1 0]) 1%positive)
      {[ 1%positive := [[7; 8]; [9; 10]] ]} = Some plan
    ∧ result_of (draw_floor_plan (λ a _ _ color _, map (map (λ _, color)) a)
                   (Some [Segment 0 0 1 0]) 2%positive)
        {[ 2%positive := [[0; 0]; [255; 1]] ]} = Some plan.
Proof.
  apply (renderer_uses_shape_only (λ a _ _ color _, map (map (λ _, color)) a)
           (Some [Segment 0 0 1 0])
           {[ 1%positive := [[7; 8]; [9; 10]] ]}
           {[ 2%positive := [[0; 0]; [255; 1]] ]}
           1%positive 2%positive [[7; 8]; [9; 10]] [[0; 0]; [255; 1]]).
  - apply lookup_singleton_eq.
  - apply lookup_singleton_eq.
  - reflexivity.
Defined.

Lemma strokes_binary
    (cv2_line : raster → Z * Z → Z * Z → Z → Z → raster) (ls : list segment) :
  (∀ a p q color thickness,
     shape (cv2_line a p q color thickness) = shape a
     ∧ ∀ i j c, pixel (cv2_line a p q color thickness) i j = Some c →
                c = color ∨ pixel a i j = Some c) →
  ∀ a,
    (∀ i j c, pixel a i j = Some c → c = 0 ∨ c = 255) →
    let plan := foldl (λ a s, cv2_line a (x1 s, y1 s) (x2 s, y2 s) 255 2) a ls in
    shape plan = shape a
    ∧ ∀ i j c, pixel plan i j = Some c → c = 0 ∨ c = 255.
Proof.
  intros Hline. induction ls as [|s ls IH]; intros a Ha; simpl.
  - done.
  - destruct (Hline a (x1 s, y1 s) (x2 s, y2 s) 255 2) as [Hshape Hpix].
    destruct (IH (cv2_line a (x1 s, y1 s) (x2 s, y2 s) 255 2)) as [IH1 IH2].
    + intros i j c Hc. destruct (Hpix i j c Hc) as [-> | Hold]; [by right|].
      by apply (Ha i j).
    + split; [by rewrite IH1|exact IH2].
Qed.

Lemma pixel_zeros (a : raster) i j c : pixel (np.zeros a) i j = Some c → c = 0.
Proof.
  unfold np.zeros. rewrite pixel_map.
  destruct (pixel a i j); simpl; [|done]. by intros [= <-].
Qed.

(** X4.  If [cv2.line] keeps the dimensions of the array it draws into and
    leaves every pixel either as it was or set to the colour it is given,
    then the floor plan has the dimensions of the source image and each of
    its pixels is 0 or 255. *)
Theorem renderer_binary_floor_plan
    (cv2_line : raster → Z * Z → Z * Z → Z → Z → raster)
    (lines : lines_t) (h : heap) img image :
  (∀ a p q color thickness,
     shape (cv2_line a p q color thickness) = shape a
     ∧ ∀ i j c, pixel (cv2_line a p q color thickness) i j = Some c →
                c = color ∨ pixel a i j = Some c) →
  h !! img = Some image →
  ∃ plan,
    result_of (draw_floor_plan cv2_line lines img) h = Some plan
    ∧ shape plan = shape image
    ∧ ∀ i j c, pixel plan i j = Some c → c = 0 ∨ c = 255.
Proof.
  intros Hline Himg.
  destruct (draw_floor_plan_run cv2_line lines h img image Himg)
    as (fp & h' & Hrun & _ & Hfp & _).
  unfold result_of. rewrite Hrun, Hfp. eexists. split; [reflexivity|].
  destruct (strokes_binary cv2_line (segments lines) Hline (np.zeros image))
    as [Hshape Hpix].
  - intros i j c Hc. left. by apply (pixel_zeros image i j).
  - split; [|exact Hpix].
    rewrite Hshape. apply shape_map.
Qed.

Lemma renderer_binary_floor_plan_witness :
  ∃ plan,
    result_of (draw_floor_plan (λ a _ _ color _, map (map (λ _, color)) a)
                 (Some [Segment 0 0 1 0]) 1%positive)
      {[ 1%positive := [[7; 8]; [9; 10]] ]} = Some plan
    ∧ shape plan = shape [[7; 8]; [9; 10]]
    ∧ ∀ i j c, pixel plan i j = Some c → c = 0 ∨ c = 255.
Proof.
  apply (renderer_binary_floor_plan (λ a _ _ color _, map (map (λ _, color)) a)
           (Some [Segment 0 0 1 0]) {[ 1%positive := [[7; 8]; [9; 10]] ]}
           1%positive [[7; 8]; [9; 10]]).
  - intros a p q color thickness. split; [apply shape_map|].
    intros i j c. rewrite pixel_map.
    destruct (pixel a i j); simpl; [|done]. intros [= <-]. by left.
  - apply lookup_singleton_eq.
Defined.

(** * Further properties of the exporters *)

(** What the SVG exporter does, case by case: it writes a drawing for a
    non-empty array whose numbers an SVG Tiny drawing can hold, and
    otherwise raises and leaves the files as they were. *)
Lemma export_as_svg_outcomes (lines : lines_t) (filename : string) (fs : fsys) :
  (∃ ls dwg,
     lines = Some ls ∧ ls ≠ [] ∧ svg_tiny ls
     ∧ export_as_svg lines filename fs
       = (inr tt, <[filename := SvgFile dwg]> fs))
  ∨ (∃ e,
       export_as_svg lines filename fs = (inl e, fs)
       ∧ ¬ ∃ ls, lines = Some ls ∧ ls ≠ [] ∧ svg_tiny ls).
Proof.
  destruct lines as [[|s ls]|].
  - right. exists ValueError. split; [done|]. by intros (ls & [= <-] & Hne & _).
  - destruct (export_as_svg_cases (s :: ls) filename fs)
      as (xmin & xmax & ymin & ymax & _ & _ & _ & _
          & [[Htiny Hrun] | [Htiny Hrun]]); [done| |].
    + left. by eexists _, _.
    + right. exists TypeError. split; [done|].
      by intros (ls' & [= <-] & _ & H).
  - right. exists TypeError. split; [done|]. by intros (ls & [=] & _).
Qed.


(** X6.  Whatever an exporter does, it touches no file but [filename]; when
    it succeeds, [filename] holds a document of its format afterwards,
    whatever was there before. *)
Theorem exporters_frame (lines : lines_t) (filename : string) (fs : fsys) :
  ∀ r fs',
    export_as_json lines filename fs = (r, fs')
    ∨ export_as_dxf lines filename fs = (r, fs')
    ∨ export_as_svg lines filename fs = (r, fs') →
    (∀ other, other ≠ filename → fs' !! other = fs !! other)
    ∧ (r = inr tt → ∃ f, fs' !! filename = Some f).
Proof.
  intros r fs' [H | [H | H]].
  - destruct lines as [ls|]; injection H as <- <-;
      (split; [intros other Hne; by rewrite ?lookup_insert_ne
              |intros Hr; try discriminate Hr; eexists; apply lookup_insert_eq]).
  - destruct lines as [ls|]; injection H as <- <-;
      (split; [intros other Hne; by rewrite ?lookup_insert_ne
              |intros Hr; try discriminate Hr; eexists; apply lookup_insert_eq]).
  - destruct (export_as_svg_outcomes lines filename fs)
      as [(ls & dwg & _ & _ & _ & Hrun) | (e' & Hrun & _)];
      rewrite Hrun in H; injection H as <- <-;
      (split; [intros other Hne; by rewrite ?lookup_insert_ne
              |intros Hr; try discriminate Hr; eexists; apply lookup_insert_eq]).
Qed.

Lemma exporters_frame_witness :
  (∀ other, other ≠ "plan.json" →
     (<[("plan.json" : string) := JsonFile "[]"]> ∅ : fsys) !! other
     = (∅ : fsys) !! other)
  ∧ (@inr pyerror unit tt = inr tt →
     ∃ f, (<[("plan.json" : string) := JsonFile "[]"]> ∅ : fsys) !! "plan.json"
          = Some f).
Proof.
  apply (exporters_frame (Some []) "plan.json" ∅ (inr tt)
           (<[("plan.json" : string) := JsonFile "[]"]> ∅)).
  left. reflexivity.
Defined.

Lemma least_unique (P : Z → Prop) m m' : least P m → least P m' → m = m'.
Proof. intros [H1 H2] [H1' H2']. pose proof (H2 _ H1'). pose proof (H2' _ H1). lia. Qed.

Lemma greatest_unique (P : Z → Prop) m m' :
  greatest P m → greatest P m' → m = m'.
Proof. intros [H1 H2] [H1' H2']. pose proof (H2 _ H1'). pose proof (H2' _ H1). lia. Qed.

(** X7.  For a non-empty array of segments whose coordinates and extents
    are numbers of an SVG Tiny drawing, the SVG drawing holds one line
    element per segment, in order and at the segment's own coordinates, and
    both endpoints of every segment lie inside the viewBox. *)
Theorem svg_elements_inside_viewbox (ls : list segment) (filename : string)
    (fs : fsys) :
  ls ≠ [] →
  svg_tiny ls →
  ∃ dwg minx miny width height,
    export_as_svg (Some ls) filename fs
    = (inr tt, <[filename := SvgFile dwg]> fs)
    ∧ svg_viewbox dwg = (minx, miny, width, height)
    ∧ svg_elements dwg
      = map (λ s, {| sl_start := (float (x1 s), float (y1 s));
                     sl_end := (float (x2 s), float (y2 s));
                     sl_stroke := "rgb(0%,0%,0%)" |}) ls
    ∧ ∀ s, s ∈ ls →
        minx ≤ x1 s ≤ minx + width ∧ minx ≤ x2 s ≤ minx + width
        ∧ miny ≤ y1 s ≤ miny + height ∧ miny ≤ y2 s ≤ miny + height.
Proof.
  intros Hne Htiny.
  destruct (export_as_svg_cases ls filename fs Hne)
    as (xmin & xmax & ymin & ymax & Hxmin & Hxmax & Hymin & Hymax
        & [[_ Hrun] | [Hnot _]]); [|done].
  eexists _, xmin, ymin, (xmax - xmin), (ymax - ymin).
  split; [exact Hrun|]. cbn [svg_viewbox svg_elements].
  split; [done|]. split; [done|].
  intros s Hs.
  assert (Hx1 : endpoint_x ls (x1 s)) by (exists s; auto).
  assert (Hx2 : endpoint_x ls (x2 s)) by (exists s; auto).
  assert (Hy1 : endpoint_y ls (y1 s)) by (exists s; auto).
  assert (Hy2 : endpoint_y ls (y2 s)) by (exists s; auto).
  pose proof (proj2 Hxmin _ Hx1). pose proof (proj2 Hxmax _ Hx1).
  pose proof (proj2 Hxmin _ Hx2). pose proof (proj2 Hxmax _ Hx2).
  pose proof (proj2 Hymin _ Hy1). pose proof (proj2 Hymax _ Hy1).
  pose proof (proj2 Hymin _ Hy2). pose proof (proj2 Hymax _ Hy2).
  lia.
Qed.

Lemma svg_elements_inside_viewbox_witness :
  ∃ dwg minx miny width height,
    export_as_svg (Some [Segment 3 40 25 7; Segment 10 12 90 12]) "plan.svg" ∅
    = (inr tt, <[("plan.svg" : string) := SvgFile dwg]> ∅)
    ∧ svg_viewbox dwg = (minx, miny, width, height)
    ∧ svg_elements dwg
      = map (λ s, {| sl_start := (float (x1 s), float (y1 s));
                     sl_end := (float (x2 s), float (y2 s));
                     sl_stroke := "rgb(0%,0%,0%)" |})
          [Segment 3 40 25 7; Segment 10 12 90 12]
    ∧ ∀ s, s ∈ [Segment 3 40 25 7; Segment 10 12 90 12] →
        minx ≤ x1 s ≤ minx + width ∧ minx ≤ x2 s ≤ minx + width
        ∧ miny ≤ y1 s ≤ miny + height ∧ miny ≤ y2 s ≤ miny + height.
Proof.
  apply (svg_elements_inside_viewbox
           [Segment 3 40 25 7; Segment 10 12 90 12] "plan.svg" ∅).
  - discriminate.
  - apply svg_tiny_demo.
Defined.

(** Whether the numbers of an array fit an SVG Tiny drawing depends on the
    endpoint coordinates only. *)
Lemma svg_tiny_coordinates (ls : list segment) :
  svg_tiny ls
  ↔ (∀ x, endpoint_x ls x → tiny x) ∧ (∀ y, endpoint_y ls y → tiny y)
    ∧ (∀ a b, endpoint_x ls a → endpoint_x ls b → b - a ≤ 32767)
    ∧ (∀ a b, endpoint_y ls a → endpoint_y ls b → b - a ≤ 32767).
Proof.
  unfold svg_tiny. rewrite Forall_forall. split.
  - intros (Hall & Hx & Hy). split; [|split; [|done]].
    + intros x (s & Hs & Hx'). destruct (Hall s Hs) as (? & ? & ? & ?).
      by destruct Hx' as [-> | ->].
    + intros y (s & Hs & Hy'). destruct (Hall s Hs) as (? & ? & ? & ?).
      by destruct Hy' as [-> | ->].
  - intros (Hcx & Hcy & Hx & Hy). split; [|done].
    intros s Hs. unfold tiny_coords.
    split; [apply Hcx; exists s; auto|].
    split; [apply Hcy; exists s; auto|].
    split; [apply Hcx; exists s; auto|apply Hcy; exists s; auto].
Qed.

(** X8.  What the SVG exporter does depends on the segments only through
    the set of endpoint coordinates: two non-empty arrays with the same x
    coordinates and the same y coordinates among their endpoints (for
    instance the same segments in another order, or with the two endpoints
    of a segment exchanged) are both written, with the same viewBox and
    size, when these coordinates and their extents are numbers of an SVG
    Tiny drawing, and are both refused with [TypeError] otherwise. *)
Theorem svg_viewbox_order_independent (ls ls' : list segment)
    (filename : string) (fs : fsys) :
  ls ≠ [] → ls' ≠ [] →
  (∀ x, endpoint_x ls x ↔ endpoint_x ls' x) →
  (∀ y, endpoint_y ls y ↔ endpoint_y ls' y) →
  (svg_tiny ls →
   ∃ dwg dwg',
     export_as_svg (Some ls) filename fs
     = (inr tt, <[filename := SvgFile dwg]> fs)
     ∧ export_as_svg (Some ls') filename fs
       = (inr tt, <[filename := SvgFile dwg']> fs)
     ∧ svg_viewbox dwg = svg_viewbox dwg'
     ∧ svg_size dwg = svg_size dwg')
  ∧ (¬ svg_tiny ls →
     export_as_svg (Some ls) filename fs = (inl TypeError, fs)
     ∧ export_as_svg (Some ls') filename fs = (inl TypeError, fs)).
Proof.
  intros Hne Hne' Hx Hy.
  assert (Hiff : svg_tiny ls ↔ svg_tiny ls').
  { rewrite !svg_tiny_coordinates. split.
    - intros (Hcx & Hcy & Hex & Hey). split; [|split; [|split]].
      + intros x Hx'. by apply Hcx, Hx.
      + intros y Hy'. by apply Hcy, Hy.
      + intros a b Ha Hb. apply Hex; by apply Hx.
      + intros a b Ha Hb. apply Hey; by apply Hy.
    - intros (Hcx & Hcy & Hex & Hey). split; [|split; [|split]].
      + intros x Hx'. by apply Hcx, Hx.
      + intros y Hy'. by apply Hcy, Hy.
      + intros a b Ha Hb. apply Hex; by apply Hx.
      + intros a b Ha Hb. apply Hey; by apply Hy. }
  destruct (export_as_svg_cases ls filename fs Hne)
    as (xmin & xmax & ymin & ymax & Hxmin & Hxmax & Hymin & Hymax & Hrun).
  destruct (export_as_svg_cases ls' filename fs Hne')
    as (xmin' & xmax' & ymin' & ymax' & Hxmin' & Hxmax' & Hymin' & Hymax' & Hrun').
  assert (xmin = xmin') as <-.
  { apply (least_unique (endpoint_x ls)); [done|].
    destruct Hxmin' as [H1 H2]. split; [by apply Hx|]. intros x Hx'. by apply H2, Hx. }
  assert (xmax = xmax') as <-.
  { apply (greatest_unique (endpoint_x ls)); [done|].
    destruct Hxmax' as [H1 H2]. split; [by apply Hx|]. intros x Hx'. by apply H2, Hx. }
  assert (ymin = ymin') as <-.
  { apply (least_unique (endpoint_y ls)); [done|].
    destruct Hymin' as [H1 H2]. split; [by apply Hy|]. intros y Hy'. by apply H2, Hy. }
  assert (ymax = ymax') as <-.
  { apply (greatest_unique (endpoint_y ls)); [done|].
    destruct Hymax' as [H1 H2]. split; [by apply Hy|]. intros y Hy'. by apply H2, Hy. }
  destruct Hrun as [[Ht Hrun] | [Ht Hrun]];
    destruct Hrun' as [[Ht' Hrun'] | [Ht' Hrun']];
    try (exfalso; apply Hiff in Ht; by apply Ht');
    try (exfalso; apply Hiff in Ht'; by apply Ht).
  - split; [|done]. intros _. eexists _, _. split; [exact Hrun|].
    split; [exact Hrun'|]. done.
  - split; [done|]. by intros _.
Qed.

Lemma svg_viewbox_order_independent_witness :
  ∃ dwg dwg',
    export_as_svg (Some [Segment 3 40 25 7; Segment 10 12 90 12]) "plan.svg" ∅
    = (inr tt, <[("plan.svg" : string) := SvgFile dwg]> ∅)
    ∧ export_as_svg (Some [Segment 90 12 10 12; Segment 3 40 25 7]) "plan.svg" ∅
      = (inr tt, <[("plan.svg" : string) := SvgFile dwg']> ∅)
    ∧ svg_viewbox dwg = svg_viewbox dwg'
    ∧ svg_size dwg = svg_size dwg'.
Proof.
  apply (svg_viewbox_order_independent
           [Segment 3 40 25 7; Segment 10 12 90 12]
           [Segment 90 12 10 12; Segment 3 40 25 7] "plan.svg" ∅).
  - discriminate.
  - discriminate.
  - intros x. unfold endpoint_x. split; intros (s & Hs & Hx);
      rewrite !elem_of_cons, elem_of_nil in Hs;
      destruct Hs as [-> | [-> | []]]; simpl in Hx.
    + exists (Segment 3 40 25 7). split; [|done]. rewrite !elem_of_cons. auto.
    + exists (Segment 90 12 10 12). split; [|simpl; tauto]. rewrite !elem_of_cons. auto.
    + exists (Segment 10 12 90 12). split; [|simpl; tauto]. rewrite !elem_of_cons. auto.
    + exists (Segment 3 40 25 7). split; [|done]. rewrite !elem_of_cons. auto.
  - intros y. unfold endpoint_y. split; intros (s & Hs & Hy);
      rewrite !elem_of_cons, elem_of_nil in Hs;
      destruct Hs as [-> | [-> | []]]; simpl in Hy.
    + exists (Segment 3 40 25 7). split; [|done]. rewrite !elem_of_cons. auto.
    + exists (Segment 90 12 10 12). split; [|simpl; tauto]. rewrite !elem_of_cons. auto.
    + exists (Segment 10 12 90 12). split; [|simpl; tauto]. rewrite !elem_of_cons. auto.
    + exists (Segment 3 40 25 7). split; [|done]. rewrite !elem_of_cons. auto.
  - apply svg_tiny_demo.
Defined.

(** X9.  The JSON exporter loses nothing: two arrays of segments that are
    written as the same file are the same array. *)
Theorem json_export_injective (ls ls' : list segment) (filename : string)
    (fs : fsys) :
  export_as_json (Some ls) filename fs = export_as_json (Some ls') filename fs →
  ls = ls'.
Proof.
  intros H.
  assert (Ht : json.dumps (line_data ls) = json.dumps (line_data ls')).
  { unfold export_as_json, ebind, subscript, eret, save in H.
    injection H as H.
    assert (Hl : (<[filename := JsonFile (json.dumps (line_data ls))]> fs)
                   !! filename
                 = (<[filename := JsonFile (json.dumps (line_data ls'))]> fs)
                     !! filename) by by rewrite H.
    rewrite !lookup_insert_eq in Hl. by injection Hl. }
  assert (Hv : json.listify (line_data ls) = json.listify (line_data ls')).
  { apply (f_equal json.loads) in Ht.
    rewrite !loads_dumps in Ht by apply line_data_plain. congruence. }
  rewrite !line_data_listify in Hv. injection Hv as Hv.
  clear -Hv. revert ls' Hv.
  induction ls as [|s ls IH]; intros [|s' ls'] Hv; try done.
  simpl in Hv. injection Hv as H1 H2 H3 H4 Hrest.
  f_equal; [|by apply IH].
  destruct s, s'. simpl in *. congruence.
Qed.

Lemma json_export_injective_witness : [Segment 1 2 3 4] = [Segment 1 2 3 4].
Proof.
  apply (json_export_injective [Segment 1 2 3 4] [Segment 1 2 3 4] "plan.json" ∅).
  reflexivity.
Defined.

(** * Strings and paths *)

Lemma append_cons (c : ascii) (a b : string) :
  (String c a ++ b)%string = String c (a ++ b).
Proof. reflexivity. Qed.

Lemma append_nil (b : string) : ("" ++ b)%string = b.
Proof. reflexivity. Qed.

Ltac str_simpl := rewrite ?append_cons, ?append_nil.

Lemma endswith_refl (s : string) : pystr.endswith s s = true.
Proof. destruct s; cbn [pystr.endswith]; by rewrite String.eqb_refl. Qed.

Lemma endswith_app (a e : string) : pystr.endswith (a ++ e) e = true.
Proof.
  induction a as [|c a IH].
  - apply endswith_refl.
  - str_simpl. cbn [pystr.endswith]. rewrite IH. apply orb_true_r.
Qed.

Lemma endswith_spec (s e : string) :
  pystr.endswith s e = true ↔ ∃ a, s = (a ++ e)%string.
Proof.
  split.
  - induction s as [|c s IH]; cbn [pystr.endswith].
    + rewrite orb_false_r. intros H%String.eqb_eq. by exists ""%string.
    + intros [H%String.eqb_eq | H]%orb_true_iff.
      * by exists ""%string.
      * destruct (IH H) as [a ->]. by exists (String c a).
  - intros [a ->]. apply endswith_app.
Qed.

Lemma string_app_assoc (a b c : string) :
  ((a ++ b) ++ c = a ++ (b ++ c))%string.
Proof. induction a as [|x a IH]; str_simpl; [done|]. by f_equal. Qed.

Lemma join_suffix (d f : string) : ∃ a, os_path.join d f = (a ++ f)%string.
Proof.
  unfold os_path.join.
  destruct (match f with String c _ => Ascii.eqb c "/" | EmptyString => false end).
  - by exists ""%string.
  - destruct (String.eqb d "" || pystr.endswith d "/").
    + by exists d.
    + exists (d ++ "/")%string. by rewrite string_app_assoc.
Qed.

Lemma endswith_join (d f e : string) :
  pystr.endswith f e = true → pystr.endswith (os_path.join d f) e = true.
Proof.
  intros [a ->]%endswith_spec. destruct (join_suffix d (a ++ e)) as [b ->].
  rewrite <- string_app_assoc. apply endswith_app.
Qed.

Lemma contains_app (c : ascii) (a b : string) :
  pystr.contains c (a ++ b) = pystr.contains c a || pystr.contains c b.
Proof.
  induction a as [|x a IH]; str_simpl; simpl; [done|]. by rewrite IH, orb_assoc.
Qed.

Lemma basename_no_sep (f : string) :
  pystr.contains "/" f = false → os_path.basename f = f.
Proof.
  destruct f as [|c f]; simpl; [done|].
  intros [Hc Hf]%orb_false_iff. by rewrite Hf, Hc.
Qed.

Lemma basename_app_sep (d f : string) :
  pystr.contains "/" f = false → os_path.basename (d ++ "/" ++ f) = f.
Proof.
  intros Hf. induction d as [|c d IH]; str_simpl; simpl.
  - by rewrite Hf.
  - rewrite contains_app. simpl. by rewrite orb_true_r.
Qed.

Lemma endswith_sep (d : string) :
  pystr.endswith d "/" = true → ∃ d', d = (d' ++ "/")%string.
Proof. apply endswith_spec. Qed.

Lemma basename_join (dir f : string) :
  pystr.contains "/" f = false →
  os_path.basename (os_path.join dir f) = f.
Proof.
  intros Hf. unfold os_path.join.
  destruct f as [|c f'] eqn:Ef.
  - destruct (String.eqb dir "" || pystr.endswith dir "/") eqn:E.
    + apply orb_true_iff in E as [E%String.eqb_eq | E].
      * by subst.
      * apply endswith_sep in E as [d' ->].
        rewrite string_app_assoc. by apply basename_app_sep.
    + by apply basename_app_sep.
  - rewrite <- Ef in *.
    assert (Hc : Ascii.eqb c "/" = false).
    { subst f. simpl in Hf. by apply orb_false_iff in Hf as [? _]. }
    rewrite Ef at 1. rewrite Hc.
    destruct (String.eqb dir "" || pystr.endswith dir "/") eqn:E.
    + apply orb_true_iff in E as [E%String.eqb_eq | E].
      * subst dir. simpl. by apply basename_no_sep.
      * apply endswith_sep in E as [d' ->].
        rewrite string_app_assoc. by apply basename_app_sep.
    + by apply basename_app_sep.
Qed.

Lemma split_first_no_sep (sep : ascii) (s : string) :
  pystr.contains sep (pystr.split_first sep s) = false.
Proof.
  induction s as [|c s IH]; simpl; [done|].
  destruct (Ascii.eqb c sep) eqn:E; simpl; [done|]. by rewrite E, IH.
Qed.

(** X10.  [os.path.basename] undoes [os.path.join] on a file name without
    separator, as [os.listdir] returns them; so the name under which an
    image is written is the listed name up to its first dot, whatever the
    image directory, and it contains no dot. *)
Theorem image_name_of_listed_file (dir f : string) :
  pystr.contains "/" f = false →
  os_path.basename (os_path.join dir f) = f
  ∧ image_name (os_path.join dir f) = pystr.split_first "." f
  ∧ pystr.contains "." (image_name (os_path.join dir f)) = false.
Proof.
  intros Hf. split; [by apply basename_join|].
  unfold image_name. rewrite basename_join by done.
  split; [done|apply split_first_no_sep].
Qed.

Lemma image_name_of_listed_file_witness :
  os_path.basename (os_path.join "maps" "hall.v2.pgm") = "hall.v2.pgm"
  ∧ image_name (os_path.join "maps" "hall.v2.pgm")
    = pystr.split_first "." "hall.v2.pgm"
  ∧ pystr.contains "." (image_name (os_path.join "maps" "hall.v2.pgm")) = false.
Proof.
  apply (image_name_of_listed_file "maps" "hall.v2.pgm"). reflexivity.
Defined.

Lemma split_first_stem (sep : ascii) (stem rest : string) :
  pystr.contains sep stem = false →
  pystr.split_first sep (stem ++ String sep rest) = stem.
Proof.
  induction stem as [|c stem IH]; str_simpl; simpl.
  - by rewrite Ascii.eqb_refl.
  - intros [Hc Hs]%orb_false_iff. by rewrite Hc, IH.
Qed.

(** X11.  Two images whose file names agree up to the first dot are written
    to the same raster file: the output path keeps only the part of the
    name before its first dot. *)
Theorem image_names_collide (dir stem rest1 rest2 : string) :
  pystr.contains "/" stem = false →
  pystr.contains "." stem = false →
  pystr.contains "/" rest1 = false →
  pystr.contains "/" rest2 = false →
  image_name (os_path.join dir (stem ++ "." ++ rest1)) = stem
  ∧ image_name (os_path.join dir (stem ++ "." ++ rest2)) = stem.
Proof.
  intros Hs Hd H1 H2.
  assert (Hn : ∀ rest, pystr.contains "/" rest = false →
               image_name (os_path.join dir (stem ++ "." ++ rest)) = stem).
  { intros rest Hr. unfold image_name. rewrite basename_join.
    - by apply split_first_stem.
    - rewrite contains_app. str_simpl. simpl. by rewrite Hs, Hr. }
  split; by apply Hn.
Qed.

Lemma image_names_collide_witness :
  image_name (os_path.join "maps" ("floor" ++ "." ++ "1.pgm")) = "floor"
  ∧ image_name (os_path.join "maps" ("floor" ++ "." ++ "2.pgm")) = "floor".
Proof.
  apply (image_names_collide "maps" "floor" "1.pgm" "2.pgm"); reflexivity.
Defined.

(** * The loaders of utils.py *)

Section Loaders.

Variable exists0 : string → bool.
Variable imread : string → option raster.
Variable safe_load : string → yaml_read.

Lemma path_exists_heap (w : world) (h : heap) (p : string) :
  path_exists exists0 (World h (w_out w) (w_dirs w)) p = path_exists exists0 w p.
Proof. reflexivity. Qed.

Lemma has_extension (p : string) (exts : list string) :
  existsb (λ ext, pystr.endswith p ext) exts = true
  ↔ ∃ ext stem, ext ∈ exts ∧ p = (stem ++ ext)%string.
Proof.
  rewrite existsb_exists. split.
  - intros (ext & Hin & [stem ->]%endswith_spec).
    exists ext, stem. by rewrite list_elem_of_In.
  - intros (ext & stem & Hin & ->). exists ext.
    rewrite <- list_elem_of_In. split; [done|apply endswith_app].
Qed.

Lemma validate_file_path_cases (exts : list string) (p : string) (w : world) :
  validate_file_path exists0 p exts w = Done tt w
  ∨ validate_file_path exists0 p exts w = Raise (ExValue (FileNotFound p)) w
  ∨ validate_file_path exists0 p exts w
    = Raise (ExValue (InvalidFormat p exts)) w.
Proof.
  unfold validate_file_path.
  destruct (path_exists exists0 w p); destruct (existsb _ exts); simpl; auto.
Qed.

(** X12.  [validate_file_path] accepts a path exactly when it exists and is
    some text followed by one of the valid extensions.  A path that does
    not exist is reported as not found whatever its extension, and in every
    case nothing is changed. *)
Theorem validate_file_path_outcomes (file_path : string)
    (valid_extensions : list string) (w : world) :
  (validate_file_path exists0 file_path valid_extensions w = Done tt w
   ↔ path_exists exists0 w file_path = true
     ∧ ∃ ext stem, ext ∈ valid_extensions ∧ file_path = (stem ++ ext)%string)
  ∧ (path_exists exists0 w file_path = false →
     validate_file_path exists0 file_path valid_extensions w
     = Raise (ExValue (FileNotFound file_path)) w)
  ∧ (validate_file_path exists0 file_path valid_extensions w = Done tt w
     ∨ validate_file_path exists0 file_path valid_extensions w
       = Raise (ExValue (FileNotFound file_path)) w
     ∨ validate_file_path exists0 file_path valid_extensions w
       = Raise (ExValue (InvalidFormat file_path valid_extensions)) w).
Proof.
  unfold validate_file_path. rewrite <- has_extension.
  destruct (path_exists exists0 w file_path);
    destruct (existsb _ valid_extensions); simpl;
    repeat split; auto; try done; intros []; done.
Qed.

Lemma validate_ok (p : string) (exts : list string) (w : world) :
  path_exists exists0 w p = true →
  existsb (λ ext, pystr.endswith p ext) exts = true →
  validate_file_path exists0 p exts w = Done tt w.
Proof. intros He Hx. unfold validate_file_path. by rewrite He, Hx. Qed.

(** X13.  [load_image] checks in this order: the path exists, its name ends
    in [.pgm], [cv2.imread] decodes it.  A file of another extension is
    rejected without being read, and a loaded image is a new array: every
    array already in memory is unchanged and no file is written. *)
Theorem load_image_outcomes (image_path : string) (w : world) :
  (path_exists exists0 w image_path = false →
   load_image exists0 imread image_path w
   = Raise (ExValue (FileNotFound image_path)) w)
  ∧ (path_exists exists0 w image_path = true →
     pystr.endswith image_path ".pgm" = false →
     load_image exists0 imread image_path w
     = Raise (ExValue (InvalidFormat image_path [".pgm"])) w)
  ∧ (path_exists exists0 w image_path = true →
     pystr.endswith image_path ".pgm" = true →
     imread image_path = None →
     load_image exists0 imread image_path w
     = Raise (ExValue (FailedToLoad image_path)) w)
  ∧ (∀ image,
       path_exists exists0 w image_path = true →
       pystr.endswith image_path ".pgm" = true →
       imread image_path = Some image →
       ∃ l,
         load_image exists0 imread image_path w
         = Done l (World (<[l := image]> (w_heap w)) (w_out w) (w_dirs w))
         ∧ w_heap w !! l = None).
Proof.
  unfold load_image, rbind, validate_file_path. simpl.
  repeat split.
  - by intros ->.
  - intros -> ->. done.
  - intros -> -> ->. done.
  - intros image -> -> ->. simpl. eexists. split; [reflexivity|apply fresh_loc].
Qed.

Lemma load_image_run (p : string) (w : world) :
  loadable exists0 imread w p →
  ∃ l a,
    imread p = Some a
    ∧ w_heap w !! l = None
    ∧ load_image exists0 imread p w
      = Done l (World (<[l := a]> (w_heap w)) (w_out w) (w_dirs w)).
Proof.
  intros (He & Hx & [a Ha]).
  exists (fresh (dom (w_heap w))), a.
  split; [done|]. split; [apply fresh_loc|].
  unfold load_image, rbind. rewrite validate_ok; [|done|simpl; by rewrite Hx].
  by rewrite Ha.
Qed.

Lemma load_image_fails (p : string) (w : world) :
  ¬ loadable exists0 imread w p →
  ∃ r,
    load_image exists0 imread p w = Raise (ExValue r) w
    ∧ (r = FileNotFound p
       ∨ (r = InvalidFormat p [".pgm"] ∧ pystr.endswith p ".pgm" = false)
       ∨ r = FailedToLoad p).
Proof.
  intros Hbad. unfold load_image, rbind, validate_file_path. simpl.
  destruct (path_exists exists0 w p) eqn:He; simpl.
  - destruct (pystr.endswith p ".pgm") eqn:Hx; simpl.
    + destruct (imread p) as [a|] eqn:Ha.
      * exfalso. apply Hbad. by repeat split.
      * eexists. split; [reflexivity|]. by right; right.
    + eexists. split; [reflexivity|]. right. by left.
  - eexists. split; [reflexivity|]. by left.
Qed.

Lemma preserved_trans (h1 h2 h3 : heap) :
  preserved h1 h2 → preserved h2 h3 → preserved h1 h3.
Proof. intros H12 H23 l a Hl. by apply H23, H12. Qed.

Lemma load_images_run (paths : list string) : ∀ w,
  Forall (loadable exists0 imread w) paths →
  ∃ ls h',
    load_images exists0 imread paths w
    = Done ls (World h' (w_out w) (w_dirs w))
    ∧ length ls = length paths
    ∧ preserved (w_heap w) h'
    ∧ NoDup ls
    ∧ (∀ l, l ∈ ls → w_heap w !! l = None)
    ∧ ∀ i p, paths !! i = Some p →
        ∃ l a, ls !! i = Some l ∧ imread p = Some a ∧ h' !! l = Some a.
Proof.
  induction paths as [|p paths IH]; intros w Hall.
  - exists [], (w_heap w). destruct w. simpl.
    split; [done|]. split; [done|]. split; [apply preserved_refl|].
    split; [apply NoDup_nil_2|].
    split; [intros l Hl; by apply elem_of_nil in Hl|done].
  - apply Forall_cons in Hall as [Hp Hall].
    destruct (load_image_run p w Hp) as (l & a & Ha & Hl & Hrun).
    set (w1 := World (<[l := a]> (w_heap w)) (w_out w) (w_dirs w)).
    destruct (IH w1) as (ls & h' & Hrest & Hlen & Hpres & Hnd & Hfresh & Hidx).
    { eapply Forall_impl; [exact Hall|]. intros q Hq. exact Hq. }
    exists (l :: ls), h'.
    cbn [load_images]. unfold rbind at 1. rewrite Hrun. fold w1.
    unfold rbind at 1. rewrite Hrest. unfold rret. simpl.
    assert (Hp1 : preserved (w_heap w) (<[l := a]> (w_heap w))).
    { apply preserved_insert_fresh; [done|apply preserved_refl]. }
    split; [done|]. split; [by rewrite Hlen|].
    split; [by apply (preserved_trans _ _ _ Hp1)|].
    split; [|split].
    + apply NoDup_cons. split; [|done].
      intros Hin. apply Hfresh in Hin. simpl in Hin.
      by rewrite lookup_insert_eq in Hin.
    + intros l' [-> | Hin]%elem_of_cons; [done|].
      apply Hfresh in Hin. simpl in Hin.
      by apply lookup_insert_None in Hin as [? _].
    + intros [|i] q Hq; simpl in Hq.
      * injection Hq as <-. exists l, a. repeat split; try done.
        apply Hpres. simpl. apply lookup_insert_eq.
      * by apply Hidx.
Qed.

(** X14.  When every path exists, ends in [.pgm] and decodes, and the YAML
    file exists, ends in [.yaml] and parses, [load_image_and_metadata]
    returns the parsed dictionary and one array per path, in the order of
    the paths; the arrays are new and pairwise distinct, those already in
    memory are unchanged, and no file is written. *)
Theorem load_image_and_metadata_success (paths : list string) (yaml : string)
    (d : gmap string yvalue) (w : world) :
  Forall (loadable exists0 imread w) paths →
  path_exists exists0 w yaml = true →
  pystr.endswith yaml ".yaml" = true →
  safe_load yaml = YDoc d →
  ∃ images h',
    load_image_and_metadata exists0 imread safe_load
      (AList (map AStr paths)) (AStr yaml) w
    = Done (images, d) (World h' (w_out w) (w_dirs w))
    ∧ length images = length paths
    ∧ NoDup images
    ∧ (∀ l, l ∈ images → w_heap w !! l = None)
    ∧ preserved (w_heap w) h'
    ∧ ∀ i p, paths !! i = Some p →
        ∃ l a, images !! i = Some l ∧ imread p = Some a ∧ h' !! l = Some a.
Proof.
  intros Hall He Hx Hd.
  destruct (load_images_run paths w Hall)
    as (ls & h' & Hrun & Hlen & Hpres & Hnd & Hfresh & Hidx).
  exists ls, h'. split; [|done].
  unfold load_image_and_metadata.
  assert (Hstr : list_of_str (AList (map AStr paths)) = Some paths).
  { simpl. clear. induction paths as [|p paths IH]; simpl; [done|].
    by rewrite IH. }
  rewrite Hstr. unfold rbind at 1. rewrite Hrun.
  unfold rbind at 1. unfold load_metadata, rbind.
  rewrite validate_ok; [|done|simpl; by rewrite Hx].
  by rewrite Hd.
Qed.

End Loaders.

Section FirstFailure.

Variable exists0 : string → bool.
Variable imread : string → option raster.
Variable safe_load : string → yaml_read.

Lemma load_images_first_failure (good : list string) (bad : string)
    (rest : list string) : ∀ w,
  Forall (loadable exists0 imread w) good →
  ¬ loadable exists0 imread w bad →
  ∃ r h',
    load_images exists0 imread (good ++ bad :: rest) w
    = Raise (ExValue r) (World h' (w_out w) (w_dirs w))
    ∧ (r = FileNotFound bad ∨ r = InvalidFormat bad [".pgm"]
       ∨ r = FailedToLoad bad)
    ∧ preserved (w_heap w) h'.
Proof.
  induction good as [|p good IH]; intros w Hgood Hbad.
  - cbn [app load_images]. unfold rbind at 1.
    destruct (load_image_fails exists0 imread bad w Hbad) as (r & Hrun & Hr).
    rewrite Hrun. destruct w. exists r. eexists.
    split; [reflexivity|]. split; [tauto|apply preserved_refl].
  - apply Forall_cons in Hgood as [Hp Hgood].
    destruct (load_image_run exists0 imread p w Hp) as (l & a & Ha & Hl & Hrun).
    set (w1 := World (<[l := a]> (w_heap w)) (w_out w) (w_dirs w)) in *.
    destruct (IH w1) as (r & h' & Hrest & Hr & Hpres); [done|done|].
    exists r, h'. cbn [app load_images]. unfold rbind at 1. rewrite Hrun.
    unfold rbind at 1. rewrite Hrest.
    split; [done|]. split; [done|].
    apply (preserved_trans _ (w_heap w1)); [|done].
    apply preserved_insert_fresh; [done|apply preserved_refl].
Qed.

(** X22.  [load_image_and_metadata] loads the images in order and stops at
    the first path that does not load, with the error of that path: not
    found, not a [.pgm] name, or not decoded.  The calibration file is read
    only after all images: here the outcome is the same whatever the YAML
    path holds.  No file is written, and the arrays that were in memory
    are unchanged. *)
Theorem load_stops_at_first_bad_image (good : list string) (bad : string)
    (rest : list string) (yaml : string) (w : world) :
  Forall (loadable exists0 imread w) good →
  ¬ loadable exists0 imread w bad →
  ∃ r w',
    load_image_and_metadata exists0 imread safe_load
      (AList (map AStr (good ++ bad :: rest))) (AStr yaml) w
    = Raise (ExValue r) w'
    ∧ (r = FileNotFound bad ∨ r = InvalidFormat bad [".pgm"]
       ∨ r = FailedToLoad bad)
    ∧ w_out w' = w_out w ∧ w_dirs w' = w_dirs w
    ∧ preserved (w_heap w) (w_heap w').
Proof.
  intros Hgood Hbad.
  destruct (load_images_first_failure good bad rest w Hgood Hbad)
    as (r & h' & Hrun & Hr & Hpres).
  exists r, (World h' (w_out w) (w_dirs w)).
  split; [|done].
  unfold load_image_and_metadata.
  assert (Hstr : list_of_str (AList (map AStr (good ++ bad :: rest)))
                 = Some (good ++ bad :: rest)).
  { simpl. generalize (good ++ bad :: rest). clear.
    induction l as [|p paths IH]; simpl; [done|]. by rewrite IH. }
  rewrite Hstr. unfold rbind at 1. by rewrite Hrun.
Qed.

End FirstFailure.

(** * The pipeline of main.py *)

Section Pipeline.

Variable listdir : string → option (list string).
Variable exists0 : string → bool.
Variable imread : string → option raster.
Variable safe_load : string → yaml_read.
Variable makedirs0 : string → option (gset string).
Variable writable : string → bool.
Variable Canny : raster → Z → Z → raster.
Variable HoughLinesP : raster → hough_args → lines_t.
Variable cv2_line : raster → Z * Z → Z * Z → Z → Z → raster.

Lemma lift_heap_run {A} (m : M A) (w : world) x h' :
  m (w_heap w) = Some (x, h') →
  lift_heap m w = Done x (World h' (w_out w) (w_dirs w)).
Proof. intros H. unfold lift_heap. by rewrite H. Qed.

Lemma detect_edges_run (h : heap) binary_image c :
  h !! binary_image = Some c →
  ∃ edges,
    detect_edges Canny binary_image None None h
    = Some (edges, <[edges := Canny c 100 200]> h)
    ∧ h !! edges = None.
Proof.
  intros Hc. unfold detect_edges, bind. rewrite (load_run h _ c Hc).
  eexists. split; [reflexivity|apply fresh_loc].
Qed.

Lemma detect_lines_run (h : heap) edges e (res : Q) :
  h !! edges = Some e →
  detect_lines HoughLinesP edges (Some (Dec res)) None None None None h
  = Some (HoughLinesP e {| rho := Dec res; theta := PiOver 900; threshold := 40;
                           minLineLength := 40; maxLineGap := 35 |}, h).
Proof. intros He. unfold detect_lines, bind. by rewrite (load_run h _ e He). Qed.

(** The four array stages of the loop body, run one after the other. *)
Lemma stages_run (h : heap) image a (occ fre : Q) (neg : bool) (res : Q) :
  h !! image = Some a →
  ∃ binary_image edges floor_plan h1 h2 h3,
    preprocess_image image occ fre neg h = Some (binary_image, h1)
    ∧ detect_edges Canny binary_image None None h1 = Some (edges, h2)
    ∧ detect_lines HoughLinesP edges (Some (Dec res)) None None None None h2
      = Some (lines_of Canny HoughLinesP occ fre neg res a, h2)
    ∧ draw_floor_plan cv2_line (lines_of Canny HoughLinesP occ fre neg res a)
        image h2 = Some (floor_plan, h3)
    ∧ h3 !! floor_plan
      = Some (plan_of cv2_line (lines_of Canny HoughLinesP occ fre neg res a) a)
    ∧ h !! floor_plan = None
    ∧ preserved h h1 ∧ preserved h h3.
Proof.
  intros Ha.
  destruct (preprocess_image_run h image a occ fre neg Ha)
    as (b & h1 & Hpre & Hb & Hb1 & Hp1).
  destruct (detect_edges_run h1 b _ Hb1) as (e & Hedges & He).
  set (h2 := <[e := Canny (classified occ fre neg a) 100 200]> h1) in *.
  assert (Hp2 : preserved h1 h2)
    by (apply preserved_insert_fresh; [done|apply preserved_refl]).
  assert (Ha2 : h2 !! image = Some a) by by apply Hp2, Hp1.
  destruct (draw_floor_plan_run cv2_line
              (lines_of Canny HoughLinesP occ fre neg res a) h2 image a Ha2)
    as (fp & h3 & Hdraw & Hfp & Hfp3 & Hp3).
  exists b, e, fp, h1, h2, h3.
  split; [done|]. split; [done|].
  split; [apply detect_lines_run, lookup_insert_eq|].
  split; [done|]. split; [done|].
  split.
  - destruct (h !! fp) as [x|] eqn:E; [|done].
    apply Hp1, Hp2 in E. congruence.
  - split; [done|]. by apply (preserved_trans h h1 h3), (preserved_trans h1 h2 h3).
Qed.

(** The loop body up to the vector export. *)
Lemma main_body_run (args : args_t) (paths : list string)
    (d : gmap string yvalue) (i : nat) (image : loc) (w : world)
    a occ fre neg res p :
  w_heap w !! image = Some a →
  d !! "occupied_thresh" = Some occ →
  d !! "free_thresh" = Some fre →
  d !! "negate" = Some neg →
  d !! "resolution" = Some res →
  paths !! i = Some p →
  let lines := lines_of Canny HoughLinesP (number occ) (number fre)
                 (truthy neg) (number res) a in
  ∃ h',
    preserved (w_heap w) h'
    ∧ main_body exists0 makedirs0 writable Canny HoughLinesP cv2_line args
        paths d i image w
      = match output_dirs exists0 makedirs0 args w with
        | Some dirs =>
            export_vector args lines (image_name p)
              (World h'
                 (raster_written writable (raster_path args p)
                    (plan_of cv2_line lines a) (w_out w))
                 dirs)
        | None => Raise ExOS (World h' (w_out w) (w_dirs w))
        end.
Proof.
  intros Ha Hocc Hfre Hneg Hres Hp lines.
  destruct (stages_run (w_heap w) image a (number occ) (number fre)
              (truthy neg) (number res) Ha)
    as (b & e & fp & h1 & h2 & h3 & Hpre & Hedges & Hlines & Hdraw & Hfp & _ & _ & Hp3).
  exists h3. split; [done|].
  unfold main_body, getitem. rewrite Hocc, Hfre, Hneg, Hres.
  unfold rbind at 1. unfold rret at 1.
  unfold rbind at 1. unfold rret at 1.
  unfold rbind at 1. unfold rret at 1.
  unfold rbind at 1. rewrite (lift_heap_run _ w _ _ Hpre).
  unfold rbind at 1. erewrite lift_heap_run by exact Hedges.
  unfold rbind at 1. unfold rret at 1.
  unfold rbind at 1. erewrite lift_heap_run by exact Hlines.
  unfold rbind at 1. erewrite lift_heap_run by exact Hdraw.
  cbn [w_out w_dirs w_heap].
  unfold rbind at 1. rewrite path_exists_heap.
  unfold index. rewrite Hp. unfold output_dirs, raster_written, raster_path.
  destruct (path_exists exists0 w (output_dir args)) eqn:Hex.
  - unfold rret at 1. unfold rbind at 1. unfold rret at 1.
    unfold rbind at 1. unfold imwrite. cbn [w_out w_dirs w_heap].
    rewrite Hfp. by destruct (writable _).
  - unfold makedirs.
    destruct (makedirs0 (output_dir args)) as [parents|]; cbn [fmap option_fmap option_map]; [|done].
    unfold rbind at 1. unfold rret at 1.
    unfold rbind at 1. unfold imwrite. cbn [w_out w_dirs w_heap].
    rewrite Hfp. by destruct (writable _).
Qed.

(** X15.  One image through the array stages of the pipeline: the lines are
    those [cv2.HoughLinesP] finds, with [rho] set to the calibration's
    resolution, on the edges [cv2.Canny] finds with thresholds 100 and 200
    in the classified image; the floor plan is a new array holding the
    strokes of these lines on a zero canvas of the image's shape; every
    array that existed before, the image among them, is unchanged. *)
Theorem pipeline_stages (m : metadata) (h : heap) img a :
  h !! img = Some a →
  let lines := lines_of Canny HoughLinesP (occupied_thresh m) (free_thresh m)
                 (negate m) (resolution m) a in
  ∃ floor_plan h',
    process_image Canny HoughLinesP cv2_line img m h
    = Some ((floor_plan, lines), h')
    ∧ h' !! floor_plan = Some (plan_of cv2_line lines a)
    ∧ h !! floor_plan = None
    ∧ preserved h h'.
Proof.
  intros Ha lines.
  destruct (stages_run h img a (occupied_thresh m) (free_thresh m)
              (negate m) (resolution m) Ha)
    as (b & e & fp & h1 & h2 & h3 & Hpre & Hedges & Hlines & Hdraw & Hfp & Hfresh & _ & Hp3).
  exists fp, h3. split; [|done].
  unfold process_image.
  unfold bind at 1. rewrite Hpre.
  unfold bind at 1. rewrite Hedges.
  unfold bind at 1. rewrite Hlines.
  unfold bind at 1. by rewrite Hdraw.
Qed.

Lemma main_start (args : args_t) (names : list string)
    (d : gmap string yvalue) (w : world) :
  listdir (image_dir args) = Some names →
  Forall (loadable exists0 imread w) (pgm_paths (image_dir args) names) →
  path_exists exists0 w (yaml_path args) = true →
  pystr.endswith (yaml_path args) ".yaml" = true →
  safe_load (yaml_path args) = YDoc d →
  ∃ images h',
    main listdir exists0 imread safe_load makedirs0 writable Canny HoughLinesP
      cv2_line args w
    = main_loop exists0 makedirs0 writable Canny HoughLinesP cv2_line args
        (pgm_paths (image_dir args) names) d 0 images
        (World h' (w_out w) (w_dirs w))
    ∧ length images = length (pgm_paths (image_dir args) names)
    ∧ NoDup images
    ∧ preserved (w_heap w) h'
    ∧ ∀ i p, pgm_paths (image_dir args) names !! i = Some p →
        ∃ l a, images !! i = Some l ∧ imread p = Some a ∧ h' !! l = Some a.
Proof.
  intros Hdir Hall He Hx Hd.
  destruct (load_images_run exists0 imread _ w Hall)
    as (images & h' & Hload & Hlen & Hpres & Hnd & _ & Hidx).
  exists images, h'. split; [|done].
  unfold main. rewrite Hdir. cbv zeta. unfold load_image_and_metadata.
  assert (Hstr : ∀ paths, list_of_str (AList (map AStr paths)) = Some paths).
  { intros paths. simpl. induction paths as [|p paths IH]; simpl; [done|].
    by rewrite IH. }
  rewrite Hstr. unfold load_metadata, rbind. rewrite Hload.
  rewrite validate_ok; [|done|simpl; by rewrite Hx].
  by rewrite Hd.
Qed.

(** X16.  When the image directory holds no file whose name ends in [.pgm],
    the run ends normally once the calibration file has been read: nothing
    is written, no directory is created, and no key of the calibration is
    looked up (the dictionary may lack all of them). *)
Theorem main_without_images (args : args_t) (names : list string)
    (d : gmap string yvalue) (w : world) :
  listdir (image_dir args) = Some names →
  Forall (λ f, pystr.endswith f ".pgm" = false) names →
  path_exists exists0 w (yaml_path args) = true →
  pystr.endswith (yaml_path args) ".yaml" = true →
  safe_load (yaml_path args) = YDoc d →
  main listdir exists0 imread safe_load makedirs0 writable Canny HoughLinesP
      cv2_line args w
  = Done tt w.
Proof.
  intros Hdir Hnone He Hx Hd.
  assert (Hp : pgm_paths (image_dir args) names = []).
  { unfold pgm_paths. clear -Hnone.
    induction names as [|f names IH]; [done|].
    apply Forall_cons in Hnone as [Hf Hn].
    rewrite filter_cons_False; [by apply IH|]. by rewrite Hf. }
  unfold main. rewrite Hdir. cbv zeta. rewrite Hp.
  unfold load_image_and_metadata.
  change (list_of_str (AList (map AStr []))) with (Some (@nil string)).
  cbn [load_images]. unfold load_metadata, rbind, rret.
  rewrite validate_ok; [|done|simpl; by rewrite Hx].
  rewrite Hd. reflexivity.
Qed.

Lemma main_first_image (args : args_t) (names : list string)
    (d : gmap string yvalue) (w : world) p0 rest :
  inputs_load listdir exists0 imread safe_load args names d w →
  pgm_paths (image_dir args) names = p0 :: rest →
  ∃ l0 a0 images h',
    imread p0 = Some a0
    ∧ h' !! l0 = Some a0
    ∧ preserved (w_heap w) h'
    ∧ (∀ k l, images !! k = Some l →
         ∃ p a, (p0 :: rest) !! (1 + k)%nat = Some p ∧ imread p = Some a
                ∧ h' !! l = Some a)
    ∧ main listdir exists0 imread safe_load makedirs0 writable Canny HoughLinesP
      cv2_line args w
      = rbind (main_body exists0 makedirs0 writable Canny HoughLinesP cv2_line args (p0 :: rest)
                 d 0 l0)
          (λ _, main_loop exists0 makedirs0 writable Canny HoughLinesP cv2_line args (p0 :: rest)
                  d 1 images)
          (World h' (w_out w) (w_dirs w)).
Proof.
  intros (Hdir & Hall & He & Hx & Hd) Hp.
  destruct (main_start args names d w Hdir Hall He Hx Hd)
    as (images & h' & Hmain & Hlen & _ & Hpres & Hidx).
  rewrite Hp in *.
  destruct images as [|l0 images]; [discriminate Hlen|].
  destruct (Hidx 0%nat p0 eq_refl) as (l & a0 & Hl & Ha0 & Hh).
  injection Hl as <-.
  exists l0, a0, images, h'.
  split; [done|]. split; [done|]. split; [done|]. split; [|done].
  intros k l Hk.
  assert (Hlt : (S k < length (p0 :: rest))%nat).
  { rewrite <- Hlen. simpl. apply lookup_lt_Some in Hk. lia. }
  destruct (lookup_lt_is_Some_2 _ _ Hlt) as [p Hpk].
  destruct (Hidx (S k) p Hpk) as (l' & a & Hl' & Ha & Hh').
  simpl in Hl'. rewrite Hk in Hl'. injection Hl' as <-.
  by exists p, a.
Qed.

(** X17.  With at least one image to process and a calibration that lacks
    one of the four keys, the run stops at the first image with a
    [KeyError] for the first missing key, in the order occupied_thresh,
    free_thresh, negate, resolution; no file has been written and no
    directory created. *)
Theorem main_missing_key (args : args_t) (names : list string)
    (d : gmap string yvalue) (w : world) :
  inputs_load listdir exists0 imread safe_load args names d w →
  pgm_paths (image_dir args) names ≠ [] →
  (∃ k, k ∈ calibration_keys ∧ d !! k = None) →
  ∃ before k after w',
    main listdir exists0 imread safe_load makedirs0 writable Canny HoughLinesP
      cv2_line args w
    = Raise (ExKey k) w'
    ∧ calibration_keys = before ++ k :: after
    ∧ Forall (λ k', is_Some (d !! k')) before
    ∧ d !! k = None
    ∧ w_out w' = w_out w
    ∧ w_dirs w' = w_dirs w.
Proof.
  intros Hin Hne (k0 & Hk0 & Hmiss).
  destruct (pgm_paths (image_dir args) names) as [|p0 rest] eqn:Hp; [done|].
  destruct (main_first_image args names d w p0 rest Hin Hp)
    as (l0 & a0 & images & h' & Ha0 & Hl0 & _ & _ & Hmain).
  rewrite Hmain. unfold rbind at 1. unfold main_body, getitem.
  destruct (d !! "occupied_thresh") as [occ|] eqn:Hocc.
  2:{ exists [], "occupied_thresh", ["free_thresh"; "negate"; "resolution"].
      eexists. split; [reflexivity|]. by repeat split. }
  destruct (d !! "free_thresh") as [fre|] eqn:Hfre.
  2:{ exists ["occupied_thresh"], "free_thresh", ["negate"; "resolution"].
      eexists. split; [reflexivity|]. repeat split; try done.
      repeat constructor. by rewrite Hocc. }
  destruct (d !! "negate") as [neg|] eqn:Hneg.
  2:{ exists ["occupied_thresh"; "free_thresh"], "negate", ["resolution"].
      eexists. split; [reflexivity|]. repeat split; try done.
      repeat constructor; by rewrite ?Hocc, ?Hfre. }
  destruct (d !! "resolution") as [res|] eqn:Hres.
  { exfalso. unfold calibration_keys in Hk0.
    rewrite !elem_of_cons, elem_of_nil in Hk0.
    destruct Hk0 as [-> | [-> | [-> | [-> | []]]]]; congruence. }
  destruct (stages_run h' l0 a0 (number occ) (number fre) (truthy neg) 0 Hl0)
    as (b & e & fp & h1 & h2 & h3 & Hpre & Hedges & _).
  exists ["occupied_thresh"; "free_thresh"; "negate"], "resolution", [].
  exists (World h2 (w_out w) (w_dirs w)).
  split.
  - unfold rbind at 1. unfold rret at 1.
    unfold rbind at 1. unfold rret at 1.
    unfold rbind at 1. unfold rret at 1.
    unfold rbind at 1.
    erewrite lift_heap_run by exact Hpre.
    unfold rbind at 1. erewrite lift_heap_run by exact Hedges.
    reflexivity.
  - repeat split; try done.
    repeat constructor; by rewrite ?Hocc, ?Hfre, ?Hneg.
Qed.

Lemma vector_files_restore (out : gmap string out_file) :
  (VectorOut <$> vector_files out) ∪ out = out.
Proof.
  apply map_eq. intros i. unfold vector_files.
  rewrite lookup_union, lookup_fmap, lookup_omap.
  by destruct (out !! i) as [[a|f]|].
Qed.

(** An exporter that raises leaves the files written so far as they are. *)
Lemma lift_export_none (args : args_t) (name : string) (w : world) c :
  vector_format args = "yes" →
  vector_choice args = Some c →
  c ∈ ["svg"; "json"; "dxf"] →
  export_vector args None name w = Raise ExType w.
Proof.
  intros Hv Hc Hin. unfold export_vector. rewrite Hv, Hc.
  rewrite !elem_of_cons, elem_of_nil in Hin.
  destruct Hin as [-> | [-> | [-> | []]]]; cbn [String.eqb Ascii.eqb Bool.eqb];
    unfold lift_export; simpl; rewrite vector_files_restore; by destruct w.
Qed.

(** The output directory of a run that can use it. *)
Lemma output_dirs_ready (args : args_t) (w : world) :
  output_ready exists0 makedirs0 args w →
  ∃ dirs,
    output_dirs exists0 makedirs0 args w = Some dirs
    ∧ w_dirs w ⊆ dirs
    ∧ dirs ⊆ {[output_dir args]} ∪ default ∅ (makedirs0 (output_dir args))
             ∪ w_dirs w
    ∧ (path_exists exists0 w (output_dir args) = true
       ∨ output_dir args ∈ dirs).
Proof.
  intros Hready. unfold output_dirs.
  destruct (path_exists exists0 w (output_dir args)) eqn:Hex.
  - exists (w_dirs w). split; [done|]. split; [done|].
    split; [apply union_subseteq_r|by left].
  - destruct Hready as [H | [parents Hparents]]; [congruence|].
    rewrite Hparents. cbn [fmap option_fmap option_map default].
    eexists. split; [reflexivity|]. split; [apply union_subseteq_r|].
    split; [done|]. right. apply elem_of_union_l, elem_of_union_l.
    by apply elem_of_singleton.
Qed.

(** X18.  With [--vector_format yes] and no [--vector_choice], on a file
    system where the output directory exists or can be created and the
    raster file of the first image can be written, the run stops at the
    first image with the [ValueError] of an invalid vector choice, after
    the raster file of that image has been written: that is the only file
    written. *)
Theorem main_missing_vector_choice (args : args_t) (names : list string)
    (d : gmap string yvalue) (w : world) p0 rest occ fre neg res :
  inputs_load listdir exists0 imread safe_load args names d w →
  pgm_paths (image_dir args) names = p0 :: rest →
  d !! "occupied_thresh" = Some occ →
  d !! "free_thresh" = Some fre →
  d !! "negate" = Some neg →
  d !! "resolution" = Some res →
  output_ready exists0 makedirs0 args w →
  writable (raster_path args p0) = true →
  vector_format args = "yes" →
  vector_choice args = None →
  ∃ a0 w',
    imread p0 = Some a0
    ∧ main listdir exists0 imread safe_load makedirs0 writable Canny HoughLinesP
        cv2_line args w
      = Raise (ExValue InvalidVectorChoice) w'
    ∧ w_out w'
      = <[raster_path args p0 :=
            RasterOut (plan_of cv2_line
                         (lines_of Canny HoughLinesP (number occ) (number fre)
                            (truthy neg) (number res) a0) a0)]> (w_out w).
Proof.
  intros Hin Hp Hocc Hfre Hneg Hres Hready Hw Hv Hc.
  destruct (main_first_image args names d w p0 rest Hin Hp)
    as (l0 & a0 & images & h' & Ha0 & Hl0 & _ & _ & Hmain).
  destruct (main_body_run args (p0 :: rest) d 0 l0
              (World h' (w_out w) (w_dirs w)) a0 occ fre neg res p0)
    as (h'' & _ & Hbody); try done.
  destruct (output_dirs_ready args (World h' (w_out w) (w_dirs w)))
    as (dirs & Hdirs & _); [done|].
  rewrite Hdirs in Hbody. unfold raster_written in Hbody.
  cbn [w_out] in Hbody. rewrite Hw in Hbody.
  exists a0. eexists. split; [done|].
  rewrite Hmain. unfold rbind at 1. rewrite Hbody.
  unfold export_vector. rewrite Hv, Hc. cbn [String.eqb Ascii.eqb Bool.eqb].
  unfold rraise. split; reflexivity.
Qed.

(** X19.  When [cv2.HoughLinesP] finds no line in the first image (it
    returns [None]) and a vector export is requested, on a file system
    where the output directory exists or can be created and the raster
    file of the first image can be written, the run stops at that image
    with a [TypeError] raised by the exporter, after the raster file of
    that image, an all-zero canvas, has been written and before any vector
    file is. *)
Theorem main_no_lines_vector_export (args : args_t) (names : list string)
    (d : gmap string yvalue) (w : world) p0 rest occ fre neg res c :
  inputs_load listdir exists0 imread safe_load args names d w →
  pgm_paths (image_dir args) names = p0 :: rest →
  d !! "occupied_thresh" = Some occ →
  d !! "free_thresh" = Some fre →
  d !! "negate" = Some neg →
  d !! "resolution" = Some res →
  output_ready exists0 makedirs0 args w →
  writable (raster_path args p0) = true →
  vector_format args = "yes" →
  vector_choice args = Some c →
  c ∈ ["svg"; "json"; "dxf"] →
  (∀ a0, imread p0 = Some a0 →
         lines_of Canny HoughLinesP (number occ) (number fre) (truthy neg)
           (number res) a0 = None) →
  ∃ a0 w',
    imread p0 = Some a0
    ∧ main listdir exists0 imread safe_load makedirs0 writable Canny HoughLinesP
        cv2_line args w
      = Raise ExType w'
    ∧ w_out w' = <[raster_path args p0 := RasterOut (np.zeros a0)]> (w_out w).
Proof.
  intros Hin Hp Hocc Hfre Hneg Hres Hready Hw Hv Hc Hcin Hnone.
  destruct (main_first_image args names d w p0 rest Hin Hp)
    as (l0 & a0 & images & h' & Ha0 & Hl0 & _ & _ & Hmain).
  destruct (main_body_run args (p0 :: rest) d 0 l0
              (World h' (w_out w) (w_dirs w)) a0 occ fre neg res p0)
    as (h'' & _ & Hbody); try done.
  destruct (output_dirs_ready args (World h' (w_out w) (w_dirs w)))
    as (dirs & Hdirs & _); [done|].
  rewrite Hdirs in Hbody. unfold raster_written in Hbody.
  cbn [w_out] in Hbody. rewrite Hw in Hbody.
  exists a0. eexists. split; [done|].
  rewrite Hmain. unfold rbind at 1. rewrite Hbody.
  rewrite (Hnone a0 Ha0).
  rewrite (lift_export_none args _ _ c Hv Hc Hcin).
  split; reflexivity.
Qed.

Lemma path_exists_mono (w w' : world) (p : string) :
  w_dirs w ⊆ w_dirs w' →
  (∀ q, is_Some (w_out w !! q) → is_Some (w_out w' !! q)) →
  path_exists exists0 w p = true → path_exists exists0 w' p = true.
Proof.
  intros Hd Ho. unfold path_exists.
  rewrite !orb_true_iff, !bool_decide_eq_true.
  intros [[H | H] | H]; auto.
Qed.

Lemma raster_written_lookup (path : string) (plan : raster)
    (out : gmap string out_file) (q : string) :
  raster_written writable path plan out !! q
  = if decide (path = q ∧ writable path = true) then Some (RasterOut plan)
    else out !! q.
Proof.
  unfold raster_written. destruct (writable path) eqn:E.
  - destruct (decide (path = q)) as [<-|Hne].
    + rewrite lookup_insert_eq. by rewrite decide_True.
    + rewrite lookup_insert_ne by done. rewrite decide_False; [done|tauto].
  - rewrite decide_False; [done|]. intros [_ H]. discriminate H.
Qed.

(** The loop of [main] when no vector export is requested. *)
Lemma main_loop_no_vector (args : args_t) (paths : list string)
    (d : gmap string yvalue) occ fre neg res :
  d !! "occupied_thresh" = Some occ →
  d !! "free_thresh" = Some fre →
  d !! "negate" = Some neg →
  d !! "resolution" = Some res →
  vector_format args = "no" →
  ∀ (images : list loc) (i : nat) (w : world),
    output_ready exists0 makedirs0 args w →
    (∀ k l, images !! k = Some l →
       ∃ p a, paths !! (i + k)%nat = Some p ∧ imread p = Some a
              ∧ w_heap w !! l = Some a) →
    ∃ w',
      main_loop exists0 makedirs0 writable Canny HoughLinesP cv2_line args
        paths d i images w
      = Done tt w'
      ∧ preserved (w_heap w) (w_heap w')
      ∧ (∀ path,
           w_out w' !! path = w_out w !! path
           ∨ ∃ k p a,
               (k < length images)%nat ∧ paths !! (i + k)%nat = Some p
               ∧ imread p = Some a ∧ raster_path args p = path
               ∧ writable path = true
               ∧ w_out w' !! path
                 = Some (RasterOut
                           (plan_of cv2_line
                              (lines_of Canny HoughLinesP (number occ)
                                 (number fre) (truthy neg) (number res) a) a)))
      ∧ (∀ k p, (k < length images)%nat → paths !! (i + k)%nat = Some p →
           writable (raster_path args p) = true →
           is_Some (w_out w' !! raster_path args p))
      ∧ w_dirs w ⊆ w_dirs w'
      ∧ w_dirs w' ⊆ {[output_dir args]}
                    ∪ default ∅ (makedirs0 (output_dir args)) ∪ w_dirs w
      ∧ (images ≠ [] → path_exists exists0 w' (output_dir args) = true).
Proof.
  intros Hocc Hfre Hneg Hres Hv.
  induction images as [|l images IH]; intros i w Hready Himg.
  - exists w. simpl. split; [done|]. split; [apply preserved_refl|].
    split; [by left|]. split; [intros k p Hk; lia|].
    split; [done|]. split; [apply union_subseteq_r|done].
  - destruct (Himg 0%nat l eq_refl) as (p & a & Hp & Ha & Hl).
    rewrite Nat.add_0_r in Hp.
    destruct (main_body_run args paths d i l w a occ fre neg res p)
      as (h1 & Hpres1 & Hbody); try done.
    destruct (output_dirs_ready args w Hready)
      as (dirs & Hdirs & Hd1 & Hd2 & Hd3).
    rewrite Hdirs in Hbody.
    set (plan := plan_of cv2_line
                   (lines_of Canny HoughLinesP (number occ) (number fre)
                      (truthy neg) (number res) a) a) in *.
    set (w1 := World h1 (raster_written writable (raster_path args p) plan
                           (w_out w)) dirs) in *.
    assert (Hout1 : ∀ q, is_Some (w_out w !! q) → is_Some (w_out w1 !! q)).
    { intros q Hq. unfold w1. cbn [w_out]. rewrite raster_written_lookup.
      by destruct (decide _). }
    assert (Hex1 : path_exists exists0 w1 (output_dir args) = true).
    { destruct Hd3 as [Hex | Hin].
      - revert Hex. by apply path_exists_mono.
      - unfold path_exists. cbn [w_dirs w1].
        rewrite !orb_true_iff, !bool_decide_eq_true. left. by right. }
    destruct (IH (S i) w1) as (w' & Hloop & Hpres & Hfiles & Hex & Hd1' & Hd2' & _).
    { by left. }
    { intros k l' Hk. destruct (Himg (S k) l' Hk) as (q & b & Hq & Hb & Hl').
      exists q, b. rewrite Nat.add_succ_r in Hq. split; [done|]. split; [done|].
      by apply Hpres1. }
    assert (Hmono : ∀ q, is_Some (w_out w1 !! q) → is_Some (w_out w' !! q)).
    { intros q Hq. destruct (Hfiles q) as [-> | (k & p' & a' & _ & _ & _ & _ & _ & ->)];
        [done|by eexists]. }
    exists w'. cbn [main_loop]. unfold rbind at 1. rewrite Hbody.
    unfold export_vector. rewrite Hv. cbn [String.eqb Ascii.eqb Bool.eqb].
    unfold rret at 1. fold w1.
    split; [exact Hloop|].
    split; [by apply (preserved_trans _ h1)|].
    split; [|split; [|split; [|split]]].
    + intros path. destruct (Hfiles path) as [Hsame | (k & q & b & Hk & Hq & Hb & Hrp & Hwq & Hout)].
      * rewrite Hsame. unfold w1. cbn [w_out]. rewrite raster_written_lookup.
        destruct (decide _) as [[Heq Hw]|Hne]; [|by left].
        right. exists 0%nat, p, a. rewrite Nat.add_0_r.
        split; [simpl; lia|]. split; [done|]. split; [done|]. split; [done|].
        split; [by rewrite <- Heq|done].
      * right. exists (S k), q, b. rewrite Nat.add_succ_r.
        split; [simpl; lia|]. done.
    + intros [|k] q Hk Hq Hw.
      * rewrite Nat.add_0_r, Hp in Hq. injection Hq as <-.
        apply Hmono. unfold w1. cbn [w_out]. rewrite raster_written_lookup.
        rewrite decide_True by done. by eexists.
      * apply (Hex k); [simpl in Hk; lia| |done]. by rewrite Nat.add_succ_r in Hq.
    + by transitivity dirs.
    + transitivity ({[output_dir args]}
                    ∪ default ∅ (makedirs0 (output_dir args)) ∪ w_dirs w1);
        [done|].
      cbn [w_dirs w1].
      apply union_least; [apply union_subseteq_l|done].
    + intros _. revert Hex1. by apply path_exists_mono.
Qed.

(** X20.  When every input loads, the calibration has its four keys, the
    output directory exists or can be created and no vector export is
    requested, the run ends normally, whether or not [cv2.imwrite] can
    write the raster files.  Afterwards every image whose raster file can
    be written has it; each file is either as it was before the run or the
    floor plan of an input image whose raster path it is; the only
    directories that may have been created are the output directory and
    the parents [os.makedirs] creates with it, and the output directory
    exists as soon as one image was processed; the arrays in memory before
    the run are unchanged. *)
Theorem main_success_no_vector (args : args_t) (names : list string)
    (d : gmap string yvalue) (w : world) occ fre neg res :
  inputs_load listdir exists0 imread safe_load args names d w →
  d !! "occupied_thresh" = Some occ →
  d !! "free_thresh" = Some fre →
  d !! "negate" = Some neg →
  d !! "resolution" = Some res →
  output_ready exists0 makedirs0 args w →
  vector_format args = "no" →
  ∃ w',
    main listdir exists0 imread safe_load makedirs0 writable Canny HoughLinesP
      cv2_line args w
    = Done tt w'
    ∧ preserved (w_heap w) (w_heap w')
    ∧ (∀ p, p ∈ pgm_paths (image_dir args) names →
         writable (raster_path args p) = true →
         is_Some (w_out w' !! raster_path args p))
    ∧ (∀ path,
         w_out w' !! path = w_out w !! path
         ∨ ∃ p a,
             p ∈ pgm_paths (image_dir args) names
             ∧ imread p = Some a ∧ raster_path args p = path
             ∧ writable path = true
             ∧ w_out w' !! path
               = Some (RasterOut
                         (plan_of cv2_line
                            (lines_of Canny HoughLinesP (number occ)
                               (number fre) (truthy neg) (number res) a) a)))
    ∧ w_dirs w ⊆ w_dirs w'
    ∧ w_dirs w' ⊆ {[output_dir args]}
                  ∪ default ∅ (makedirs0 (output_dir args)) ∪ w_dirs w
    ∧ (pgm_paths (image_dir args) names ≠ [] →
       path_exists exists0 w' (output_dir args) = true).
Proof.
  intros (Hdir & Hall & He & Hx & Hd) Hocc Hfre Hneg Hres Hready Hv.
  destruct (main_start args names d w Hdir Hall He Hx Hd)
    as (images & h' & Hmain & Hlen & _ & Hpres & Hidx).
  set (paths := pgm_paths (image_dir args) names) in *.
  destruct (main_loop_no_vector args paths d occ fre neg res
              Hocc Hfre Hneg Hres Hv images 0 (World h' (w_out w) (w_dirs w)))
    as (w' & Hloop & Hpres' & Hfiles & Hex & Hd1 & Hd2 & Hod).
  { done. }
  { intros k l Hk.
    assert (Hlt : (k < length paths)%nat)
      by (rewrite <- Hlen; by apply lookup_lt_Some in Hk).
    destruct (lookup_lt_is_Some_2 _ _ Hlt) as [p Hp].
    destruct (Hidx k p Hp) as (l' & a & Hl' & Ha & Hh).
    rewrite Hk in Hl'. injection Hl' as <-. by exists p, a. }
  exists w'. rewrite Hmain.
  split; [done|]. split; [by apply (preserved_trans _ h')|].
  split; [|split; [|split; [done|split; [done|]]]].
  - intros p [k Hk]%list_elem_of_lookup.
    apply (Hex k); [|done]. rewrite Hlen. by apply lookup_lt_Some in Hk.
  - intros path. destruct (Hfiles path) as [Hsame | (k & p & a & Hk & Hp & Ha & Hrp & Hw & Hout)].
    + by left.
    + right. exists p, a. split; [|done].
      apply list_elem_of_lookup. by exists k.
  - intros Hne. apply Hod. intros ->. destruct paths; [done|discriminate Hlen].
Qed.


(** X25.  [main] does not look at what [cv2.imwrite] returns: when no
    raster file can be written and no vector export is requested, a run
    whose inputs load still ends normally, and it has written nothing. *)
Theorem main_raster_files_not_written (args : args_t) (names : list string)
    (d : gmap string yvalue) (w : world) occ fre neg res :
  inputs_load listdir exists0 imread safe_load args names d w →
  d !! "occupied_thresh" = Some occ →
  d !! "free_thresh" = Some fre →
  d !! "negate" = Some neg →
  d !! "resolution" = Some res →
  output_ready exists0 makedirs0 args w →
  vector_format args = "no" →
  (∀ p, p ∈ pgm_paths (image_dir args) names →
        writable (raster_path args p) = false) →
  ∃ w',
    main listdir exists0 imread safe_load makedirs0 writable Canny HoughLinesP
      cv2_line args w
    = Done tt w'
    ∧ w_out w' = w_out w.
Proof.
  intros (Hdir & Hall & He & Hx & Hd) Hocc Hfre Hneg Hres Hready Hv Hro.
  destruct (main_start args names d w Hdir Hall He Hx Hd)
    as (images & h' & Hmain & Hlen & _ & Hpres & Hidx).
  set (paths := pgm_paths (image_dir args) names) in *.
  destruct (main_loop_no_vector args paths d occ fre neg res
              Hocc Hfre Hneg Hres Hv images 0 (World h' (w_out w) (w_dirs w)))
    as (w' & Hloop & _ & Hfiles & _).
  { done. }
  { intros k l Hk.
    assert (Hlt : (k < length paths)%nat)
      by (rewrite <- Hlen; by apply lookup_lt_Some in Hk).
    destruct (lookup_lt_is_Some_2 _ _ Hlt) as [p Hp].
    destruct (Hidx k p Hp) as (l' & a & Hl' & Ha & Hh).
    rewrite Hk in Hl'. injection Hl' as <-. by exists p, a. }
  exists w'. rewrite Hmain. split; [done|].
  apply map_eq. intros path.
  destruct (Hfiles path) as [Hsame | (k & p & a & Hk & Hp & Ha & Hrp & Hw & Hout)];
    [done|].
  exfalso. rewrite <- Hrp in Hw. rewrite Hro in Hw; [discriminate Hw|].
  apply list_elem_of_lookup. by exists k.
Qed.

End Pipeline.

(** * The properties above on a small run *)

Lemma demo_inputs_load (names : list string) (paths : list string)
    (vf : string) (vc : option string) (d : gmap string yvalue) :
  pgm_paths "maps" names = paths →
  Forall (λ p, pystr.endswith p ".pgm" = true) paths →
  inputs_load (demo.listdir names) demo.exists0 demo.imread (demo.safe_load d)
    (demo.args vf vc) names d demo.start.
Proof.
  intros Hp Hall. unfold inputs_load. cbn [image_dir yaml_path demo.args].
  split; [reflexivity|]. rewrite Hp.
  split; [|by repeat split].
  eapply Forall_impl; [exact Hall|]. intros p Hx.
  split; [reflexivity|]. split; [done|]. by eexists.
Qed.

Lemma load_image_and_metadata_success_witness :
  ∃ images h',
    load_image_and_metadata demo.exists0 demo.imread
      (demo.safe_load demo.calibration)
      (AList (map AStr ["maps/hall.pgm"])) (AStr "maps/map.yaml") demo.start
    = Done (images, demo.calibration) (World h' ∅ ∅)
    ∧ length images = 1%nat.
Proof.
  destruct (load_image_and_metadata_success demo.exists0 demo.imread
              (demo.safe_load demo.calibration) ["maps/hall.pgm"]
              "maps/map.yaml" demo.calibration demo.start)
    as (images & h' & Hrun & Hlen & _).
  - repeat constructor. by eexists.
  - reflexivity.
  - reflexivity.
  - reflexivity.
  - by exists images, h'.
Defined.

Lemma load_stops_at_first_bad_image_witness :
  ∃ r w',
    load_image_and_metadata demo.exists0 demo.imread
      (demo.safe_load demo.calibration)
      (AList (map AStr (["maps/hall.pgm"] ++ "maps/notes.txt" :: ["maps/b.pgm"])))
      (AStr "maps/map.yaml") demo.start
    = Raise (ExValue r) w'
    ∧ (r = FileNotFound "maps/notes.txt"
       ∨ r = InvalidFormat "maps/notes.txt" [".pgm"]
       ∨ r = FailedToLoad "maps/notes.txt").
Proof.
  destruct (load_stops_at_first_bad_image demo.exists0 demo.imread
              (demo.safe_load demo.calibration) ["maps/hall.pgm"]
              "maps/notes.txt" ["maps/b.pgm"] "maps/map.yaml" demo.start)
    as (r & w' & Hrun & Hr & _).
  - repeat constructor. by eexists.
  - intros (_ & Hx & _). discriminate Hx.
  - by exists r, w'.
Defined.

Lemma pipeline_stages_witness :
  ∃ floor_plan h',
    process_image demo.Canny demo.HoughLinesP demo.cv2_line 1%positive
      {| resolution := 0.05; occupied_thresh := 0.65; free_thresh := 0.196;
         negate := false |}
      {[ 1%positive := [[0; 200]; [200; 0]] ]}
    = Some ((floor_plan, None), h')
    ∧ h' !! floor_plan = Some [[0; 0]; [0; 0]].
Proof.
  destruct (pipeline_stages demo.Canny demo.HoughLinesP demo.cv2_line
              {| resolution := 0.05; occupied_thresh := 0.65;
                 free_thresh := 0.196; negate := false |}
              {[ 1%positive := [[0; 200]; [200; 0]] ]} 1%positive
              [[0; 200]; [200; 0]])
    as (fp & h' & Hrun & Hfp & _).
  - apply lookup_singleton_eq.
  - by exists fp, h'.
Defined.

Lemma main_without_images_witness :
  main (demo.listdir ["notes.txt"; "plan.png"]) demo.exists0 demo.imread
    (demo.safe_load ∅) demo.makedirs0 demo.writable demo.Canny
    demo.HoughLinesP demo.cv2_line (demo.args "yes" None) demo.start
  = Done tt demo.start.
Proof.
  apply (main_without_images (demo.listdir ["notes.txt"; "plan.png"])
           demo.exists0 demo.imread (demo.safe_load ∅) demo.makedirs0
           demo.writable demo.Canny demo.HoughLinesP demo.cv2_line
           (demo.args "yes" None) ["notes.txt"; "plan.png"] ∅ demo.start).
  - reflexivity.
  - by repeat constructor.
  - reflexivity.
  - reflexivity.
  - reflexivity.
Defined.

Lemma demo_paths :
  pgm_paths "maps" ["hall.pgm"; "notes.txt"] = ["maps/hall.pgm"].
Proof. reflexivity. Qed.

Lemma main_missing_key_witness :
  ∃ k w',
    main (demo.listdir ["hall.pgm"; "notes.txt"]) demo.exists0 demo.imread
      (demo.safe_load (delete "negate" demo.calibration)) demo.makedirs0
      demo.writable demo.Canny demo.HoughLinesP demo.cv2_line
      (demo.args "no" None) demo.start
    = Raise (ExKey k) w'
    ∧ delete "negate" demo.calibration !! k = None
    ∧ w_out w' = ∅.
Proof.
  destruct (main_missing_key (demo.listdir ["hall.pgm"; "notes.txt"])
              demo.exists0 demo.imread
              (demo.safe_load (delete "negate" demo.calibration))
              demo.makedirs0 demo.writable demo.Canny
              demo.HoughLinesP demo.cv2_line (demo.args "no" None)
              ["hall.pgm"; "notes.txt"] (delete "negate" demo.calibration)
              demo.start)
    as (before & k & after & w' & Hrun & _ & _ & Hk & Hout & _).
  - apply (demo_inputs_load _ _ _ _ _ demo_paths). by repeat constructor.
  - cbn [image_dir demo.args]. by rewrite demo_paths.
  - exists "negate". split; [|apply lookup_delete_eq].
    unfold calibration_keys. rewrite !elem_of_cons. tauto.
  - by exists k, w'.
Defined.

Lemma main_missing_vector_choice_witness :
  ∃ a0 w',
    demo.imread "maps/hall.pgm" = Some a0
    ∧ main (demo.listdir ["hall.pgm"; "notes.txt"]) demo.exists0 demo.imread
        (demo.safe_load demo.calibration) demo.makedirs0 demo.writable
        demo.Canny demo.HoughLinesP demo.cv2_line (demo.args "yes" None)
        demo.start
      = Raise (ExValue InvalidVectorChoice) w'
    ∧ is_Some (w_out w' !! raster_path (demo.args "yes" None) "maps/hall.pgm").
Proof.
  destruct (main_missing_vector_choice (demo.listdir ["hall.pgm"; "notes.txt"])
              demo.exists0 demo.imread (demo.safe_load demo.calibration)
              demo.makedirs0 demo.writable
              demo.Canny demo.HoughLinesP demo.cv2_line (demo.args "yes" None)
              ["hall.pgm"; "notes.txt"] demo.calibration demo.start
              "maps/hall.pgm" [] (YNum 0.65) (YNum 0.196) (YNum 0) (YNum 0.05))
    as (a0 & w' & Ha0 & Hrun & Hout).
  - apply (demo_inputs_load _ _ _ _ _ demo_paths). by repeat constructor.
  - apply demo_paths.
  - reflexivity.
  - reflexivity.
  - reflexivity.
  - reflexivity.
  - left. reflexivity.
  - reflexivity.
  - reflexivity.
  - reflexivity.
  - exists a0, w'. split; [done|]. split; [done|].
    rewrite Hout. rewrite lookup_insert_eq. by eexists.
Defined.

Lemma main_no_lines_vector_export_witness :
  ∃ a0 w',
    demo.imread "maps/hall.pgm" = Some a0
    ∧ main (demo.listdir ["hall.pgm"; "notes.txt"]) demo.exists0 demo.imread
        (demo.safe_load demo.calibration) demo.makedirs0 demo.writable
        demo.Canny demo.HoughLinesP demo.cv2_line
        (demo.args "yes" (Some "json")) demo.start
      = Raise ExType w'
    ∧ w_out w'
      = <[raster_path (demo.args "yes" (Some "json")) "maps/hall.pgm" :=
            RasterOut (np.zeros a0)]> ∅.
Proof.
  apply (main_no_lines_vector_export (demo.listdir ["hall.pgm"; "notes.txt"])
           demo.exists0 demo.imread (demo.safe_load demo.calibration)
           demo.makedirs0 demo.writable
           demo.Canny demo.HoughLinesP demo.cv2_line
           (demo.args "yes" (Some "json"))
           ["hall.pgm"; "notes.txt"] demo.calibration demo.start
           "maps/hall.pgm" [] (YNum 0.65) (YNum 0.196) (YNum 0) (YNum 0.05)
           "json").
  - apply (demo_inputs_load _ _ _ _ _ demo_paths). by repeat constructor.
  - apply demo_paths.
  - reflexivity.
  - reflexivity.
  - reflexivity.
  - reflexivity.
  - left. reflexivity.
  - reflexivity.
  - reflexivity.
  - reflexivity.
  - rewrite !elem_of_cons. tauto.
  - reflexivity.
Defined.

(** The same inputs where the directory [out] is missing. *)
Lemma demo_inputs_load_but_out (vf : string) (vc : option string) :
  inputs_load (demo.listdir ["hall.pgm"; "notes.txt"]) demo.exists_but_out
    demo.imread (demo.safe_load demo.calibration) (demo.args vf vc)
    ["hall.pgm"; "notes.txt"] demo.calibration demo.start.
Proof.
  unfold inputs_load. cbn [image_dir yaml_path demo.args].
  split; [reflexivity|]. rewrite demo_paths.
  split; [|by repeat split].
  repeat constructor. by eexists.
Qed.

Lemma main_success_no_vector_witness :
  ∃ w',
    main (demo.listdir ["hall.pgm"; "notes.txt"]) demo.exists_but_out
      demo.imread (demo.safe_load demo.calibration) demo.makedirs0
      demo.writable demo.Canny demo.HoughLinesP demo.cv2_line
      (demo.args "no" None) demo.start
    = Done tt w'
    ∧ is_Some (w_out w' !! raster_path (demo.args "no" None) "maps/hall.pgm")
    ∧ w_dirs w' ⊆ {["out"]}
    ∧ path_exists demo.exists_but_out w' "out" = true.
Proof.
  destruct (main_success_no_vector (demo.listdir ["hall.pgm"; "notes.txt"])
              demo.exists_but_out demo.imread
              (demo.safe_load demo.calibration) demo.makedirs0 demo.writable
              demo.Canny demo.HoughLinesP demo.cv2_line (demo.args "no" None)
              ["hall.pgm"; "notes.txt"] demo.calibration demo.start
              (YNum 0.65) (YNum 0.196) (YNum 0) (YNum 0.05))
    as (w' & Hrun & _ & Hex & _ & _ & Hd & Hout).
  - apply demo_inputs_load_but_out.
  - reflexivity.
  - reflexivity.
  - reflexivity.
  - reflexivity.
  - right. by eexists.
  - reflexivity.
  - exists w'. split; [done|]. split; [|split].
    + apply Hex; [|reflexivity]. cbn [image_dir demo.args]. rewrite demo_paths.
      apply list_elem_of_here.
    + etransitivity; [exact Hd|].
      cbn [w_dirs demo.start output_dir demo.args demo.makedirs0 default].
      by rewrite !union_empty_r_L.
    + apply Hout. cbn [image_dir demo.args]. by rewrite demo_paths.
Defined.


Lemma main_raster_files_not_written_witness :
  ∃ w',
    main (demo.listdir ["hall.pgm"; "notes.txt"]) demo.exists0 demo.imread
      (demo.safe_load demo.calibration) demo.makedirs0 demo.read_only
      demo.Canny demo.HoughLinesP demo.cv2_line (demo.args "no" None)
      demo.start
    = Done tt w'
    ∧ w_out w' = ∅.
Proof.
  apply (main_raster_files_not_written
           (demo.listdir ["hall.pgm"; "notes.txt"]) demo.exists0 demo.imread
           (demo.safe_load demo.calibration) demo.makedirs0 demo.read_only
           demo.Canny demo.HoughLinesP demo.cv2_line (demo.args "no" None)
           ["hall.pgm"; "notes.txt"] demo.calibration demo.start
           (YNum 0.65) (YNum 0.196) (YNum 0) (YNum 0.05)).
  - apply (demo_inputs_load _ _ _ _ _ demo_paths). by repeat constructor.
  - reflexivity.
  - reflexivity.
  - reflexivity.
  - reflexivity.
  - left. reflexivity.
  - reflexivity.
  - intros p _. reflexivity.
Defined.
